(** * wx-sta-agg-influx: the multi-interval wind-direction aggregation engine

    A shallow embedding of [util.go], [wind_direction.go] and [main.go].
    The repository carries three revisions of [wind_direction.go]:

    - [Unweighted]: averages the clamped directions, writes one point that
      holds the fields of every interval, stamped at the run time;
    - [Weighted]: weights the directions by wind speed, writes one point
      per interval, stamped at the middle of the interval's window;
    - [Returning]: as [Weighted], but with a single "VAR" threshold, and
      the points are handed back to [main], which writes them.

    The InfluxDB client, the clock, [retry-go], [libwx], [time.Parse] and
    [json.Number.Float64] are collaborators of the engine: they are taken
    as oracles ([World]) and as an interface ([Collab]). *)

From Stdlib Require Import ZArith Floats Ascii String List Lia Bool.
From stdpp Require Import base option list gmap strings sorting.

Local Open Scope Z_scope.

(** ** Time

    A [time.Duration] is a signed 64-bit count of nanoseconds.  A
    [time.Time] is modelled as its count of nanoseconds since the epoch; the
    instants RFC 3339 can denote are far inside the range Go represents. *)

Abbreviation Duration := Z.
Abbreviation Time := Z.

Definition Nanosecond : Duration := 1.
Definition Microsecond : Duration := 1000 * Nanosecond.
Definition Millisecond : Duration := 1000 * Microsecond.
Definition Second : Duration := 1000 * Millisecond.
Definition Minute : Duration := 60 * Second.
Definition Hour : Duration := 60 * Minute.

Definition minDuration : Duration := - 2 ^ 63.
Definition maxDuration : Duration := 2 ^ 63 - 1.

(** [t.Sub(u)]: the difference, saturated to the range of [Duration]. *)
Definition Time_Sub (t u : Time) : Duration :=
  let d := t - u in
  if (minDuration <=? d) && (d <=? maxDuration) then d
  else if t <? u then minDuration
  else maxDuration.

(** [t.Add(d)]. *)
Definition Time_Add (t : Time) (d : Duration) : Time := t + d.

(** ** The interval policy tables shared by the three revisions *)

Definition wdInterval6h : string := "6h".
Definition wdInterval3h : string := "3h".
Definition wdInterval1h : string := "1h".
Definition wdInterval30m : string := "30m".
Definition wdInterval15m : string := "15m".
Definition wdInterval5m : string := "5m".

Definition allWindDirectionIntervals : list string :=
  [ wdInterval6h; wdInterval3h; wdInterval1h;
    wdInterval30m; wdInterval15m; wdInterval5m ].

(** The lookups are Go [switch]es whose [default] panics with
    "unknown interval"; [None] stands for that panic. *)
Definition windDirIntervalToDuration (interval : string) : option Duration :=
  if String.eqb interval wdInterval6h then Some (6 * Hour)
  else if String.eqb interval wdInterval3h then Some (3 * Hour)
  else if String.eqb interval wdInterval1h then Some Hour
  else if String.eqb interval wdInterval30m then Some (30 * Minute)
  else if String.eqb interval wdInterval15m then Some (15 * Minute)
  else if String.eqb interval wdInterval5m then Some (5 * Minute)
  else None.

(** [a / b] on Go integers truncates toward zero. *)
Definition go_div (a b : Z) : Z := Z.quot a b.

(** ** util.go *)

(** [strings.Split(s, sep)] for a separator that is not empty: [skip]
    counts the bytes of a separator still to be passed over, [cur] is the
    piece read so far. *)
Fixpoint strings_Split_from (sep s : string) (skip : nat) (cur : string)
  : list string :=
  match s with
  | EmptyString => [cur]
  | String c s' =>
      match skip with
      | S k => strings_Split_from sep s' k cur
      | O =>
          if String.prefix sep s
          then cur :: strings_Split_from sep s' (String.length sep - 1) ""
          else strings_Split_from sep s' 0 (cur +:+ String c "")
      end
  end.

(** With an empty separator Go splits after each character. *)
Fixpoint strings_explode (s : string) : list string :=
  match s with
  | EmptyString => []
  | String c s' => String c "" :: strings_explode s'
  end.

Definition strings_Split (s sep : string) : list string :=
  match sep with
  | EmptyString => strings_explode s
  | _ => strings_Split_from sep s 0 ""
  end.

Fixpoint strings_Join (elems : list string) (sep : string) : string :=
  match elems with
  | [] => ""
  | [e] => e
  | e :: rest => e +:+ sep +:+ strings_Join rest sep
  end.

(** The loop of [ParseTags] over the comma-separated pieces. *)
Fixpoint ParseTags_range (pieces : list string) (retv : gmap string string)
  : string + gmap string string :=
  match pieces with
  | [] => inr retv
  | tag :: rest =>
      match strings_Split tag "=" with
      | [k; v] => ParseTags_range rest (<[k := v]> retv)
      | _ => inl ("invalid tag: " +:+ tag)
      end
  end.

Definition ParseTags (tags : string) : string + gmap string string :=
  ParseTags_range (strings_Split tags ",") ∅.

(** Go ranges over a map in an unspecified order; the model takes the
    order of [map_to_list]. *)
Definition PartialWhereClauseForTags (tags : gmap string string) : string :=
  if decide (size tags = 0%nat) then ""
  else
    let parts :=
      (λ kv : string * string, kv.1 +:+ "='" +:+ kv.2 +:+ "'")
        <$> map_to_list tags in
    " AND " +:+ strings_Join parts " AND ".

(** [maps.Copy(dst, src)]: every entry of [src] is stored into [dst]. *)
Definition maps_Copy (dst src : gmap string string) : gmap string string :=
  map_fold (λ k v acc, <[k := v]> acc) dst src.

(** ** The InfluxDB client's data, as the engine sees it *)

(** A cell of a result row: the dynamic value behind an [interface{}]
    decoded from JSON with [UseNumber]. *)
Inductive cell : Type :=
| CString (s : string)
| CNumber (literal : string)
| CBool (b : bool)
| CNull.

(** [models.Row], [influxdb.Result], [influxdb.Response] and
    [influxdb.Query], with the members the engine reads or sets. *)
Record Row : Type := { Columns : list string; Values : list (list cell) }.
Record Result : Type := { Series : list Row }.
Record Response : Type := { Results : list Result; Err : string }.
Record Query : Type :=
  { Command : string; Database : string; RetentionPolicy : string }.

(** What [Influx.Query] hands back: an error, or a response. *)
Inductive queryReply : Type :=
| QueryError (msg : string)
| QueryResponse (r : Response).

Inductive fieldValue : Type :=
| FloatField (f : float)
| StringField (s : string).

Record Point : Type :=
  { pt_name : string;
    pt_tags : gmap string string;
    pt_fields : gmap string fieldValue;
    pt_time : Time }.

Inductive DirectionStrPrecision : Type :=
| DirectionStrPrecision1
| DirectionStrPrecision2.

(** ** Errors, panics, log lines *)

Inductive error : Type :=
| ErrQueryFailed (msg : string)
| ErrExpectedOneResult (got : nat)
| ErrExpectedOneSeries (got : nat)
| ErrFirstColumn (got : string)
| ErrSecondColumn (want got : string)
| ErrThirdColumn (want got : string)
| ErrParseTime (input : string)
| ErrParseWindDirection (input : string)
| ErrParseWindSpeed (input : string)
| ErrWeightedAvg (msg : string)
| ErrWeightedStdDev (msg : string)
| ErrCreatePoint (msg : string)
| ErrCreateBatch (msg : string).

Inductive panic : Type :=
| PanicUnknownInterval (interval : string)
| PanicIndexOutOfRange (index len : nat)
| PanicTypeAssertion (found : cell).

Inductive logline : Type :=
| LogDebugQuery (q : string)
| LogNoIntervals
| LogNoDataToAggregate
| LogNoDataToWrite
| LogWriteFailed (errs : list string)
| LogFatal (what : string) (msg : string)
| LogFatalError (what : string) (e : error)
| LogVersion (v : string).

Inductive event : Type :=
| Logged (l : logline)
| Queried (q : Query)
| Wrote (bp : list Point).

(** ** The collaborators *)

(** The run's surroundings: what the store answers to each query, what
    each successive write attempt returns ([None] is success), and what
    the successive readings of [time.Now] are. *)
Record World : Type :=
  { Influx_Query : Query -> queryReply;
    Influx_Write : nat -> list Point -> option string;
    clock : nat -> Time }.

(** The library functions the engine calls.  [None] of a parser or of a
    weighted statistic is its error; [Some msg] of a constructor is its
    error. *)
Record Collab : Type :=
  { time_Parse_RFC3339 : string -> option Time;
    Number_Float64 : string -> option float;
    Clamped : float -> float;
    AvgDirectionDeg : list float -> float;
    StdDevDeg : list float -> float;
    WeightedAvgDirectionDeg : list float -> list float -> string + float;
    WeightedStdDevDirectionDeg : list float -> list float -> string + float;
    DirectionStr : float -> DirectionStrPrecision -> string;
    influxdb_NewPoint : Point -> option string;
    influxdb_NewBatchPoints : string -> string -> option string }.

(** ** The monad of a run: a trace of effects, and the four ways a Go
    function ends *)

Record State : Type :=
  { trace : list event; ticks : nat; attempts : nat }.

Definition initialState : State :=
  {| trace := []; ticks := 0; attempts := 0 |}.

Inductive outcome (A : Type) : Type :=
| Returned (a : A)
| Failed (e : error)
| Panicked (p : panic)
| Exited (code : Z).
Arguments Returned {A} a.
Arguments Failed {A} e.
Arguments Panicked {A} p.
Arguments Exited {A} code.

Definition M (A : Type) : Type := State -> outcome A * State.

Definition ret {A} (a : A) : M A := λ s, (Returned a, s).

Definition bind {A B} (m : M A) (k : A -> M B) : M B :=
  λ s,
    match m s with
    | (Returned a, s') => k a s'
    | (Failed e, s') => (Failed e, s')
    | (Panicked p, s') => (Panicked p, s')
    | (Exited c, s') => (Exited c, s')
    end.

#[global] Instance M_ret : MRet M := @ret.
#[global] Instance M_bind : MBind M := λ A B k m, bind m k.

Definition returnErr {A} (e : error) : M A := λ s, (Failed e, s).
Definition go_panic {A} (p : panic) : M A := λ s, (Panicked p, s).
Definition os_Exit {A} (code : Z) : M A := λ s, (Exited code, s).

Definition emit (e : event) : M unit :=
  λ s, (Returned tt,
        {| trace := trace s ++ [e]; ticks := ticks s; attempts := attempts s |}).

Definition log_Printf (l : logline) : M unit := emit (Logged l).

(** [log.Fatalf]: the line is logged and the process exits with status 1. *)
Definition log_Fatalf {A} (what msg : string) : M A :=
  log_Printf (LogFatal what msg) ;; os_Exit 1.

(** A [for ... range] loop whose body may return early from the function;
    [acc] is what the body updates. *)
Fixpoint forRange {A S} (xs : list A) (body : A -> S -> M S) (acc : S) : M S :=
  match xs with
  | [] => ret acc
  | x :: rest => acc' ← body x acc; forRange rest body acc'
  end.

(** [l[i]], which panics out of range. *)
Definition index {A} (l : list A) (i : nat) : M A :=
  match l !! i with
  | Some x => ret x
  | None => go_panic (PanicIndexOutOfRange i (length l))
  end.

(** [c.(string)] and [c.(json.Number)], which panic on another type. *)
Definition assertString (c : cell) : M string :=
  match c with
  | CString s => ret s
  | _ => go_panic (PanicTypeAssertion c)
  end.

Definition assertNumber (c : cell) : M string :=
  match c with
  | CNumber n => ret n
  | _ => go_panic (PanicTypeAssertion c)
  end.

(** A policy lookup, with its panic. *)
Definition lookupOrPanic {A} (interval : string) (o : option A) : M A :=
  match o with
  | Some a => ret a
  | None => go_panic (PanicUnknownInterval interval)
  end.

Section WithWorld.
Variable W : World.

Definition time_Now : M Time :=
  λ s, (Returned (clock W (ticks s)),
        {| trace := trace s; ticks := S (ticks s); attempts := attempts s |}).

(** [time.Since(t)] is [time.Now().Sub(t)]. *)
Definition time_Since (t : Time) : M Duration :=
  now ← time_Now; ret (Time_Sub now t).

Definition Influx_Query_call (q : Query) : M queryReply :=
  emit (Queried q) ;; ret (Influx_Query W q).

Definition Influx_Write_call (bp : list Point) : M (option string) :=
  λ s, (Returned (Influx_Write W (attempts s) bp),
        {| trace := trace s ++ [Wrote bp]; ticks := ticks s;
           attempts := S (attempts s) |}).

(** [retry.Do(fn, retry.Attempts(n))]: [fn] is run until it succeeds or
    [n] runs have failed; [None] is a nil error, [Some errs] the errors
    of the failed runs. *)
Fixpoint retry_Do (fn : M (option string)) (n : nat) (errs : list string)
  : M (option (list string)) :=
  match n with
  | O => ret (Some errs)
  | S n' =>
      r ← fn;
      match r with
      | None => ret None
      | Some e => retry_Do fn n' (errs ++ [e])
      end
  end.

(** The query, with the two checks that follow every call of it:
    [err != nil] and [r.Err != ""]. *)
Definition queryChecked (cmd db rp : string) : M Response :=
  r ← Influx_Query_call
        {| Command := cmd; Database := db; RetentionPolicy := rp |};
  match r with
  | QueryError msg => returnErr (ErrQueryFailed msg)
  | QueryResponse resp =>
      if decide (Err resp = "") then ret resp
      else returnErr (ErrQueryFailed (Err resp))
  end.

(** The shape checks that follow both the staleness query and the sample
    query: [None] when there is no result or no series, else the single
    series, whose first column must be "time". *)
Definition singleSeries (r : Response) : M (option Row) :=
  match Results r with
  | [] => ret None
  | res0 :: _ =>
      match Series res0 with
      | [] => ret None
      | row0 :: _ =>
          if (1 <? length (Results r))%nat
          then returnErr (ErrExpectedOneResult (length (Results r)))
          else if (1 <? length (Series res0))%nat
          then returnErr (ErrExpectedOneSeries (length (Series res0)))
          else
            c0 ← index (Columns row0) 0;
            if decide (c0 = "time") then ret (Some row0)
            else returnErr (ErrFirstColumn c0)
      end
  end.

End WithWorld.

(** ** What the three revisions of wind_direction.go share *)

Definition ProductName : string := "wx-station-aggregator-influx".

(** The value of the "aggregator" tag, [ProductName/Version]. *)
Definition aggregatorIdentity (Version : string) : string :=
  ProductName +:+ "/" +:+ Version.

(** [tags := map[string]string{"aggregator": ...}; maps.Copy(tags, callerTags)]. *)
Definition writeTagsFor (Version : string) (callerTags : gmap string string)
  : gmap string string :=
  maps_Copy {[ "aggregator" := aggregatorIdentity Version ]} callerTags.

Definition meanFieldName (field interval : string) : string :=
  field +:+ "_mean_" +:+ interval.
Definition stdDevFieldName (field interval : string) : string :=
  field +:+ "_stddev_" +:+ interval.
Definition meanIntercardinalFieldName (field interval : string) : string :=
  field +:+ "_mean_intercardinal_" +:+ interval.

(** The staleness query of one interval. *)
Definition stalenessQuery (resultFieldName measurementTo interval tagsWhere : string)
  : string :=
  "SELECT time, " +:+ resultFieldName +:+ " FROM " +:+ measurementTo
  +:+ " WHERE time >= now()-" +:+ interval +:+ " " +:+ tagsWhere
  +:+ " ORDER BY time DESC LIMIT 1".

Section Shared.
Variable C : Collab.
Variable W : World.

(** The head of the body of the planning loop, the same in the three
    revisions: the staleness query, the checks of its shape, and the
    timestamp of the most recent aggregate; [None] when the store holds
    none inside the interval. *)
Definition latestAggregateTime
    (resultFieldName measurementTo interval tagsWhere db rp : string)
  : M (option Time) :=
  let q := stalenessQuery resultFieldName measurementTo interval tagsWhere in
  log_Printf (LogDebugQuery q) ;;
  r ← queryChecked W q db rp;
  series ← singleSeries r;
  match series with
  | None => ret None
  | Some row0 =>
      v0 ← index (Values row0) 0;
      c ← index v0 0;
      s ← assertString c;
      match time_Parse_RFC3339 C s with
      | None => returnErr (ErrParseTime s)
      | Some t => ret (Some t)
      end
  end.

(** The planning loop: [isDue] is the rest of the body, and an interval
    that is due is appended to [intervalsTodo]. *)
Definition planIntervals (isDue : string -> M bool) : M (list string) :=
  forRange allWindDirectionIntervals
    (λ interval intervalsTodo,
       due ← isDue interval;
       ret (if due : bool then intervalsTodo ++ [interval]
            else intervalsTodo))
    [].

(** The write at the end of a run: the batch is submitted through
    [retry.Do], and a failure of every attempt is logged, never
    returned. *)
Definition writeBatch (retries : nat) (bp : list Point) : M unit :=
  r ← retry_Do (Influx_Write_call W bp) retries [];
  match r with
  | Some errs => log_Printf (LogWriteFailed errs)
  | None => ret tt
  end.

Definition parseTimeCell (c : cell) : M Time :=
  s ← assertString c;
  match time_Parse_RFC3339 C s with
  | None => returnErr (ErrParseTime s)
  | Some t => ret t
  end.

Definition parseNumberCell (mkErr : string -> error) (c : cell) : M float :=
  n ← assertNumber c;
  match Number_Float64 C n with
  | None => returnErr (mkErr n)
  | Some f => ret f
  end.

End Shared.

(** ** wind_direction.go, the unweighted revision *)

Module Unweighted.

Record WindDirectionAggArgs : Type :=
  { MeasurementFrom : string;
    MeasurementTo : string;
    WindDirectionField : string;
    Tags : gmap string string;
    InfluxDB : string;
    InfluxRP : string;
    InfluxQueryTimeout : Duration;
    InfluxWriteRetries : nat }.

Definition maxTimeBetweenAggsForWindDirInterval (interval : string)
  : option Duration :=
  if String.eqb interval wdInterval6h then Some (1 * Hour)
  else if String.eqb interval wdInterval3h then Some (40 * Minute)
  else if String.eqb interval wdInterval1h then Some (20 * Minute)
  else if String.eqb interval wdInterval30m then Some (10 * Minute)
  else if String.eqb interval wdInterval15m then Some (5 * Minute)
  else if String.eqb interval wdInterval5m then Some (2 * Minute + 30 * Second)
  else None.

(** Returns: max SD for secondary intercardinal, max SD for primary
    intercardinal (otherwise VAR). *)
Definition stdDevThresholdsForWindDirIntervalCardinalResult (interval : string)
  : option (float * float) :=
  if String.eqb interval wdInterval6h then Some (30, 38)%float
  else if String.eqb interval wdInterval3h then Some (35, 40)%float
  else if String.eqb interval wdInterval1h then Some (38, 43)%float
  else if String.eqb interval wdInterval30m then Some (44, 50)%float
  else if String.eqb interval wdInterval15m then Some (50, 54)%float
  else if String.eqb interval wdInterval5m then Some (56, 60)%float
  else None.

Definition wdMeanResultFieldName (args : WindDirectionAggArgs) interval :=
  meanFieldName (WindDirectionField args) interval.
Definition wdStdDevResultFieldName (args : WindDirectionAggArgs) interval :=
  stdDevFieldName (WindDirectionField args) interval.
Definition wdMeanIntercardinalResultFieldName (args : WindDirectionAggArgs) interval :=
  meanIntercardinalFieldName (WindDirectionField args) interval.

(** The instant the staleness check measures from, for a stored point
    stamped [t]: this revision passes [t] itself to [time.Since]. *)
Definition stalenessReference (interval : string) (t : Time) : Time := t.

(** The timestamp of the point written by a run whose clock read [now]:
    this revision passes [now] itself to [NewPoint]. *)
Definition pointTimestamp (now : Time) : Time := now.

(** The three-way choice of the label. *)
Definition cardinalResult (C : Collab) (maxSecInt maxInt mean stdDev : float)
  : string :=
  if PrimFloat.ltb maxInt stdDev then "VAR"
  else if PrimFloat.ltb maxSecInt stdDev
  then DirectionStr C mean DirectionStrPrecision1
  else DirectionStr C mean DirectionStrPrecision2.

Definition sampleQuery (args : WindDirectionAggArgs) (widest tagsWhere : string)
  : string :=
  "SELECT time, " +:+ WindDirectionField args +:+ " FROM "
  +:+ MeasurementFrom args +:+ " WHERE time >= now()-" +:+ widest
  +:+ " " +:+ tagsWhere +:+ " ORDER BY time ASC".

Definition emptyBuckets (intervalsTodo : list string) : gmap string (list float) :=
  foldl (λ m interval, <[interval := []]> m) ∅ intervalsTodo.

Section Run.
Variable C : Collab.
Variable W : World.
Variable Version : string.
Variable args : WindDirectionAggArgs.

Definition intervalIsDue (tagsWhere interval : string) : M bool :=
  latest ← latestAggregateTime C W (wdMeanResultFieldName args interval)
             (MeasurementTo args) interval tagsWhere
             (InfluxDB args) (InfluxRP args);
  match latest with
  | None => ret true
  | Some t =>
      elapsed ← time_Since W (stalenessReference interval t);
      maxAge ← lookupOrPanic interval
                 (maxTimeBetweenAggsForWindDirInterval interval);
      ret (maxAge <? elapsed)
  end.

(** The sample query and the checks of its columns; [None] is "no data
    to aggregate". *)
Definition fetchSamples (widest tagsWhere : string) : M (option Row) :=
  let q := sampleQuery args widest tagsWhere in
  log_Printf (LogDebugQuery q) ;;
  r ← queryChecked W q (InfluxDB args) (InfluxRP args);
  series ← singleSeries r;
  match series with
  | None => ret None
  | Some row0 =>
      c1 ← index (Columns row0) 1;
      if decide (c1 = WindDirectionField args) then ret (Some row0)
      else returnErr (ErrSecondColumn (WindDirectionField args) c1)
  end.

(** The body of the loop over the rows: the row is parsed, then offered
    to the bucket of every interval to do. *)
Definition bucketRow (now : Time) (intervalsTodo : list string)
    (datapoint : list cell) (intervalData : gmap string (list float))
  : M (gmap string (list float)) :=
  c0 ← index datapoint 0;
  t ← parseTimeCell C c0;
  c1 ← index datapoint 1;
  wd ← parseNumberCell C ErrParseWindDirection c1;
  forRange intervalsTodo
    (λ interval data,
       d ← lookupOrPanic interval (windDirIntervalToDuration interval);
       ret (if Time_Sub now t <=? d
            then <[interval := default [] (data !! interval) ++ [Clamped C wd]]> data
            else data))
    intervalData.

(** The body of the loop that fills the fields of the point. *)
Definition aggregateInterval (intervalData : gmap string (list float))
    (interval : string) (fields : gmap string fieldValue)
  : M (gmap string fieldValue) :=
  let data := default [] (intervalData !! interval) in
  if decide (length data = 0%nat) then ret fields
  else
    let mean := AvgDirectionDeg C data in
    let stdDev := StdDevDeg C data in
    th ← lookupOrPanic interval
           (stdDevThresholdsForWindDirIntervalCardinalResult interval);
    let card := cardinalResult C th.1 th.2 mean stdDev in
    ret (<[wdMeanIntercardinalResultFieldName args interval := StringField card]>
           (<[wdStdDevResultFieldName args interval := FloatField stdDev]>
              (<[wdMeanResultFieldName args interval := FloatField mean]> fields))).

(** Everything up to the write; [None] is an early [return nil]. *)
Definition prepareBatch : M (option (list Point)) :=
  let tagsWhere := PartialWhereClauseForTags (Tags args) in
  intervalsTodo ← planIntervals (intervalIsDue tagsWhere);
  match intervalsTodo with
  | [] => log_Printf LogNoIntervals ;; ret None
  | widest :: _ =>
      now ← time_Now W;
      series ← fetchSamples widest tagsWhere;
      match series with
      | None => log_Printf LogNoDataToAggregate ;; ret None
      | Some row0 =>
          intervalData ← forRange (Values row0) (bucketRow now intervalsTodo)
                           (emptyBuckets intervalsTodo);
          fields ← forRange intervalsTodo (aggregateInterval intervalData) ∅;
          let tags := writeTagsFor Version (Tags args) in
          let point := {| pt_name := MeasurementTo args; pt_tags := tags;
                          pt_fields := fields;
                          pt_time := pointTimestamp now |} in
          match influxdb_NewPoint C point with
          | Some msg => returnErr (ErrCreatePoint msg)
          | None =>
              match influxdb_NewBatchPoints C (InfluxDB args) (InfluxRP args) with
              | Some msg => returnErr (ErrCreateBatch msg)
              | None => ret (Some [point])
              end
          end
      end
  end.

Definition WindDirectionAgg : M unit :=
  batch ← prepareBatch;
  match batch with
  | None => ret tt
  | Some bp => writeBatch W (InfluxWriteRetries args) bp
  end.

End Run.
End Unweighted.

(** ** What the two weighted revisions share *)

Record wdDataPoint : Type := { dir : float; spd : float }.

Definition dirSeries (data : list wdDataPoint) : list float := dir <$> data.
Definition spdSeries (data : list wdDataPoint) : list float := spd <$> data.

Definition weightedSampleQuery
    (dirField spdField measurementFrom widest tagsWhere : string) : string :=
  "SELECT time, " +:+ dirField +:+ ", " +:+ spdField +:+ " FROM "
  +:+ measurementFrom +:+ " WHERE time >= now()-" +:+ widest
  +:+ " " +:+ tagsWhere +:+ " ORDER BY time ASC".

Definition emptyWeightedBuckets (intervalsTodo : list string)
  : gmap string (list wdDataPoint) :=
  foldl (λ m interval, <[interval := []]> m) ∅ intervalsTodo.

(** The instant the staleness check measures from, for a stored point
    stamped [t]: [t.Add(windDirIntervalToDuration(interval)/2)]. *)
Definition midpointReference (interval : string) (t : Time) : option Time :=
  d ← windDirIntervalToDuration interval;
  Some (Time_Add t (go_div d 2)).

(** The timestamp of the interval's point, for a run whose clock read
    [now]: [now.Add(-1*windDirIntervalToDuration(interval)/2)]. *)
Definition midpointTimestamp (interval : string) (now : Time) : option Time :=
  d ← windDirIntervalToDuration interval;
  Some (Time_Add now (go_div (-1 * d) 2)).

Section WeightedShared.
Variable C : Collab.
Variable W : World.

(** The column checks of the sample query of the weighted revisions;
    [None] is "no data to aggregate". *)
Definition checkWeightedSeries (dirField spdField : string) (r : Response)
  : M (option Row) :=
  series ← singleSeries r;
  match series with
  | None => ret None
  | Some row0 =>
      c1 ← index (Columns row0) 1;
      if decide (c1 = dirField) then
        c2 ← index (Columns row0) 2;
        if decide (c2 = spdField) then ret (Some row0)
        else returnErr (ErrThirdColumn spdField c2)
      else returnErr (ErrSecondColumn dirField c1)
  end.

(** The body of the loop over the rows, the same in both weighted
    revisions: direction, speed, then time are parsed, and the data point
    is offered to the bucket of every interval to do. *)
Definition bucketWeightedRow (now : Time) (intervalsTodo : list string)
    (sourceDataPoint : list cell)
    (intervalData : gmap string (list wdDataPoint))
  : M (gmap string (list wdDataPoint)) :=
  c1 ← index sourceDataPoint 1;
  d ← parseNumberCell C ErrParseWindDirection c1;
  c2 ← index sourceDataPoint 2;
  sp ← parseNumberCell C ErrParseWindSpeed c2;
  let dp := {| dir := Clamped C d; spd := sp |} in
  c0 ← index sourceDataPoint 0;
  t ← parseTimeCell C c0;
  forRange intervalsTodo
    (λ interval data,
       dur ← lookupOrPanic interval (windDirIntervalToDuration interval);
       ret (if Time_Sub now t <=? dur
            then <[interval := default [] (data !! interval) ++ [dp]]> data
            else data))
    intervalData.

(** The two weighted statistics of a bucket, with their errors. *)
Definition weightedStatistics (data : list wdDataPoint) : M (float * float) :=
  match WeightedAvgDirectionDeg C (dirSeries data) (spdSeries data) with
  | inl msg => returnErr (ErrWeightedAvg msg)
  | inr mean =>
      match WeightedStdDevDirectionDeg C (dirSeries data) (spdSeries data) with
      | inl msg => returnErr (ErrWeightedStdDev msg)
      | inr stdDev => ret (mean, stdDev)
      end
  end.

(** The staleness check of both weighted revisions, given the table of
    the revision. *)
Definition midpointIsDue (maxTime : string -> option Duration)
    (resultFieldName measurementTo tagsWhere db rp interval : string) : M bool :=
  latest ← latestAggregateTime C W resultFieldName measurementTo interval
             tagsWhere db rp;
  match latest with
  | None => ret true
  | Some t =>
      ref ← lookupOrPanic interval (midpointReference interval t);
      elapsed ← time_Since W ref;
      maxAge ← lookupOrPanic interval (maxTime interval);
      ret (maxAge <? elapsed)
  end.

End WeightedShared.

(** ** wind_direction.go, the weighted revision *)

Module Weighted.

Record WindDirectionAggArgs : Type :=
  { MeasurementFrom : string;
    MeasurementTo : string;
    WindDirectionField : string;
    WindSpeedField : string;
    Tags : gmap string string;
    InfluxDB : string;
    InfluxRP : string;
    InfluxQueryTimeout : Duration;
    InfluxWriteRetries : nat }.

Definition maxTimeBetweenAggsForWindDirInterval (interval : string)
  : option Duration :=
  if String.eqb interval wdInterval6h then Some (1 * Hour)
  else if String.eqb interval wdInterval3h then Some (40 * Minute)
  else if String.eqb interval wdInterval1h then Some (20 * Minute)
  else if String.eqb interval wdInterval30m then Some (10 * Minute)
  else if String.eqb interval wdInterval15m then Some (5 * Minute)
  else if String.eqb interval wdInterval5m then Some (2 * Minute + 30 * Second)
  else None.

(** Returns: max (weighted) SD for secondary intercardinal, max SD for
    primary intercardinal (otherwise VAR). *)
Definition stdDevThresholdsForWindDirIntervalCardinalResult (interval : string)
  : option (float * float) :=
  if String.eqb interval wdInterval6h then Some (30, 38)%float
  else if String.eqb interval wdInterval3h then Some (35, 40)%float
  else if String.eqb interval wdInterval1h then Some (38, 43)%float
  else if String.eqb interval wdInterval30m then Some (42, 45)%float
  else if String.eqb interval wdInterval15m then Some (43.5, 46)%float
  else if String.eqb interval wdInterval5m then Some (45, 46.5)%float
  else None.

Definition wdMeanResultFieldName (args : WindDirectionAggArgs) interval :=
  meanFieldName (WindDirectionField args) interval.
Definition wdStdDevResultFieldName (args : WindDirectionAggArgs) interval :=
  stdDevFieldName (WindDirectionField args) interval.
Definition wdMeanIntercardinalResultFieldName (args : WindDirectionAggArgs) interval :=
  meanIntercardinalFieldName (WindDirectionField args) interval.

Definition stalenessReference := midpointReference.
Definition pointTimestamp := midpointTimestamp.

Definition cardinalResult (C : Collab) (maxSecInt maxInt mean stdDev : float)
  : string :=
  if PrimFloat.ltb maxInt stdDev then "VAR"
  else if PrimFloat.ltb maxSecInt stdDev
  then DirectionStr C mean DirectionStrPrecision1
  else DirectionStr C mean DirectionStrPrecision2.

Section Run.
Variable C : Collab.
Variable W : World.
Variable Version : string.
Variable args : WindDirectionAggArgs.

Definition intervalIsDue (tagsWhere interval : string) : M bool :=
  midpointIsDue C W maxTimeBetweenAggsForWindDirInterval
    (wdMeanResultFieldName args interval) (MeasurementTo args) tagsWhere
    (InfluxDB args) (InfluxRP args) interval.

Definition fetchSamples (widest tagsWhere : string) : M (option Row) :=
  let q := weightedSampleQuery (WindDirectionField args) (WindSpeedField args)
             (MeasurementFrom args) widest tagsWhere in
  log_Printf (LogDebugQuery q) ;;
  r ← queryChecked W q (InfluxDB args) (InfluxRP args);
  checkWeightedSeries (WindDirectionField args) (WindSpeedField args) r.

(** The fields of the point of one interval. *)
Definition intervalFields (interval : string) (mean stdDev : float) (card : string)
  : gmap string fieldValue :=
  <[wdMeanIntercardinalResultFieldName args interval := StringField card]>
    (<[wdStdDevResultFieldName args interval := FloatField stdDev]>
       (<[wdMeanResultFieldName args interval := FloatField mean]> ∅)).

(** The body of the loop that adds one point per interval. *)
Definition aggregateInterval (now : Time) (tags : gmap string string)
    (intervalData : gmap string (list wdDataPoint))
    (interval : string) (bp : list Point) : M (list Point) :=
  let data := default [] (intervalData !! interval) in
  if decide (length data = 0%nat) then ret bp
  else
    st ← weightedStatistics C data;
    th ← lookupOrPanic interval
           (stdDevThresholdsForWindDirIntervalCardinalResult interval);
    let card := cardinalResult C th.1 th.2 st.1 st.2 in
    ts ← lookupOrPanic interval (pointTimestamp interval now);
    let point := {| pt_name := MeasurementTo args; pt_tags := tags;
                    pt_fields := intervalFields interval st.1 st.2 card;
                    pt_time := ts |} in
    match influxdb_NewPoint C point with
    | Some msg => returnErr (ErrCreatePoint msg)
    | None => ret (bp ++ [point])
    end.

Definition prepareBatch : M (option (list Point)) :=
  let tagsWhere := PartialWhereClauseForTags (Tags args) in
  intervalsTodo ← planIntervals (intervalIsDue tagsWhere);
  match intervalsTodo with
  | [] => log_Printf LogNoIntervals ;; ret None
  | widest :: _ =>
      now ← time_Now W;
      series ← fetchSamples widest tagsWhere;
      match series with
      | None => log_Printf LogNoDataToAggregate ;; ret None
      | Some row0 =>
          intervalData ← forRange (Values row0)
                           (bucketWeightedRow C now intervalsTodo)
                           (emptyWeightedBuckets intervalsTodo);
          match influxdb_NewBatchPoints C (InfluxDB args) (InfluxRP args) with
          | Some msg => returnErr (ErrCreateBatch msg)
          | None =>
              let tags := writeTagsFor Version (Tags args) in
              bp ← forRange intervalsTodo
                     (aggregateInterval now tags intervalData) [];
              ret (Some bp)
          end
      end
  end.

Definition WindDirectionAgg : M unit :=
  batch ← prepareBatch;
  match batch with
  | None => ret tt
  | Some bp => writeBatch W (InfluxWriteRetries args) bp
  end.

End Run.
End Weighted.

(** ** wind_direction.go, the revision that returns its points *)

Module Returning.

Record WindDirectionAggArgs : Type :=
  { MeasurementFrom : string;
    MeasurementTo : string;
    WindDirectionField : string;
    WindSpeedField : string;
    QueryTags : gmap string string;
    WriteTags : gmap string string;
    InfluxDB : string;
    InfluxRP : string;
    InfluxQueryTimeout : Duration }.

Definition maxTimeBetweenAggsForWindDirInterval (interval : string)
  : option Duration :=
  if String.eqb interval wdInterval6h then Some (20 * Minute)
  else if String.eqb interval wdInterval3h then Some (10 * Minute)
  else if String.eqb interval wdInterval1h then Some (5 * Minute)
  else if String.eqb interval wdInterval30m then Some (2 * Minute + 30 * Second)
  else if String.eqb interval wdInterval15m then Some (2 * Minute + 30 * Second)
  else if String.eqb interval wdInterval5m then Some (1 * Minute)
  else None.

Definition varThresholdForWindDirInterval (interval : string) : float :=
  if String.eqb interval wdInterval6h then 60%float
  else if String.eqb interval wdInterval3h then 55%float
  else if String.eqb interval wdInterval1h then 52%float
  else if String.eqb interval wdInterval30m then 51.5%float
  else if String.eqb interval wdInterval15m then 51%float
  else 50%float.

Definition wdMeanResultFieldName (args : WindDirectionAggArgs) interval :=
  meanFieldName (WindDirectionField args) interval.
Definition wdStdDevResultFieldName (args : WindDirectionAggArgs) interval :=
  stdDevFieldName (WindDirectionField args) interval.
Definition wdMeanIntercardinalResultFieldName (args : WindDirectionAggArgs) interval :=
  meanIntercardinalFieldName (WindDirectionField args) interval.

Definition stalenessReference := midpointReference.
Definition pointTimestamp := midpointTimestamp.

(** [card := "VAR"], replaced by the 16-point string when the standard
    deviation is below the threshold of the interval. *)
Definition cardinalResult (C : Collab) (interval : string) (mean stdDev : float)
  : string :=
  if PrimFloat.ltb stdDev (varThresholdForWindDirInterval interval)
  then DirectionStr C mean DirectionStrPrecision2
  else "VAR".

Section Run.
Variable C : Collab.
Variable W : World.
Variable args : WindDirectionAggArgs.

Definition intervalIsDue (tagsWhere interval : string) : M bool :=
  midpointIsDue C W maxTimeBetweenAggsForWindDirInterval
    (wdMeanResultFieldName args interval) (MeasurementTo args) tagsWhere
    (InfluxDB args) (InfluxRP args) interval.

(** This revision does not log the sample query. *)
Definition fetchSamples (widest tagsWhere : string) : M (option Row) :=
  let q := weightedSampleQuery (WindDirectionField args) (WindSpeedField args)
             (MeasurementFrom args) widest tagsWhere in
  r ← queryChecked W q (InfluxDB args) (InfluxRP args);
  checkWeightedSeries (WindDirectionField args) (WindSpeedField args) r.

Definition intervalFields (interval : string) (mean stdDev : float) (card : string)
  : gmap string fieldValue :=
  <[wdMeanIntercardinalResultFieldName args interval := StringField card]>
    (<[wdStdDevResultFieldName args interval := FloatField stdDev]>
       (<[wdMeanResultFieldName args interval := FloatField mean]> ∅)).

Definition aggregateInterval (now : Time)
    (intervalData : gmap string (list wdDataPoint))
    (interval : string) (retv : list Point) : M (list Point) :=
  let data := default [] (intervalData !! interval) in
  if decide (length data = 0%nat) then ret retv
  else
    st ← weightedStatistics C data;
    let card := cardinalResult C interval st.1 st.2 in
    ts ← lookupOrPanic interval (pointTimestamp interval now);
    let point := {| pt_name := MeasurementTo args; pt_tags := WriteTags args;
                    pt_fields := intervalFields interval st.1 st.2 card;
                    pt_time := ts |} in
    match influxdb_NewPoint C point with
    | Some msg => returnErr (ErrCreatePoint msg)
    | None => ret (retv ++ [point])
    end.

(** The returned slice is nil ([[]]) on both early returns. *)
Definition WindDirectionAgg : M (list Point) :=
  let tagsWhere := PartialWhereClauseForTags (QueryTags args) in
  intervalsTodo ← planIntervals (intervalIsDue tagsWhere);
  match intervalsTodo with
  | [] => log_Printf LogNoIntervals ;; ret []
  | widest :: _ =>
      now ← time_Now W;
      series ← fetchSamples widest tagsWhere;
      match series with
      | None => log_Printf LogNoDataToAggregate ;; ret []
      | Some row0 =>
          intervalData ← forRange (Values row0)
                           (bucketWeightedRow C now intervalsTodo)
                           (emptyWeightedBuckets intervalsTodo);
          forRange intervalsTodo (aggregateInterval now intervalData) []
      end
  end.

End Run.
End Returning.

(** ** main.go *)

Definition influxWriteRetries : nat := 2.
Definition influxReadTimeout : Duration := 30 * Second.

(** What [main] finds around it: the environment, the .env loader, the
    client constructor and the health check ([Some msg] is an error). *)
Record Process : Type :=
  { os_Getenv : string -> string;
    godotenv_Load : string -> option string;
    influxdb_NewHTTPClient : string -> option string;
    Influx_Ping : option string }.

(** [if err != nil { handler }] around a call that returns an error. *)
Definition onError {A} (m : M A) (handler : error -> M A) : M A :=
  λ s,
    match m s with
    | (Failed e, s') => handler e s'
    | r => r
    end.

Definition fatalIf (what : string) (err : option string) : M unit :=
  match err with
  | Some msg => log_Fatalf what msg
  | None => ret tt
  end.

(** The start of [main], the same in both revisions of main.go, up to the
    parsed tags. *)
Definition mainPrologue (P : Process) (Version : string)
    (printVersion : bool) (envFileName tagsIn : string)
  : M (gmap string string) :=
  (if printVersion
   then emit (Logged (LogVersion Version)) ;; os_Exit 0
   else ret tt) ;;
  (if decide (envFileName = "") then ret tt
   else fatalIf "Failed to load" (godotenv_Load P envFileName)) ;;
  fatalIf "Failed to create InfluxDB client"
    (influxdb_NewHTTPClient P (os_Getenv P "INFLUX_SERVER")) ;;
  fatalIf "InfluxDB ping failed" (Influx_Ping P) ;;
  match ParseTags tagsIn with
  | inl msg => log_Fatalf "Failed to parse tags" msg
  | inr tags => ret tags
  end.

(** main.go of the unweighted revision: the engine writes its own batch. *)
Module MainUnweighted.

Record Flags : Type :=
  { measurement : string;
    tags : string;
    wind_dir_field : string;
    env : string;
    version : bool }.

(** The arguments [main] hands to [WindDirectionAgg]. *)
Definition aggArgs (P : Process) (F : Flags) (parsed : gmap string string)
  : Unweighted.WindDirectionAggArgs :=
  {| Unweighted.MeasurementFrom := measurement F;
     Unweighted.MeasurementTo := measurement F +:+ "_agg";
     Unweighted.WindDirectionField := wind_dir_field F;
     Unweighted.Tags := parsed;
     Unweighted.InfluxDB := os_Getenv P "INFLUX_DB";
     Unweighted.InfluxRP := os_Getenv P "INFLUX_RP";
     Unweighted.InfluxQueryTimeout := influxReadTimeout;
     Unweighted.InfluxWriteRetries := influxWriteRetries |}.

Definition main (C : Collab) (W : World) (P : Process) (Version : string)
    (F : Flags) : M unit :=
  parsed ← mainPrologue P Version (version F) (env F) (tags F);
  if decide (wind_dir_field F = "") then ret tt
  else
    onError (Unweighted.WindDirectionAgg C W Version (aggArgs P F parsed))
      (λ e, log_Printf (LogFatalError "Wind direction aggregation failed" e) ;;
            os_Exit 1).

End MainUnweighted.

(** main.go of the revision that returns its points: [main] builds the
    write tags, collects the points and writes them. *)
Module MainReturning.

Record Flags : Type :=
  { measurement : string;
    tags : string;
    wind_dir_field : string;
    wind_speed_field : string;
    env : string;
    version : bool }.

(** From [if len(points) == 0] to the end of [main]. *)
Definition writePoints (C : Collab) (W : World) (P : Process)
    (points : list Point) : M unit :=
  if decide (length points = 0%nat) then log_Printf LogNoDataToWrite
  else
    match influxdb_NewBatchPoints C (os_Getenv P "INFLUX_DB")
            (os_Getenv P "INFLUX_RP") with
    | Some msg => log_Fatalf "failed to create InfluxDB batch" msg
    | None => writeBatch W influxWriteRetries points
    end.

(** The arguments [main] hands to [WindDirectionAgg]. *)
Definition aggArgs (P : Process) (F : Flags) (qTags wTags : gmap string string)
  : Returning.WindDirectionAggArgs :=
  {| Returning.MeasurementFrom := measurement F;
     Returning.MeasurementTo := measurement F +:+ "_agg";
     Returning.QueryTags := qTags;
     Returning.WriteTags := wTags;
     Returning.WindDirectionField := wind_dir_field F;
     Returning.WindSpeedField := wind_speed_field F;
     Returning.InfluxDB := os_Getenv P "INFLUX_DB";
     Returning.InfluxRP := os_Getenv P "INFLUX_RP";
     Returning.InfluxQueryTimeout := influxReadTimeout |}.

(** [main] from the write tags to the collected points. *)
Definition collectPoints (C : Collab) (W : World) (P : Process)
    (Version : string) (F : Flags) (qTags : gmap string string)
  : M (list Point) :=
  let wTags := writeTagsFor Version qTags in
  (if decide (wind_dir_field F ≠ "" ∧ wind_speed_field F = "")
   then log_Fatalf "wind-speed-field is required when wind-dir-field is set" ""
   else ret tt) ;;
  if decide (wind_dir_field F = "") then ret []
  else
    onError (Returning.WindDirectionAgg C W (aggArgs P F qTags wTags))
      (λ e, log_Printf (LogFatalError "Wind direction aggregation failed" e) ;;
            os_Exit 1).

Definition main (C : Collab) (W : World) (P : Process) (Version : string)
    (F : Flags) : M unit :=
  qTags ← mainPrologue P Version (version F) (env F) (tags F);
  points ← collectPoints C W P Version F qTags;
  writePoints C W P points.

End MainReturning.

(** The range of a [Degree]: 0 inclusive to 360 exclusive. *)
Definition degreeInRange (d : float) : bool :=
  PrimFloat.leb 0 d && PrimFloat.ltb d 360.

(** ** Collaborators for the examples *)

Module Example.

Local Open Scope float_scope.

(** A 16-point compass rose over [0, 360), by sectors of 22.5 degrees
    centred on the points. *)
Definition compass16 (d : float) : string :=
  if d <? 11.25 then "N" else if d <? 33.75 then "NNE"
  else if d <? 56.25 then "NE" else if d <? 78.75 then "ENE"
  else if d <? 101.25 then "E" else if d <? 123.75 then "ESE"
  else if d <? 146.25 then "SE" else if d <? 168.75 then "SSE"
  else if d <? 191.25 then "S" else if d <? 213.75 then "SSW"
  else if d <? 236.25 then "SW" else if d <? 258.75 then "WSW"
  else if d <? 281.25 then "W" else if d <? 303.75 then "WNW"
  else if d <? 326.25 then "NW" else if d <? 348.75 then "NNW"
  else "N".

(** An 8-point compass rose, by sectors of 45 degrees. *)
Definition compass8 (d : float) : string :=
  if d <? 22.5 then "N" else if d <? 67.5 then "NE"
  else if d <? 112.5 then "E" else if d <? 157.5 then "SE"
  else if d <? 202.5 then "S" else if d <? 247.5 then "SW"
  else if d <? 292.5 then "W" else if d <? 337.5 then "NW"
  else "N".

Definition directionStr (d : float) (p : DirectionStrPrecision) : string :=
  match p with
  | DirectionStrPrecision1 => compass8 d
  | DirectionStrPrecision2 => compass16 d
  end.

(** Range reduction for angles within a turn of the range; anything
    else is sent to 0. *)
Definition clamped (d : float) : float :=
  let r := if d <? 0 then d + 360 else if 360 <=? d then d - 360 else d in
  if degreeInRange r then r else 0.

(** The instants of the examples. *)
Definition midnight : Time := (1704067200 * Second)%Z.

Definition parseTime (s : string) : option Time :=
  if String.eqb s "2024-01-01T00:00:00Z" then Some midnight
  else if String.eqb s "2024-01-01T00:01:00Z" then Some (midnight + 1 * Minute)%Z
  else if String.eqb s "2024-01-01T00:02:00Z" then Some (midnight + 2 * Minute)%Z
  else if String.eqb s "2024-01-01T00:03:00Z" then Some (midnight + 3 * Minute)%Z
  else if String.eqb s "2024-01-01T00:04:00Z" then Some (midnight + 4 * Minute)%Z
  else None.

(** The number literals of the examples. *)
Definition parseFloat (s : string) : option float :=
  if String.eqb s "0" then Some 0
  else if String.eqb s "5" then Some 5
  else if String.eqb s "10" then Some 10
  else if String.eqb s "350" then Some 350
  else if String.eqb s "370" then Some 370
  else None.

(** The statistics of a bucket of one sample: the mean is the sample and
    the deviation is 0.  The examples keep to such buckets. *)
Definition collab : Collab :=
  {| time_Parse_RFC3339 := parseTime;
     Number_Float64 := parseFloat;
     Clamped := clamped;
     AvgDirectionDeg := λ l, hd 0 l;
     StdDevDeg := λ _, 0;
     WeightedAvgDirectionDeg := λ l _, inr (hd 0 l);
     WeightedStdDevDirectionDeg := λ _ _, inr 0;
     DirectionStr := directionStr;
     influxdb_NewPoint := λ _, None;
     influxdb_NewBatchPoints := λ _ _, None |}.

Definition noSeries : Response := {| Results := [ {| Series := [] |} ]; Err := "" |}.

Definition oneSeries (columns : list string) (rows : list (list cell)) : Response :=
  {| Results := [ {| Series := [ {| Columns := columns; Values := rows |} ] |} ];
     Err := "" |}.

(** A store that holds no aggregate yet and answers the sample query
    [sample] with [reply]; every write fails when [writesFail] is set; the
    clock stands at four minutes past midnight. *)
Definition world (sample : string) (reply : Response) (writesFail : bool) : World :=
  {| Influx_Query := λ q,
       if String.eqb (Command q) sample then QueryResponse reply
       else QueryResponse noSeries;
     Influx_Write := λ _ _, if writesFail then Some "timeout" else None;
     clock := λ _, (midnight + 4 * Minute)%Z |}.

(** A store whose every answer, to the staleness queries too, is
    [reply]. *)
Definition uniformWorld (reply : Response) (now : Time) : World :=
  {| Influx_Query := λ _, QueryResponse reply;
     Influx_Write := λ _ _, None;
     clock := λ _, now |}.

Definition stationTags : gmap string string := {[ "station" := "home" ]}.

Definition unweightedArgs : Unweighted.WindDirectionAggArgs :=
  {| Unweighted.MeasurementFrom := "weather_station";
     Unweighted.MeasurementTo := "weather_station_agg";
     Unweighted.WindDirectionField := "wind_dir";
     Unweighted.Tags := stationTags;
     Unweighted.InfluxDB := "wx";
     Unweighted.InfluxRP := "autogen";
     Unweighted.InfluxQueryTimeout := influxReadTimeout;
     Unweighted.InfluxWriteRetries := influxWriteRetries |}.

Definition weightedArgs : Weighted.WindDirectionAggArgs :=
  {| Weighted.MeasurementFrom := "weather_station";
     Weighted.MeasurementTo := "weather_station_agg";
     Weighted.WindDirectionField := "wind_dir";
     Weighted.WindSpeedField := "wind_speed";
     Weighted.Tags := stationTags;
     Weighted.InfluxDB := "wx";
     Weighted.InfluxRP := "autogen";
     Weighted.InfluxQueryTimeout := influxReadTimeout;
     Weighted.InfluxWriteRetries := influxWriteRetries |}.

Definition returningArgs : Returning.WindDirectionAggArgs :=
  {| Returning.MeasurementFrom := "weather_station";
     Returning.MeasurementTo := "weather_station_agg";
     Returning.WindDirectionField := "wind_dir";
     Returning.WindSpeedField := "wind_speed";
     Returning.QueryTags := stationTags;
     Returning.WriteTags := writeTagsFor "<dev>" stationTags;
     Returning.InfluxDB := "wx";
     Returning.InfluxRP := "autogen";
     Returning.InfluxQueryTimeout := influxReadTimeout |}.

Definition process : Process :=
  {| os_Getenv := λ _, "wx";
     godotenv_Load := λ _, None;
     influxdb_NewHTTPClient := λ _, None;
     Influx_Ping := None |}.

(** A run of [main] with the default, empty, tag filter. *)
Definition flagsNoTags : MainReturning.Flags :=
  {| MainReturning.measurement := "weather_station";
     MainReturning.tags := "";
     MainReturning.wind_dir_field := "wind_dir";
     MainReturning.wind_speed_field := "wind_speed";
     MainReturning.env := "";
     MainReturning.version := false |}.

Definition tagsWhere : string := PartialWhereClauseForTags stationTags.

(** One sample of 10 degrees, two minutes before the run. *)
Definition unweightedSampleWorld (writesFail : bool) : World :=
  world (Unweighted.sampleQuery unweightedArgs "6h" tagsWhere)
    (oneSeries ["time"; "wind_dir"]
       [[CString "2024-01-01T00:02:00Z"; CNumber "10"]])
    writesFail.

(** A direction field of string type: the direction cell is a string. *)
Definition textDirectionWorld : World :=
  world (Unweighted.sampleQuery unweightedArgs "6h" tagsWhere)
    (oneSeries ["time"; "wind_dir"]
       [[CString "2024-01-01T00:02:00Z"; CString "NW"]])
    false.

(** Time stamps asked for as epoch numbers: the time cell is a number. *)
Definition epochTimeWorld : World :=
  world (Unweighted.sampleQuery unweightedArgs "6h" tagsWhere)
    (oneSeries ["time"; "wind_dir"]
       [[CNumber "1704067320"; CNumber "10"]])
    false.

Definition weightedSampleText : string :=
  weightedSampleQuery "wind_dir" "wind_speed" "weather_station" "6h" tagsWhere.

(** A row that holds a speed but no direction: the direction cell is
    null. *)
Definition nullDirectionWorld : World :=
  world weightedSampleText
    (oneSeries ["time"; "wind_dir"; "wind_speed"]
       [[CString "2024-01-01T00:02:00Z"; CNull; CNumber "5"]])
    false.

(** A row cut short: it holds the time only. *)
Definition shortRowWorld : World :=
  world weightedSampleText
    (oneSeries ["time"; "wind_dir"; "wind_speed"]
       [[CString "2024-01-01T00:02:00Z"]])
    false.

(** A direction cell that is a number the parser rejects. *)
Definition badNumberWorld : World :=
  world weightedSampleText
    (oneSeries ["time"; "wind_dir"; "wind_speed"]
       [[CString "2024-01-01T00:02:00Z"; CNumber "1e999"; CNumber "5"]])
    false.

(** A store whose most recent aggregate of every interval is stamped at
    midnight, read by a clock that stands at [now]. *)
Definition stampedAtMidnight (now : Time) : World :=
  uniformWorld
    (oneSeries ["time"; "mean"] [[CString "2024-01-01T00:00:00Z"; CNumber "10"]])
    now.

End Example.

(** ** The vocabulary of the properties *)

Definition stateless {A} (m : M A) : Prop := ∀ s, (m s).2 = s.

(** An interval is at least as long as the ones after it in the
    enumeration. *)
Definition atLeastAsLong (i j : string) : Prop :=
  ∃ di dj, windDirIntervalToDuration i = Some di
           ∧ windDirIntervalToDuration j = Some dj ∧ dj <= di.

Definition addEvents (s : State) (evs : list event) : State :=
  {| trace := trace s ++ evs; ticks := ticks s; attempts := attempts s |}.

Definition tick (s : State) : State :=
  {| trace := trace s; ticks := S (ticks s); attempts := attempts s |}.

(** The queries and the writes among some events. *)
Definition queriesOf (evs : list event) : list Query :=
  omap (λ e, match e with Queried q => Some q | _ => None end) evs.

Definition writesOf (evs : list event) : list (list Point) :=
  omap (λ e, match e with Wrote bp => Some bp | _ => None end) evs.

(** The start-up steps of [main] before the tags are parsed all succeed. *)
Definition startsUp (P : Process) (envFileName : string) : Prop :=
  (envFileName = "" ∨ godotenv_Load P envFileName = None)
  ∧ influxdb_NewHTTPClient P (os_Getenv P "INFLUX_SERVER") = None
  ∧ Influx_Ping P = None.

(** The state after [n] more attempts to write [bp], all of them failed. *)
Definition afterFailedWrites (s : State) (n : nat) (bp : list Point)
    (errs : list string) : State :=
  {| trace := trace s ++ replicate n (Wrote bp) ++ [Logged (LogWriteFailed errs)];
     ticks := ticks s;
     attempts := attempts s + n |}.

Definition everyWriteFails (W : World) : Prop :=
  ∀ k bp, Influx_Write W k bp ≠ None.

(** The store holds no aggregate of the interval: the reply to the
    staleness query has no result, or its first result has no series. *)
Definition noPriorPoint (reply : queryReply) : Prop :=
  ∃ resp, reply = QueryResponse resp ∧ Err resp = ""
          ∧ (Results resp = []
             ∨ ∃ res0 rest, Results resp = res0 :: rest ∧ Series res0 = []).

(** The most recent aggregate of the interval is stamped [t]: the reply
    is one series whose first column is "time" and whose first row starts
    with the RFC 3339 text of [t]. *)
Definition priorPointAt (C : Collab) (reply : queryReply) (t : Time) : Prop :=
  ∃ resp row0 v0 text,
    reply = QueryResponse resp ∧ Err resp = ""
    ∧ Results resp = [ {| Series := [row0] |} ]
    ∧ Columns row0 !! 0%nat = Some "time"
    ∧ Values row0 !! 0%nat = Some v0
    ∧ v0 !! 0%nat = Some (CString text)
    ∧ time_Parse_RFC3339 C text = Some t.

(** The query record of the staleness query. *)
Definition stalenessProbe (resultFieldName measurementTo interval tagsWhere db rp : string)
  : Query :=
  {| Command := stalenessQuery resultFieldName measurementTo interval tagsWhere;
     Database := db; RetentionPolicy := rp |}.

(** The state after the staleness query of an interval. *)
Definition afterProbe (s : State) (q : Query) : State :=
  addEvents s [Logged (LogDebugQuery (Command q)); Queried q].

(** The staleness rule of one interval, for a check [isDue] whose query is
    [probe]: with no prior point the interval is due; with a prior point
    stamped [t] it is due exactly when more than [maxAge] has passed, on
    the run's clock, since the reference instant [ref t]; and these are the
    only ways the check returns. *)
Definition stalenessRule (C : Collab) (W : World) (isDue : M bool)
    (probe : Query) (ref : Time -> Time) (maxAge : Duration) : Prop :=
  ∀ s,
    (noPriorPoint (Influx_Query W probe) ->
     isDue s = (Returned true, afterProbe s probe))
    ∧ (∀ t, priorPointAt C (Influx_Query W probe) t ->
         isDue s = (Returned (bool_decide (maxAge < clock W (ticks s) - ref t)),
                    tick (afterProbe s probe)))
    ∧ (∀ due s', isDue s = (Returned due, s') ->
         (due = true ↔
          noPriorPoint (Influx_Query W probe)
          ∨ ∃ t, priorPointAt C (Influx_Query W probe) t
                 ∧ maxAge < clock W (ticks s) - ref t)).

(** The staleness query of each revision, as a query record. *)
Definition Unweighted_probe (args : Unweighted.WindDirectionAggArgs)
    (tagsWhere interval : string) : Query :=
  stalenessProbe (Unweighted.wdMeanResultFieldName args interval)
    (Unweighted.MeasurementTo args) interval tagsWhere
    (Unweighted.InfluxDB args) (Unweighted.InfluxRP args).

Definition Weighted_probe (args : Weighted.WindDirectionAggArgs)
    (tagsWhere interval : string) : Query :=
  stalenessProbe (Weighted.wdMeanResultFieldName args interval)
    (Weighted.MeasurementTo args) interval tagsWhere
    (Weighted.InfluxDB args) (Weighted.InfluxRP args).

Definition Returning_probe (args : Returning.WindDirectionAggArgs)
    (tagsWhere interval : string) : Query :=
  stalenessProbe (Returning.wdMeanResultFieldName args interval)
    (Returning.MeasurementTo args) interval tagsWhere
    (Returning.InfluxDB args) (Returning.InfluxRP args).

(** What the inner loop of the bucketing stores under [i], when the sample
    [smp] is offered to the buckets [acc] of the intervals [todo]. *)
Definition offered {A} (now : Time) (todo : list string) (smp : Time * A)
    (acc : gmap string (list A)) (i : string) : option (list A) :=
  if decide (i ∈ todo) then
    match windDirIntervalToDuration i with
    | Some d =>
        if Time_Sub now smp.1 <=? d
        then Some (default [] (acc !! i) ++ [smp.2])
        else acc !! i
    | None => acc !! i
    end
  else acc !! i.

(** The samples of a window: those whose age at [now] is at most [d], in
    the order of the rows. *)
Definition bucketOf {A} (now : Time) (d : Duration) (samples : list (Time * A))
  : list A :=
  snd <$> filter (λ smp, now - smp.1 <= d) samples.

(** A row of the unweighted sample query yields the sample [smp]: its
    time cell is a string that parses to the sample's time, its direction
    cell a number whose clamped value is the sample's angle. *)
Definition unweightedRowSample (C : Collab) (row : list cell)
    (smp : Time * float) : Prop :=
  ∃ text lit raw,
    row !! 0%nat = Some (CString text) ∧ time_Parse_RFC3339 C text = Some smp.1
    ∧ row !! 1%nat = Some (CNumber lit) ∧ Number_Float64 C lit = Some raw
    ∧ smp.2 = Clamped C raw.

(** A row of the weighted sample query yields the sample [smp]. *)
Definition weightedRowSample (C : Collab) (row : list cell)
    (smp : Time * wdDataPoint) : Prop :=
  ∃ text lit raw lit' speed,
    row !! 0%nat = Some (CString text) ∧ time_Parse_RFC3339 C text = Some smp.1
    ∧ row !! 1%nat = Some (CNumber lit) ∧ Number_Float64 C lit = Some raw
    ∧ row !! 2%nat = Some (CNumber lit') ∧ Number_Float64 C lit' = Some speed
    ∧ smp.2 = {| dir := Clamped C raw; spd := speed |}.



(** The three field names of an interval. *)
Definition fieldKeys (field interval : string) : list string :=
  [ meanFieldName field interval; stdDevFieldName field interval;
    meanIntercardinalFieldName field interval ].

(** What the unweighted revision stores for an interval whose bucket is
    [bucket]. *)
Definition Unweighted_fieldsOf (C : Collab) (args : Unweighted.WindDirectionAggArgs)
    (fields : gmap string fieldValue) (interval : string) (bucket : list float)
  : Prop :=
  ∃ sec prim,
    Unweighted.stdDevThresholdsForWindDirIntervalCardinalResult interval
    = Some (sec, prim)
    ∧ fields !! Unweighted.wdMeanResultFieldName args interval
      = Some (FloatField (AvgDirectionDeg C bucket))
    ∧ fields !! Unweighted.wdStdDevResultFieldName args interval
      = Some (FloatField (StdDevDeg C bucket))
    ∧ fields !! Unweighted.wdMeanIntercardinalResultFieldName args interval
      = Some (StringField
                (Unweighted.cardinalResult C sec prim
                   (AvgDirectionDeg C bucket) (StdDevDeg C bucket))).

(** The point the weighted revision adds for an interval whose bucket is
    [bucket]. *)
Definition Weighted_pointOf (C : Collab) (args : Weighted.WindDirectionAggArgs)
    (now : Time) (tags : gmap string string)
    (data : gmap string (list wdDataPoint)) (interval : string) (p : Point)
  : Prop :=
  let bucket := default [] (data !! interval) in
  ∃ mean sd sec prim ts,
    WeightedAvgDirectionDeg C (dirSeries bucket) (spdSeries bucket) = inr mean
    ∧ WeightedStdDevDirectionDeg C (dirSeries bucket) (spdSeries bucket) = inr sd
    ∧ Weighted.stdDevThresholdsForWindDirIntervalCardinalResult interval
      = Some (sec, prim)
    ∧ Weighted.pointTimestamp interval now = Some ts
    ∧ p = {| pt_name := Weighted.MeasurementTo args; pt_tags := tags;
             pt_fields :=
               Weighted.intervalFields args interval mean sd
                 (Weighted.cardinalResult C sec prim mean sd);
             pt_time := ts |}.

(** The point the revision that returns its points adds for an interval. *)
Definition Returning_pointOf (C : Collab) (args : Returning.WindDirectionAggArgs)
    (now : Time) (data : gmap string (list wdDataPoint)) (interval : string)
    (p : Point) : Prop :=
  let bucket := default [] (data !! interval) in
  ∃ mean sd ts,
    WeightedAvgDirectionDeg C (dirSeries bucket) (spdSeries bucket) = inr mean
    ∧ WeightedStdDevDirectionDeg C (dirSeries bucket) (spdSeries bucket) = inr sd
    ∧ Returning.pointTimestamp interval now = Some ts
    ∧ p = {| pt_name := Returning.MeasurementTo args;
             pt_tags := Returning.WriteTags args;
             pt_fields :=
               Returning.intervalFields args interval mean sd
                 (Returning.cardinalResult C interval mean sd);
             pt_time := ts |}.

(** The intervals whose bucket holds a sample. *)
Definition nonEmptyBuckets {A} (data : gmap string (list A)) (todo : list string)
  : list string :=
  filter (λ i, length (default [] (data !! i)) ≠ 0%nat) todo.


Definition Unweighted_sampleProbe (args : Unweighted.WindDirectionAggArgs)
    (widest : string) : Query :=
  {| Command := Unweighted.sampleQuery args widest
                  (PartialWhereClauseForTags (Unweighted.Tags args));
     Database := Unweighted.InfluxDB args;
     RetentionPolicy := Unweighted.InfluxRP args |}.

Definition Weighted_sampleProbe (args : Weighted.WindDirectionAggArgs)
    (widest : string) : Query :=
  {| Command := weightedSampleQuery (Weighted.WindDirectionField args)
                  (Weighted.WindSpeedField args) (Weighted.MeasurementFrom args)
                  widest (PartialWhereClauseForTags (Weighted.Tags args));
     Database := Weighted.InfluxDB args;
     RetentionPolicy := Weighted.InfluxRP args |}.

Definition Returning_sampleProbe (args : Returning.WindDirectionAggArgs)
    (widest : string) : Query :=
  {| Command := weightedSampleQuery (Returning.WindDirectionField args)
                  (Returning.WindSpeedField args) (Returning.MeasurementFrom args)
                  widest (PartialWhereClauseForTags (Returning.QueryTags args));
     Database := Returning.InfluxDB args;
     RetentionPolicy := Returning.InfluxRP args |}.

(** ** The vocabulary of the further properties *)

(** [s] holds no occurrence of the character [c]. *)
Fixpoint freeOf (c : Ascii.ascii) (s : string) : bool :=
  match s with
  | EmptyString => true
  | String a s' => negb (Ascii.eqb a c) && freeOf c s'
  end.

(** The number of occurrences of the character [c] in [s]. *)
Fixpoint countOf (c : Ascii.ascii) (s : string) : nat :=
  match s with
  | EmptyString => 0
  | String a s' => (if Ascii.eqb a c then 1 else 0) + countOf c s'
  end.

(** The text of a tag on the command line, [key=value]. *)
Definition tagText (kv : string * string) : string := kv.1 +:+ "=" +:+ kv.2.

(** A tag whose key and value hold neither a comma nor an equals sign. *)
Definition plainTag (kv : string * string) : Prop :=
  freeOf "," kv.1 = true ∧ freeOf "=" kv.1 = true
  ∧ freeOf "," kv.2 = true ∧ freeOf "=" kv.2 = true.

(** The condition one tag adds to a query. *)
Definition tagCondition (kv : string * string) : string :=
  " AND " +:+ kv.1 +:+ "='" +:+ kv.2 +:+ "'".

(** The ways a Go function ends other than by returning. *)
Inductive ending : Type :=
| EndFailed (e : error)
| EndPanicked (p : panic)
| EndExited (code : Z).

(** Every run of [m] returns a value that satisfies [post], or ends in a
    way that [ok] allows. *)
Definition ends {A} (ok : ending -> Prop) (post : A -> Prop) (m : M A) : Prop :=
  ∀ s, match (m s).1 with
       | Returned a => post a
       | Failed e => ok (EndFailed e)
       | Panicked p => ok (EndPanicked p)
       | Exited c => ok (EndExited c)
       end.

(** The panics of the engine other than the "unknown interval" one: an
    index out of range, a failed type assertion. *)
Definition enginePanic (p : panic) : Prop :=
  match p with
  | PanicUnknownInterval _ => False
  | PanicIndexOutOfRange _ _ | PanicTypeAssertion _ => True
  end.

(** How the engine may end, when [allowed] are the errors it may return:
    with one of these errors or with one of these panics, and never by
    leaving the process. *)
Definition engineEnding (allowed : error -> Prop) (e : ending) : Prop :=
  match e with
  | EndFailed err => allowed err
  | EndPanicked p => enginePanic p
  | EndExited _ => False
  end.

(** The errors of the unweighted revision: all but those of the speed
    column and of the weighted statistics. *)
Definition Unweighted_error (e : error) : Prop :=
  match e with
  | ErrThirdColumn _ _ | ErrParseWindSpeed _
  | ErrWeightedAvg _ | ErrWeightedStdDev _ => False
  | _ => True
  end.

(** The errors of the revision that returns its points: all but the one
    of the batch, which [main] creates. *)
Definition Returning_error (e : error) : Prop :=
  match e with
  | ErrCreateBatch _ => False
  | _ => True
  end.


(** The events of one logged query: the query is logged, then sent. *)
Definition probeEvents (q : Query) : list event :=
  [Logged (LogDebugQuery (Command q)); Queried q].

(** A computation that may read the clock, but neither adds to the trace
    nor writes. *)
Definition quiet {A} (m : M A) : Prop :=
  ∀ s, trace (m s).2 = trace s ∧ attempts (m s).2 = attempts s.

(** The state after [k] more attempts to write [bp]. *)
Definition afterWrites (s : State) (k : nat) (bp : list Point) : State :=
  {| trace := trace s ++ replicate k (Wrote bp);
     ticks := ticks s;
     attempts := attempts s + k |}.

(** The write attempt number [k] from the state [s] is the first to
    succeed. *)
Definition firstSuccessAt (W : World) (s : State) (bp : list Point) (k : nat)
  : Prop :=
  Influx_Write W (attempts s + k) bp = None
  ∧ ∀ j, (j < k)%nat -> Influx_Write W (attempts s + j) bp ≠ None.

(** The shape of the events [evs] of a run that made [n] write attempts:
    first the queries, then the writes.  The queries are the staleness
    queries [probe] of a prefix of the enumeration, followed, only when all
    six were asked, by at most one sample query, [sample] of an interval of
    the enumeration; the writes are at most [budget] attempts to write one
    and the same batch. *)
Definition runShape (probe sample : string -> Query) (budget : nat)
    (evs : list event) (n : nat) : Prop :=
  ∃ evsQ evsW asked fetched bp,
    evs = evsQ ++ evsW
    ∧ writesOf evsQ = [] ∧ queriesOf evsW = []
    ∧ queriesOf evsQ = (probe <$> asked) ++ (sample <$> fetched)
    ∧ asked `prefix_of` allWindDirectionIntervals
    ∧ (fetched = []
       ∨ (asked = allWindDirectionIntervals
          ∧ ∃ widest, fetched = [widest] ∧ widest ∈ allWindDirectionIntervals))
    ∧ writesOf evsW = replicate n bp
    ∧ (n <= budget)%nat.

(** What the weighted revisions store in the point of [interval] whose
    bucket is [bucket]: the name, the three fields and no other, and the two
    statistics. *)
Definition holdsThreeFields (C : Collab) (field : string) (name : string)
    (tags : gmap string string) (interval : string) (bucket : list wdDataPoint)
    (p : Point) : Prop :=
  pt_name p = name ∧ pt_tags p = tags
  ∧ dom (pt_fields p) = list_to_set (fieldKeys field interval)
  ∧ size (pt_fields p) = 3%nat
  ∧ (∃ mean, WeightedAvgDirectionDeg C (dirSeries bucket) (spdSeries bucket) = inr mean
             ∧ pt_fields p !! meanFieldName field interval = Some (FloatField mean))
  ∧ (∃ sd, WeightedStdDevDirectionDeg C (dirSeries bucket) (spdSeries bucket) = inr sd
           ∧ pt_fields p !! stdDevFieldName field interval = Some (FloatField sd))
  ∧ (∃ label, pt_fields p !! meanIntercardinalFieldName field interval
              = Some (StringField label)).

(** A store whose first write attempt times out and whose later attempts
    succeed. *)
Definition flakyWrites : World :=
  {| Influx_Query := λ _, QueryResponse Example.noSeries;
     Influx_Write := λ k _, if (k =? 0)%nat then Some "timeout" else None;
     clock := λ _, Example.midnight |}.

(** A store that refuses every query. *)
Definition brokenStore : World :=
  {| Influx_Query := λ _, QueryError "connection refused";
     Influx_Write := λ _ _, None;
     clock := λ _, Example.midnight |}.

(** A store that holds no aggregate yet and answers the sample query with a
    series of no row. *)
Definition emptySeriesWorld : World :=
  Example.world
    (Unweighted.sampleQuery Example.unweightedArgs "6h" Example.tagsWhere)
    (Example.oneSeries ["time"; "wind_dir"] []) false.

(** A reply of two results. *)
Definition twoResults : Response :=
  {| Results := [ {| Series := [ {| Columns := ["time"]; Values := [] |} ] |};
                  {| Series := [] |} ];
     Err := "" |}.

(** A point with no field, stamped at midnight. *)
Definition examplePoint : Point :=
  {| pt_name := "weather_station_agg";
     pt_tags := Example.stationTags;
     pt_fields := ∅;
     pt_time := Example.midnight |}.

(** A run of [main] for the station "home". *)
Definition flagsStation : MainReturning.Flags :=
  {| MainReturning.measurement := "weather_station";
     MainReturning.tags := "station=home";
     MainReturning.wind_dir_field := "wind_dir";
     MainReturning.wind_speed_field := "wind_speed";
     MainReturning.env := "";
     MainReturning.version := false |}.

(** A run of [main] that asks for the version. *)
Definition flagsVersion : MainReturning.Flags :=
  {| MainReturning.measurement := "weather_station";
     MainReturning.tags := "";
     MainReturning.wind_dir_field := "";
     MainReturning.wind_speed_field := "";
     MainReturning.env := "missing.env";
     MainReturning.version := true |}.

(** Two rows, six and four minutes before a run at eight minutes past
    midnight. *)
Definition twoRows : list (list cell) :=
  [ [CString "2024-01-01T00:02:00Z"; CNumber "350"];
    [CString "2024-01-01T00:04:00Z"; CNumber "10"] ].





(** * Properties *)

(** ** The monad *)

Lemma bind_Returned {A B} (m : M A) (k : A -> M B) s b s' :
  (m ≫= k) s = (Returned b, s') ->
  ∃ a s1, m s = (Returned a, s1) ∧ k a s1 = (Returned b, s').
Proof.
  unfold mbind, M_bind, bind. destruct (m s) as [[a|e|p|c] s1]; intros H;
    try discriminate. eauto.
Qed.

Lemma bind_run {A B} (m : M A) (k : A -> M B) s a s1 :
  m s = (Returned a, s1) -> (m ≫= k) s = k a s1.
Proof. unfold mbind, M_bind, bind. intros ->. reflexivity. Qed.

Lemma bind_Exited {A B} (m : M A) (k : A -> M B) s c s1 :
  m s = (Exited c, s1) -> (m ≫= k) s = (Exited c, s1).
Proof. unfold mbind, M_bind, bind. intros ->. reflexivity. Qed.

Lemma bind_Failed {A B} (m : M A) (k : A -> M B) s e s1 :
  m s = (Failed e, s1) -> (m ≫= k) s = (Failed e, s1).
Proof. unfold mbind, M_bind, bind. intros ->. reflexivity. Qed.

Lemma bind_Panicked {A B} (m : M A) (k : A -> M B) s p s1 :
  m s = (Panicked p, s1) -> (m ≫= k) s = (Panicked p, s1).
Proof. unfold mbind, M_bind, bind. intros ->. reflexivity. Qed.

(** ** Intervals *)

Lemma interval_cases (P : string -> Prop) :
  P wdInterval6h -> P wdInterval3h -> P wdInterval1h ->
  P wdInterval30m -> P wdInterval15m -> P wdInterval5m ->
  ∀ interval, interval ∈ allWindDirectionIntervals -> P interval.
Proof.
  intros H6 H3 H1 H30 H15 H5 interval Hin.
  unfold allWindDirectionIntervals in Hin.
  repeat (apply elem_of_cons in Hin as [-> | Hin]; [assumption |]).
  by apply elem_of_nil in Hin.
Qed.

Lemma duration_known interval :
  interval ∈ allWindDirectionIntervals ->
  ∃ d, windDirIntervalToDuration interval = Some d ∧ 5 * Minute <= d <= 6 * Hour.
Proof.
  revert interval. apply interval_cases; eexists; (split; [reflexivity |]);
    vm_compute; split; discriminate.
Qed.

Lemma intervals_NoDup : NoDup allWindDirectionIntervals.
Proof. by apply (bool_decide_unpack _). Qed.

(** ** The tag set of the written points (C10) *)

Lemma maps_Copy_union (dst src : gmap string string) :
  maps_Copy dst src = src ∪ dst.
Proof.
  unfold maps_Copy.
  apply (map_fold_weak_ind (λ r m, r = m ∪ dst)).
  - by rewrite (left_id_L ∅ (∪)).
  - intros i x m r _ ->. by rewrite insert_union_l.
Qed.

Lemma writeTagsFor_union Version (callerTags : gmap string string) :
  writeTagsFor Version callerTags
  = callerTags ∪ {[ "aggregator" := aggregatorIdentity Version ]}.
Proof. apply maps_Copy_union. Qed.

(** ** Computations that leave the state alone *)

Lemma stateless_ret {A} (a : A) : stateless (ret a).
Proof. by intros s. Qed.

Lemma stateless_returnErr {A} e : stateless (@returnErr A e).
Proof. by intros s. Qed.

Lemma stateless_go_panic {A} p : stateless (@go_panic A p).
Proof. by intros s. Qed.

Lemma stateless_bind {A B} (m : M A) (k : A -> M B) :
  stateless m -> (∀ a, stateless (k a)) -> stateless (m ≫= k).
Proof.
  intros Hm Hk s. unfold mbind, M_bind, bind.
  specialize (Hm s). destruct (m s) as [[a|e|p|c] s1]; simpl in *; subst; try done.
  apply Hk.
Qed.

Lemma stateless_forRange {A S} (xs : list A) (body : A -> S -> M S) acc :
  (∀ x a, stateless (body x a)) -> stateless (forRange xs body acc).
Proof.
  intros Hb. revert acc. induction xs as [|x xs IH]; intros acc; simpl.
  - apply stateless_ret.
  - apply stateless_bind; auto.
Qed.

Lemma stateless_index {A} (l : list A) i : stateless (index l i).
Proof. unfold index. destruct (l !! i); [apply stateless_ret | apply stateless_go_panic]. Qed.

Lemma stateless_lookupOrPanic {A} interval (o : option A) :
  stateless (lookupOrPanic interval o).
Proof. destruct o; [apply stateless_ret | apply stateless_go_panic]. Qed.

Lemma stateless_assertString c : stateless (assertString c).
Proof. destruct c; first [apply stateless_ret | apply stateless_go_panic]. Qed.

Lemma stateless_assertNumber c : stateless (assertNumber c).
Proof. destruct c; first [apply stateless_ret | apply stateless_go_panic]. Qed.

Lemma stateless_parseTimeCell C c : stateless (parseTimeCell C c).
Proof.
  unfold parseTimeCell. apply stateless_bind; [apply stateless_assertString |].
  intros s. destruct (time_Parse_RFC3339 C s);
    [apply stateless_ret | apply stateless_returnErr].
Qed.

Lemma stateless_parseNumberCell C mk c : stateless (parseNumberCell C mk c).
Proof.
  unfold parseNumberCell. apply stateless_bind; [apply stateless_assertNumber |].
  intros s. destruct (Number_Float64 C s);
    [apply stateless_ret | apply stateless_returnErr].
Qed.

Lemma stateless_run {A} (m : M A) s o s' :
  stateless m -> m s = (o, s') -> s' = s.
Proof. intros Hm H. specialize (Hm s). rewrite H in Hm. done. Qed.

(** ** The planning loop (C4) *)

Lemma planning_loop_sublist (isDue : string -> M bool) ivs acc s todo s' :
  forRange ivs
    (λ interval intervalsTodo,
       due ← isDue interval;
       ret (if due : bool then intervalsTodo ++ [interval] else intervalsTodo))
    acc s = (Returned todo, s') ->
  ∃ l, todo = acc ++ l ∧ l `sublist_of` ivs.
Proof.
  revert acc s. induction ivs as [|i ivs IH]; intros acc s H; simpl in H.
  - injection H as <- <-. exists []. by rewrite app_nil_r.
  - apply bind_Returned in H as (acc' & s1 & Hbody & H).
    apply bind_Returned in Hbody as (due & s2 & _ & Hret).
    injection Hret as <- <-.
    apply IH in H as (l & -> & Hl). destruct due.
    + exists (i :: l). rewrite <- app_assoc. split; [done |]. by constructor.
    + exists l. split; [done |]. by constructor.
Qed.

Lemma planIntervals_sublist (isDue : string -> M bool) s todo s' :
  planIntervals isDue s = (Returned todo, s') ->
  todo `sublist_of` allWindDirectionIntervals.
Proof.
  intros H. apply planning_loop_sublist in H as (l & -> & Hl). done.
Qed.

Lemma intervals_descending : StronglySorted atLeastAsLong allWindDirectionIntervals.
Proof.
  unfold allWindDirectionIntervals.
  repeat (apply SSorted_cons; [| repeat constructor]);
    try apply SSorted_nil;
    eexists _, _; (split; [reflexivity | split; [reflexivity | by vm_compute]]).
Qed.

Lemma StronglySorted_sublist_of {A} (R : relation A) (l1 l2 : list A) :
  l1 `sublist_of` l2 -> StronglySorted R l2 -> StronglySorted R l1.
Proof.
  induction 1 as [| x l1 l2 Hsub IH | x l1 l2 Hsub IH]; intros Hs.
  - constructor.
  - apply StronglySorted_cons in Hs as [Hall Hs].
    apply StronglySorted_cons. split; [| auto].
    apply Forall_forall. intros y Hy.
    eapply Forall_forall in Hall; [exact Hall |].
    by eapply sublist_subseteq.
  - apply StronglySorted_cons in Hs as [_ Hs]. auto.
Qed.

Lemma widest_first (todo : list string) widest rest i :
  todo `sublist_of` allWindDirectionIntervals ->
  todo = widest :: rest -> i ∈ todo -> atLeastAsLong widest i.
Proof.
  intros Hsub -> Hi.
  pose proof (StronglySorted_sublist_of _ _ _ Hsub intervals_descending) as Hs.
  apply StronglySorted_cons in Hs as [Hall _].
  apply elem_of_cons in Hi as [-> | Hi].
  - assert (widest ∈ allWindDirectionIntervals) as Hw
      by (eapply sublist_subseteq; [exact Hsub | left]).
    destruct (duration_known _ Hw) as (d & Hd & _).
    exists d, d. repeat split; try done.
  - eapply Forall_forall in Hall; eauto.
Qed.

(** ** Traces *)

Lemma addEvents_nil s : addEvents s [] = s.
Proof. destruct s. unfold addEvents. simpl. by rewrite app_nil_r. Qed.

Lemma addEvents_app s e1 e2 : addEvents (addEvents s e1) e2 = addEvents s (e1 ++ e2).
Proof. unfold addEvents. simpl. by rewrite app_assoc. Qed.

Lemma log_then {A} l (k : M A) s :
  (log_Printf l ;; k) s = k (addEvents s [Logged l]).
Proof. reflexivity. Qed.

Lemma now_then {A} W (k : Time -> M A) s :
  (time_Now W ≫= k) s = k (clock W (ticks s)) (tick s).
Proof. reflexivity. Qed.

Lemma stateless_then {A B} (m : M A) (k : A -> M B) s :
  stateless m ->
  (∃ a, m s = (Returned a, s) ∧ (m ≫= k) s = k a s)
  ∨ (∃ e, m s = (Failed e, s) ∧ (m ≫= k) s = (Failed e, s))
  ∨ (∃ p, m s = (Panicked p, s) ∧ (m ≫= k) s = (Panicked p, s))
  ∨ (∃ c, m s = (Exited c, s) ∧ (m ≫= k) s = (Exited c, s)).
Proof.
  intros Hm. specialize (Hm s). unfold mbind, M_bind, bind.
  destruct (m s) as [[a|e|p|c] s1]; simpl in Hm; subst; eauto 10.
Qed.

Lemma queryChecked_state W cmd db rp s o s' :
  queryChecked W cmd db rp s = (o, s') ->
  s' = addEvents s
         [Queried {| Command := cmd; Database := db; RetentionPolicy := rp |}].
Proof.
  unfold queryChecked, Influx_Query_call. intros H.
  change ((match Influx_Query W {| Command := cmd; Database := db; RetentionPolicy := rp |} with
           | QueryError msg => returnErr (ErrQueryFailed msg)
           | QueryResponse resp =>
               if decide (Err resp = "") then ret resp
               else returnErr (ErrQueryFailed (Err resp))
           end) (addEvents s [Queried {| Command := cmd; Database := db; RetentionPolicy := rp |}])
          = (o, s')) in H.
  destruct (Influx_Query W _) as [msg | resp]; [by injection H |].
  destruct (decide _); by injection H.
Qed.

Lemma stateless_singleSeries r : stateless (singleSeries r).
Proof.
  unfold singleSeries. destruct (Results r) as [|res0 ?]; [apply stateless_ret |].
  destruct (Series res0) as [|row0 ?]; [apply stateless_ret |].
  destruct (_ <? _)%nat; [apply stateless_returnErr |].
  destruct (_ <? _)%nat; [apply stateless_returnErr |].
  apply stateless_bind; [apply stateless_index |].
  intros c0. destruct (decide _); [apply stateless_ret | apply stateless_returnErr].
Qed.

Lemma bind_stateless_tail {A B} (m : M A) (k : A -> M B) s o s' :
  (∀ a, stateless (k a)) -> (m ≫= k) s = (o, s') -> s' = (m s).2.
Proof.
  intros Hk. unfold mbind, M_bind, bind.
  destruct (m s) as [[a|e|p|c] s1]; simpl; intros H;
    [by eapply stateless_run | by injection H ..].
Qed.

Ltac stateless_tac :=
  repeat first
    [ apply stateless_ret | apply stateless_returnErr | apply stateless_go_panic
    | apply stateless_index | apply stateless_lookupOrPanic
    | apply stateless_parseTimeCell | apply stateless_parseNumberCell
    | apply stateless_singleSeries
    | apply stateless_bind; [| intros ?]
    | apply stateless_forRange; intros ? ?
    | match goal with
      | |- stateless (if ?b then _ else _) => destruct b
      | |- stateless (match ?o with _ => _ end) => destruct o
      end ].

Lemma stateless_checkWeightedSeries d sp r : stateless (checkWeightedSeries d sp r).
Proof. unfold checkWeightedSeries. stateless_tac. Qed.

Lemma stateless_weightedStatistics C data : stateless (weightedStatistics C data).
Proof. unfold weightedStatistics. stateless_tac. Qed.

Lemma stateless_bucketWeightedRow C now todo row data :
  stateless (bucketWeightedRow C now todo row data).
Proof. unfold bucketWeightedRow. stateless_tac. Qed.

Lemma Unweighted_stateless_bucketRow C now todo row data :
  stateless (Unweighted.bucketRow C now todo row data).
Proof. unfold Unweighted.bucketRow. stateless_tac. Qed.

Lemma Unweighted_stateless_aggregateInterval C args data interval fields :
  stateless (Unweighted.aggregateInterval C args data interval fields).
Proof. unfold Unweighted.aggregateInterval. stateless_tac. Qed.

Lemma Weighted_stateless_aggregateInterval C args now tags data interval bp :
  stateless (Weighted.aggregateInterval C args now tags data interval bp).
Proof.
  unfold Weighted.aggregateInterval. stateless_tac.
  apply stateless_weightedStatistics.
Qed.

Lemma Returning_stateless_aggregateInterval C args now data interval bp :
  stateless (Returning.aggregateInterval C args now data interval bp).
Proof.
  unfold Returning.aggregateInterval. stateless_tac.
  apply stateless_weightedStatistics.
Qed.

(** The sample query is the only effect of fetching the samples. *)
Lemma Unweighted_fetchSamples_state W args widest tagsWhere s o s' :
  Unweighted.fetchSamples W args widest tagsWhere s = (o, s') ->
  s' = addEvents s
         [Logged (LogDebugQuery (Unweighted.sampleQuery args widest tagsWhere));
          Queried {| Command := Unweighted.sampleQuery args widest tagsWhere;
                     Database := Unweighted.InfluxDB args;
                     RetentionPolicy := Unweighted.InfluxRP args |}].
Proof.
  unfold Unweighted.fetchSamples. rewrite log_then. intros H.
  apply bind_stateless_tail in H; [| intros; stateless_tac].
  destruct (queryChecked _ _ _ _ _) as [o1 s1] eqn:Hq.
  apply queryChecked_state in Hq. simpl in H. subst.
  by rewrite addEvents_app.
Qed.

Lemma Weighted_fetchSamples_state W args widest tagsWhere s o s' :
  Weighted.fetchSamples W args widest tagsWhere s = (o, s') ->
  let q := weightedSampleQuery (Weighted.WindDirectionField args)
             (Weighted.WindSpeedField args) (Weighted.MeasurementFrom args)
             widest tagsWhere in
  s' = addEvents s
         [Logged (LogDebugQuery q);
          Queried {| Command := q; Database := Weighted.InfluxDB args;
                     RetentionPolicy := Weighted.InfluxRP args |}].
Proof.
  unfold Weighted.fetchSamples. rewrite log_then. intros H.
  apply bind_stateless_tail in H; [| intros; apply stateless_checkWeightedSeries].
  destruct (queryChecked _ _ _ _ _) as [o1 s1] eqn:Hq.
  apply queryChecked_state in Hq. simpl in H. subst.
  by rewrite addEvents_app.
Qed.

Lemma Returning_fetchSamples_state W args widest tagsWhere s o s' :
  Returning.fetchSamples W args widest tagsWhere s = (o, s') ->
  let q := weightedSampleQuery (Returning.WindDirectionField args)
             (Returning.WindSpeedField args) (Returning.MeasurementFrom args)
             widest tagsWhere in
  s' = addEvents s
         [Queried {| Command := q; Database := Returning.InfluxDB args;
                     RetentionPolicy := Returning.InfluxRP args |}].
Proof.
  unfold Returning.fetchSamples. intros H.
  apply bind_stateless_tail in H; [| intros; apply stateless_checkWeightedSeries].
  destruct (queryChecked _ _ _ _ _) as [o1 s1] eqn:Hq.
  apply queryChecked_state in Hq. simpl in H. by subst.
Qed.

(** Once the planning loop has found intervals to do, the rest of the run
    issues one query, the sample query scoped to the first of them, and
    no write before the batch is ready. *)
Lemma Unweighted_after_planning C W Version args s widest rest s1 :
  planIntervals
    (Unweighted.intervalIsDue C W args
       (PartialWhereClauseForTags (Unweighted.Tags args))) s
  = (Returned (widest :: rest), s1) ->
  ∃ o evs,
    Unweighted.prepareBatch C W Version args s = (o, addEvents (tick s1) evs)
    ∧ queriesOf evs
      = [ {| Command := Unweighted.sampleQuery args widest
                          (PartialWhereClauseForTags (Unweighted.Tags args));
             Database := Unweighted.InfluxDB args;
             RetentionPolicy := Unweighted.InfluxRP args |} ]
    ∧ writesOf evs = [].
Proof.
  intros Hplan. unfold Unweighted.prepareBatch.
  rewrite (bind_run _ _ _ _ _ Hplan). rewrite now_then.
  destruct (Unweighted.fetchSamples W args widest
              (PartialWhereClauseForTags (Unweighted.Tags args)) (tick s1))
    as [o1 s2] eqn:Hf.
  pose proof (Unweighted_fetchSamples_state _ _ _ _ _ _ _ Hf) as Hs2.
  unfold mbind at 1, M_bind, bind. rewrite Hf.
  destruct o1 as [[row0|]|e|p|c]; subst s2.
  - match goal with |- ∃ o evs, ?m ?st = _ ∧ _ =>
      destruct (m st) as [o s3] eqn:Hrest end.
    apply stateless_run in Hrest as ->.
    + eexists _, _. split; [reflexivity |]. split; reflexivity.
    + stateless_tac; first [apply Unweighted_stateless_bucketRow
                           | apply Unweighted_stateless_aggregateInterval].
  - rewrite log_then, addEvents_app. eexists _, _. split; [reflexivity |].
    split; reflexivity.
  - eexists _, _. split; [reflexivity |]. split; reflexivity.
  - eexists _, _. split; [reflexivity |]. split; reflexivity.
  - eexists _, _. split; [reflexivity |]. split; reflexivity.
Qed.

Lemma Weighted_after_planning C W Version args s widest rest s1 :
  planIntervals
    (Weighted.intervalIsDue C W args
       (PartialWhereClauseForTags (Weighted.Tags args))) s
  = (Returned (widest :: rest), s1) ->
  ∃ o evs,
    Weighted.prepareBatch C W Version args s = (o, addEvents (tick s1) evs)
    ∧ queriesOf evs
      = [ {| Command := weightedSampleQuery (Weighted.WindDirectionField args)
                          (Weighted.WindSpeedField args)
                          (Weighted.MeasurementFrom args) widest
                          (PartialWhereClauseForTags (Weighted.Tags args));
             Database := Weighted.InfluxDB args;
             RetentionPolicy := Weighted.InfluxRP args |} ]
    ∧ writesOf evs = [].
Proof.
  intros Hplan. unfold Weighted.prepareBatch.
  rewrite (bind_run _ _ _ _ _ Hplan). rewrite now_then.
  destruct (Weighted.fetchSamples W args widest
              (PartialWhereClauseForTags (Weighted.Tags args)) (tick s1))
    as [o1 s2] eqn:Hf.
  pose proof (Weighted_fetchSamples_state _ _ _ _ _ _ _ Hf) as Hs2.
  unfold mbind at 1, M_bind, bind. rewrite Hf.
  destruct o1 as [[row0|]|e|p|c]; simpl in Hs2; subst s2.
  - match goal with |- ∃ o evs, ?m ?st = _ ∧ _ =>
      destruct (m st) as [o s3] eqn:Hrest end.
    apply stateless_run in Hrest as ->.
    + eexists _, _. split; [reflexivity |]. split; reflexivity.
    + stateless_tac; first [apply stateless_bucketWeightedRow
                           | apply Weighted_stateless_aggregateInterval].
  - rewrite log_then, addEvents_app. eexists _, _. split; [reflexivity |].
    split; reflexivity.
  - eexists _, _. split; [reflexivity |]. split; reflexivity.
  - eexists _, _. split; [reflexivity |]. split; reflexivity.
  - eexists _, _. split; [reflexivity |]. split; reflexivity.
Qed.

Lemma Returning_after_planning C W args s widest rest s1 :
  planIntervals
    (Returning.intervalIsDue C W args
       (PartialWhereClauseForTags (Returning.QueryTags args))) s
  = (Returned (widest :: rest), s1) ->
  ∃ o evs,
    Returning.WindDirectionAgg C W args s = (o, addEvents (tick s1) evs)
    ∧ queriesOf evs
      = [ {| Command := weightedSampleQuery (Returning.WindDirectionField args)
                          (Returning.WindSpeedField args)
                          (Returning.MeasurementFrom args) widest
                          (PartialWhereClauseForTags (Returning.QueryTags args));
             Database := Returning.InfluxDB args;
             RetentionPolicy := Returning.InfluxRP args |} ]
    ∧ writesOf evs = [].
Proof.
  intros Hplan. unfold Returning.WindDirectionAgg.
  rewrite (bind_run _ _ _ _ _ Hplan). rewrite now_then.
  destruct (Returning.fetchSamples W args widest
              (PartialWhereClauseForTags (Returning.QueryTags args)) (tick s1))
    as [o1 s2] eqn:Hf.
  pose proof (Returning_fetchSamples_state _ _ _ _ _ _ _ Hf) as Hs2.
  unfold mbind at 1, M_bind, bind. rewrite Hf.
  destruct o1 as [[row0|]|e|p|c]; simpl in Hs2; subst s2.
  - match goal with |- ∃ o evs, ?m ?st = _ ∧ _ =>
      destruct (m st) as [o s3] eqn:Hrest end.
    apply stateless_run in Hrest as ->.
    + eexists _, _. split; [reflexivity |]. split; reflexivity.
    + stateless_tac; first [apply stateless_bucketWeightedRow
                           | apply Returning_stateless_aggregateInterval].
  - rewrite log_then, addEvents_app. eexists _, _. split; [reflexivity |].
    split; reflexivity.
  - eexists _, _. split; [reflexivity |]. split; reflexivity.
  - eexists _, _. split; [reflexivity |]. split; reflexivity.
  - eexists _, _. split; [reflexivity |]. split; reflexivity.
Qed.

(** C4. The intervals the planning loop finds due form a subsequence of
    the enumeration 6h, 3h, 1h, 30m, 15m, 5m; the first of them is at least
    as long as every other, so that a sample inside the window of any due
    interval is inside the range [now - widest] of the sample query; and in
    each revision the one query that follows the planning is the sample
    query scoped to that first interval. *)
Theorem due_intervals_follow_the_enumeration
    (C : Collab) (W : World) (isDue : string -> M bool) s todo s1 :
  planIntervals isDue s = (Returned todo, s1) ->
  todo `sublist_of` allWindDirectionIntervals
  ∧ (∀ widest rest i, todo = widest :: rest -> i ∈ todo ->
       ∃ dw di, windDirIntervalToDuration widest = Some dw
                ∧ windDirIntervalToDuration i = Some di
                ∧ di <= dw
                ∧ ∀ now t : Time, now - di <= t -> now - dw <= t)
  ∧ (∀ widest rest Version args, todo = widest :: rest ->
       isDue = Unweighted.intervalIsDue C W args
                 (PartialWhereClauseForTags (Unweighted.Tags args)) ->
       ∃ o evs,
         Unweighted.prepareBatch C W Version args s = (o, addEvents (tick s1) evs)
         ∧ Command <$> queriesOf evs
           = [Unweighted.sampleQuery args widest
                (PartialWhereClauseForTags (Unweighted.Tags args))])
  ∧ (∀ widest rest Version args, todo = widest :: rest ->
       isDue = Weighted.intervalIsDue C W args
                 (PartialWhereClauseForTags (Weighted.Tags args)) ->
       ∃ o evs,
         Weighted.prepareBatch C W Version args s = (o, addEvents (tick s1) evs)
         ∧ Command <$> queriesOf evs
           = [weightedSampleQuery (Weighted.WindDirectionField args)
                (Weighted.WindSpeedField args) (Weighted.MeasurementFrom args)
                widest (PartialWhereClauseForTags (Weighted.Tags args))])
  ∧ (∀ widest rest args, todo = widest :: rest ->
       isDue = Returning.intervalIsDue C W args
                 (PartialWhereClauseForTags (Returning.QueryTags args)) ->
       ∃ o evs,
         Returning.WindDirectionAgg C W args s = (o, addEvents (tick s1) evs)
         ∧ Command <$> queriesOf evs
           = [weightedSampleQuery (Returning.WindDirectionField args)
                (Returning.WindSpeedField args) (Returning.MeasurementFrom args)
                widest (PartialWhereClauseForTags (Returning.QueryTags args))]).
Proof.
  intros Hplan. pose proof (planIntervals_sublist _ _ _ _ Hplan) as Hsub.
  split; [exact Hsub |]. split; [| split; [| split]].
  - intros widest rest i Htodo Hi.
    destruct (widest_first _ _ _ _ Hsub Htodo Hi) as (dw & di & Hw & Hdi & Hle).
    exists dw, di. repeat split; try done. intros now t. lia.
  - intros widest rest Version args -> ->.
    destruct (Unweighted_after_planning _ _ Version _ _ _ _ _ Hplan)
      as (o & evs & Hrun & Hq & _).
    exists o, evs. split; [done |]. by rewrite Hq.
  - intros widest rest Version args -> ->.
    destruct (Weighted_after_planning _ _ Version _ _ _ _ _ Hplan)
      as (o & evs & Hrun & Hq & _).
    exists o, evs. split; [done |]. by rewrite Hq.
  - intros widest rest args -> ->.
    destruct (Returning_after_planning _ _ _ _ _ _ _ Hplan)
      as (o & evs & Hrun & Hq & _).
    exists o, evs. split; [done |]. by rewrite Hq.
Qed.

(** ** Loops *)

Lemma forRange_invariant {A S} (I : S -> Prop) (xs : list A)
    (body : A -> S -> M S) acc s r s' :
  (∀ x a s a' s', x ∈ xs -> I a -> body x a s = (Returned a', s') -> I a') ->
  I acc -> forRange xs body acc s = (Returned r, s') -> I r.
Proof.
  revert acc s. induction xs as [|x xs IH]; intros acc s Hbody Hacc H; simpl in H.
  - by injection H as <- <-.
  - apply bind_Returned in H as (acc' & s1 & Hx & H).
    eapply IH; [| | exact H].
    + intros y a s0 a' s0' Hy. apply Hbody. by right.
    + eapply Hbody; [left | exact Hacc | exact Hx].
Qed.

Ltac inv_bind H :=
  let a := fresh "v" in
  let s1 := fresh "s" in
  let H1 := fresh "Hm" in
  apply bind_Returned in H as (a & s1 & H1 & H).

(** ** The tags of the points a run prepares *)

Lemma Unweighted_prepared_tags C W Version args s bp s' :
  Unweighted.prepareBatch C W Version args s = (Returned (Some bp), s') ->
  Forall (λ p, pt_tags p = writeTagsFor Version (Unweighted.Tags args)) bp.
Proof.
  unfold Unweighted.prepareBatch. intros H. inv_bind H.
  destruct v as [|widest rest]; [rewrite log_then in H; discriminate |].
  rewrite now_then in H. inv_bind H.
  destruct v as [row0|]; [| rewrite log_then in H; discriminate].
  inv_bind H. inv_bind H.
  destruct (influxdb_NewPoint C _); [discriminate |].
  destruct (influxdb_NewBatchPoints C _ _); [discriminate |].
  injection H as <- <-. by repeat constructor.
Qed.

Lemma Weighted_prepared_tags C W Version args s bp s' :
  Weighted.prepareBatch C W Version args s = (Returned (Some bp), s') ->
  Forall (λ p, pt_tags p = writeTagsFor Version (Weighted.Tags args)) bp.
Proof.
  unfold Weighted.prepareBatch. intros H. inv_bind H.
  destruct v as [|widest rest]; [rewrite log_then in H; discriminate |].
  rewrite now_then in H. inv_bind H.
  destruct v as [row0|]; [| rewrite log_then in H; discriminate].
  inv_bind H.
  destruct (influxdb_NewBatchPoints C _ _); [discriminate |].
  inv_bind H. injection H as <- <-.
  eapply forRange_invariant; [| | exact Hm2]; [| constructor].
  intros interval acc sa acc' sb _ Hacc Hstep.
  unfold Weighted.aggregateInterval in Hstep.
  destruct (decide _); [by injection Hstep as <- <- |].
  inv_bind Hstep. inv_bind Hstep. inv_bind Hstep.
  destruct (influxdb_NewPoint C _); [discriminate |].
  injection Hstep as <- <-. apply Forall_app. split; [done |].
  by repeat constructor.
Qed.

Lemma Returning_returned_tags C W args s pts s' :
  Returning.WindDirectionAgg C W args s = (Returned pts, s') ->
  Forall (λ p, pt_tags p = Returning.WriteTags args) pts.
Proof.
  unfold Returning.WindDirectionAgg. intros H. inv_bind H.
  destruct v as [|widest rest];
    [rewrite log_then in H; injection H as <- <-; constructor |].
  rewrite now_then in H. inv_bind H.
  destruct v as [row0|];
    [| rewrite log_then in H; injection H as <- <-; constructor].
  inv_bind H.
  eapply forRange_invariant; [| | exact H]; [| constructor].
  intros interval acc sa acc' sb _ Hacc Hstep.
  unfold Returning.aggregateInterval in Hstep.
  destruct (decide _); [by injection Hstep as <- <- |].
  inv_bind Hstep. inv_bind Hstep.
  destruct (influxdb_NewPoint C _); [discriminate |].
  injection Hstep as <- <-. apply Forall_app. split; [done |].
  by repeat constructor.
Qed.

(** C10. The tag set of a written point is the caller's tag set laid over
    the identity tag: under the key "aggregator" the caller's value wins
    when there is one, the identity stands otherwise, and every other key
    holds what the caller gave.  These are the tags of every point the
    engine prepares, and of every point [main] collects in the revision
    that returns its points. *)
Theorem caller_tags_override_identity_tag
    (Version : string) (callerTags : gmap string string) :
  writeTagsFor Version callerTags
  = callerTags ∪ {[ "aggregator" := aggregatorIdentity Version ]}
  ∧ writeTagsFor Version callerTags !! "aggregator"
    = Some (default (aggregatorIdentity Version) (callerTags !! "aggregator"))
  ∧ (∀ k, k ≠ "aggregator" ->
       writeTagsFor Version callerTags !! k = callerTags !! k)
  ∧ (∀ C W args s bp s',
       Unweighted.Tags args = callerTags ->
       Unweighted.prepareBatch C W Version args s = (Returned (Some bp), s') ->
       Forall (λ p, pt_tags p = writeTagsFor Version callerTags) bp)
  ∧ (∀ C W args s bp s',
       Weighted.Tags args = callerTags ->
       Weighted.prepareBatch C W Version args s = (Returned (Some bp), s') ->
       Forall (λ p, pt_tags p = writeTagsFor Version callerTags) bp)
  ∧ (∀ C W P F s pts s',
       Returning.WindDirectionAgg C W
         (MainReturning.aggArgs P F callerTags (writeTagsFor Version callerTags)) s
       = (Returned pts, s') ->
       Forall (λ p, pt_tags p = writeTagsFor Version callerTags) pts).
Proof.
  split; [apply writeTagsFor_union |]. split; [| split; [| split; [| split]]].
  - rewrite writeTagsFor_union, lookup_union.
    destruct (callerTags !! "aggregator") as [v|] eqn:Hc.
    + rewrite lookup_singleton_eq. done.
    + rewrite lookup_singleton_eq. done.
  - intros k Hk. rewrite writeTagsFor_union, lookup_union.
    rewrite lookup_singleton_ne by done. by destruct (callerTags !! k).
  - intros C W args s bp s' <-. apply Unweighted_prepared_tags.
  - intros C W args s bp s' <-. apply Weighted_prepared_tags.
  - intros C W P F s pts s' H. by apply Returning_returned_tags in H.
Qed.

(** ** Tag parsing in [main] (C9) *)

Lemma mainPrologue_no_tags_fatal P Version envFileName s :
  startsUp P envFileName ->
  mainPrologue P Version false envFileName "" s
  = (Exited 1,
     addEvents s [Logged (LogFatal "Failed to parse tags" "invalid tag: ")]).
Proof.
  intros (Henv & Hclient & Hping). unfold mainPrologue.
  rewrite Hclient, Hping.
  destruct (decide (envFileName = "")) as [_ | Hne]; [reflexivity |].
  destruct Henv as [? | ->]; [done | reflexivity].
Qed.

Lemma mainPrologue_no_tags_exits P Version printVersion envFileName s :
  ∃ c s', mainPrologue P Version printVersion envFileName "" s = (Exited c, s').
Proof.
  unfold mainPrologue. destruct printVersion; [by eexists _, _ |].
  destruct (decide (envFileName = "")) as [_ | Hne];
    [| destruct (godotenv_Load P envFileName); [by eexists _, _ |]];
    (destruct (influxdb_NewHTTPClient P _); [by eexists _, _ |]);
    destruct (Influx_Ping P); by eexists _, _.
Qed.

(** C9. [ParseTags] of the empty string is an error, not an empty tag
    map, although [PartialWhereClauseForTags] maps the empty map to the empty
    clause: a run of either [main] with no tag filter never gets past the
    parsing of the tags, and when its start-up succeeds it ends in
    [log.Fatalf "Failed to parse tags"] with exit status 1. *)
Theorem empty_tag_filter_fails_to_parse :
  ParseTags "" = inl "invalid tag: "
  ∧ PartialWhereClauseForTags ∅ = ""
  ∧ (∀ C W P Version F s,
       MainUnweighted.tags F = "" ->
       ∃ c s', MainUnweighted.main C W P Version F s = (Exited c, s'))
  ∧ (∀ C W P Version F s,
       MainReturning.tags F = "" ->
       ∃ c s', MainReturning.main C W P Version F s = (Exited c, s'))
  ∧ (∀ C W P Version F s,
       MainUnweighted.tags F = "" -> MainUnweighted.version F = false ->
       startsUp P (MainUnweighted.env F) ->
       MainUnweighted.main C W P Version F s
       = (Exited 1,
          addEvents s [Logged (LogFatal "Failed to parse tags" "invalid tag: ")]))
  ∧ (∀ C W P Version F s,
       MainReturning.tags F = "" -> MainReturning.version F = false ->
       startsUp P (MainReturning.env F) ->
       MainReturning.main C W P Version F s
       = (Exited 1,
          addEvents s [Logged (LogFatal "Failed to parse tags" "invalid tag: ")])).
Proof.
  split; [reflexivity |]. split; [reflexivity |].
  split; [| split; [| split]].
  - intros C W P Version F s Ht. unfold MainUnweighted.main. rewrite Ht.
    destruct (mainPrologue_no_tags_exits P Version (MainUnweighted.version F)
                (MainUnweighted.env F) s) as (c & s' & H).
    exists c, s'. by apply bind_Exited.
  - intros C W P Version F s Ht. unfold MainReturning.main. rewrite Ht.
    destruct (mainPrologue_no_tags_exits P Version (MainReturning.version F)
                (MainReturning.env F) s) as (c & s' & H).
    exists c, s'. by apply bind_Exited.
  - intros C W P Version F s Ht Hv Hs. unfold MainUnweighted.main.
    rewrite Ht, Hv. apply bind_Exited. by apply mainPrologue_no_tags_fatal.
  - intros C W P Version F s Ht Hv Hs. unfold MainReturning.main.
    rewrite Ht, Hv. apply bind_Exited. by apply mainPrologue_no_tags_fatal.
Qed.

(** ** The reference timestamp (C3) *)


(** ** The write at the end of a run (C6) *)

Lemma retry_Do_all_fail W bp n errs s :
  everyWriteFails W ->
  ∃ errs',
    retry_Do (Influx_Write_call W bp) n errs s
    = (Returned (Some errs'),
       {| trace := trace s ++ replicate n (Wrote bp);
          ticks := ticks s; attempts := attempts s + n |})
    ∧ length errs' = (length errs + n)%nat.
Proof.
  intros Hfail. revert errs s. induction n as [|n IH]; intros errs s; simpl.
  - exists errs. destruct s; simpl. rewrite app_nil_r, Nat.add_0_r. split; [done | lia].
  - unfold mbind, M_bind, bind, Influx_Write_call at 1.
    destruct (Influx_Write W (attempts s) bp) as [e|] eqn:Hw;
      [| by apply Hfail in Hw].
    destruct (IH (errs ++ [e])
                {| trace := trace s ++ [Wrote bp]; ticks := ticks s;
                   attempts := S (attempts s) |}) as (errs' & Hrun & Hlen).
    exists errs'. rewrite Hrun. simpl. split.
    + f_equal. f_equal; [by rewrite <- app_assoc | lia].
    + rewrite length_app in Hlen. simpl in Hlen. lia.
Qed.

Lemma writeBatch_all_fail W retries bp s :
  everyWriteFails W ->
  ∃ errs, writeBatch W retries bp s
          = (Returned tt, afterFailedWrites s retries bp errs)
          ∧ length errs = retries.
Proof.
  intros Hfail.
  destruct (retry_Do_all_fail W bp retries [] s Hfail) as (errs & Hrun & Hlen).
  exists errs. split; [| done].
  unfold writeBatch. rewrite (bind_run _ _ _ _ _ Hrun).
  unfold log_Printf, emit, afterFailedWrites. simpl. by rewrite <- app_assoc.
Qed.

(** C6. When every attempt to write the batch fails, a run that has
    prepared its batch makes the attempts of the retry budget, logs the
    failure and returns nil; and [main] of the revision that writes in
    [main] does the same and returns, which is a successful exit. *)
Theorem exhausted_write_retries_are_not_fatal (C : Collab) (W : World) :
  everyWriteFails W ->
  (∀ Version args s bp s1,
     Unweighted.prepareBatch C W Version args s = (Returned (Some bp), s1) ->
     ∃ errs,
       Unweighted.WindDirectionAgg C W Version args s
       = (Returned tt,
          afterFailedWrites s1 (Unweighted.InfluxWriteRetries args) bp errs)
       ∧ length errs = Unweighted.InfluxWriteRetries args)
  ∧ (∀ Version args s bp s1,
       Weighted.prepareBatch C W Version args s = (Returned (Some bp), s1) ->
       ∃ errs,
         Weighted.WindDirectionAgg C W Version args s
         = (Returned tt,
            afterFailedWrites s1 (Weighted.InfluxWriteRetries args) bp errs)
         ∧ length errs = Weighted.InfluxWriteRetries args)
  ∧ (∀ P Version F s qTags s1 points s2,
       mainPrologue P Version (MainReturning.version F) (MainReturning.env F)
         (MainReturning.tags F) s = (Returned qTags, s1) ->
       MainReturning.collectPoints C W P Version F qTags s1
       = (Returned points, s2) ->
       points ≠ [] ->
       influxdb_NewBatchPoints C (os_Getenv P "INFLUX_DB") (os_Getenv P "INFLUX_RP")
       = None ->
       ∃ errs,
         MainReturning.main C W P Version F s
         = (Returned tt, afterFailedWrites s2 influxWriteRetries points errs)
         ∧ length errs = influxWriteRetries)
  ∧ (∀ P Version F s parsed s1 bp s2,
       mainPrologue P Version (MainUnweighted.version F) (MainUnweighted.env F)
         (MainUnweighted.tags F) s = (Returned parsed, s1) ->
       MainUnweighted.wind_dir_field F ≠ "" ->
       Unweighted.prepareBatch C W Version (MainUnweighted.aggArgs P F parsed) s1
       = (Returned (Some bp), s2) ->
       ∃ errs,
         MainUnweighted.main C W P Version F s
         = (Returned tt, afterFailedWrites s2 influxWriteRetries bp errs)).
Proof.
  intros Hfail. split; [| split; [| split]].
  - intros Version args s bp s1 Hprep.
    destruct (writeBatch_all_fail W (Unweighted.InfluxWriteRetries args) bp s1 Hfail)
      as (errs & Hw & Hlen).
    exists errs. split; [| done]. unfold Unweighted.WindDirectionAgg.
    by rewrite (bind_run _ _ _ _ _ Hprep).
  - intros Version args s bp s1 Hprep.
    destruct (writeBatch_all_fail W (Weighted.InfluxWriteRetries args) bp s1 Hfail)
      as (errs & Hw & Hlen).
    exists errs. split; [| done]. unfold Weighted.WindDirectionAgg.
    by rewrite (bind_run _ _ _ _ _ Hprep).
  - intros P Version F s qTags s1 points s2 Hpro Hcol Hne Hbatch.
    destruct (writeBatch_all_fail W influxWriteRetries points s2 Hfail)
      as (errs & Hw & Hlen).
    exists errs. split; [| done]. unfold MainReturning.main.
    rewrite (bind_run _ _ _ _ _ Hpro), (bind_run _ _ _ _ _ Hcol).
    unfold MainReturning.writePoints. rewrite Hbatch.
    destruct (decide (length points = 0%nat)) as [Hz | _]; [| done].
    by apply length_zero_iff_nil in Hz.
  - intros P Version F s parsed s1 bp s2 Hpro Hfield Hprep.
    destruct (writeBatch_all_fail W influxWriteRetries bp s2 Hfail)
      as (errs & Hw & Hlen).
    exists errs. unfold MainUnweighted.main.
    rewrite (bind_run _ _ _ _ _ Hpro).
    destruct (decide _) as [? | _]; [done |].
    unfold onError, Unweighted.WindDirectionAgg.
    rewrite (bind_run _ _ _ _ _ Hprep).
    change (Unweighted.InfluxWriteRetries (MainUnweighted.aggArgs P F parsed))
      with influxWriteRetries.
    by rewrite Hw.
Qed.

(** ** The staleness rule (C2) *)

Lemma Time_Sub_cases (now t : Z) :
  (minDuration <= now - t <= maxDuration ∧ Time_Sub now t = now - t)
  ∨ (now - t < minDuration ∧ Time_Sub now t = minDuration)
  ∨ (maxDuration < now - t ∧ Time_Sub now t = maxDuration).
Proof.
  unfold Time_Sub. cbv zeta.
  assert (minDuration < 0 < maxDuration) by (by vm_compute).
  destruct (Z.leb_spec minDuration (now - t)), (Z.leb_spec (now - t) maxDuration);
    simpl; destruct (Z.ltb_spec now t); lia.
Qed.

Lemma Time_Sub_gt (now t m : Z) :
  minDuration <= m < maxDuration ->
  (m <? Time_Sub now t) = bool_decide (m < now - t).
Proof.
  intros Hm. destruct (Time_Sub_cases now t) as [[? ->] | [[? ->] | [? ->]]];
    case_bool_decide; destruct (Z.ltb_spec m (now - t)); try done;
    repeat match goal with
           | |- (?a <? ?b) = _ => destruct (Z.ltb_spec a b)
           end; first [done | lia].
Qed.

Lemma Time_Sub_le (now t d : Z) :
  minDuration <= d < maxDuration ->
  (Time_Sub now t <=? d) = bool_decide (now - t <= d).
Proof.
  intros Hm. destruct (Time_Sub_cases now t) as [[? ->] | [[? ->] | [? ->]]];
    case_bool_decide;
    repeat match goal with
           | |- (?a <=? ?b) = _ => destruct (Z.leb_spec a b)
           end; first [done | lia].
Qed.

Lemma queryChecked_run W cmd db rp s resp :
  Influx_Query W {| Command := cmd; Database := db; RetentionPolicy := rp |}
  = QueryResponse resp ->
  Err resp = "" ->
  queryChecked W cmd db rp s
  = (Returned resp,
     addEvents s [Queried {| Command := cmd; Database := db; RetentionPolicy := rp |}]).
Proof.
  intros Hq He. unfold queryChecked, Influx_Query_call.
  unfold mbind, M_bind, bind. simpl. rewrite Hq.
  destruct (decide (Err resp = "")); done.
Qed.

Lemma queryChecked_inv W cmd db rp s resp s' :
  queryChecked W cmd db rp s = (Returned resp, s') ->
  Influx_Query W {| Command := cmd; Database := db; RetentionPolicy := rp |}
  = QueryResponse resp
  ∧ Err resp = ""
  ∧ s' = addEvents s
           [Queried {| Command := cmd; Database := db; RetentionPolicy := rp |}].
Proof.
  intros H. pose proof (queryChecked_state _ _ _ _ _ _ _ H) as Hs.
  split; [| split; [| done]]; unfold queryChecked, Influx_Query_call in H;
    unfold mbind, M_bind, bind in H; simpl in H;
    destruct (Influx_Query W _) as [msg | r]; try discriminate;
    destruct (decide (Err r = "")); try discriminate; by injection H as <- _.
Qed.

Lemma singleSeries_inv r s o s' :
  singleSeries r s = (Returned o, s') ->
  match o with
  | None => Results r = [] ∨ ∃ res0 rest, Results r = res0 :: rest ∧ Series res0 = []
  | Some row0 =>
      Results r = [ {| Series := [row0] |} ] ∧ Columns row0 !! 0%nat = Some "time"
  end.
Proof.
  unfold singleSeries. destruct (Results r) as [|res0 rest] eqn:Hr.
  { intros H. injection H as <- _. by left. }
  destruct (Series res0) as [|row0 more] eqn:Hs.
  { intros H. injection H as <- _. right. by exists res0, rest. }
  destruct rest as [|? ?]; [| discriminate]. simpl.
  destruct more as [|? ?]; [| discriminate]. simpl.
  unfold index. destruct (Columns row0 !! 0%nat) as [c0|] eqn:Hc; [| discriminate].
  unfold mbind, M_bind, bind. simpl.
  destruct (decide (c0 = "time")) as [-> |]; [| discriminate].
  intros H. injection H as <- _. destruct res0 as [ser]. simpl in Hs. by subst.
Qed.

Lemma singleSeries_none r s :
  (Results r = [] ∨ ∃ res0 rest, Results r = res0 :: rest ∧ Series res0 = []) ->
  singleSeries r s = (Returned None, s).
Proof.
  unfold singleSeries. intros [-> | (res0 & rest & -> & ->)]; done.
Qed.

Lemma singleSeries_some r s row0 :
  Results r = [ {| Series := [row0] |} ] -> Columns row0 !! 0%nat = Some "time" ->
  singleSeries r s = (Returned (Some row0), s).
Proof.
  unfold singleSeries. intros -> Hc. simpl. unfold index. rewrite Hc.
  unfold mbind, M_bind, bind. simpl. reflexivity.
Qed.

Lemma ret_inv {A} (a b : A) s s' : ret a s = (Returned b, s') -> a = b ∧ s' = s.
Proof. unfold ret. intros H. by injection H as -> ->. Qed.

Lemma index_inv {A} (l : list A) i s v s' :
  index l i s = (Returned v, s') -> l !! i = Some v ∧ s' = s.
Proof.
  unfold index. destruct (l !! i); [| discriminate].
  intros H. apply ret_inv in H as [-> ->]. done.
Qed.

Lemma assertString_inv c s x s' :
  assertString c s = (Returned x, s') -> c = CString x ∧ s' = s.
Proof. destruct c; try discriminate. intros H. apply ret_inv in H as [-> ->]. done. Qed.

Lemma assertNumber_inv c s x s' :
  assertNumber c s = (Returned x, s') -> c = CNumber x ∧ s' = s.
Proof. destruct c; try discriminate. intros H. apply ret_inv in H as [-> ->]. done. Qed.

Lemma lookupOrPanic_inv {A} interval (o : option A) s a s' :
  lookupOrPanic interval o s = (Returned a, s') -> o = Some a ∧ s' = s.
Proof. destruct o; [| discriminate]. intros H. apply ret_inv in H as [-> ->]. done. Qed.

Lemma parseTimeCell_inv C c s t s' :
  parseTimeCell C c s = (Returned t, s') ->
  ∃ text, c = CString text ∧ time_Parse_RFC3339 C text = Some t ∧ s' = s.
Proof.
  unfold parseTimeCell. intros H. inv_bind H.
  apply assertString_inv in Hm as [-> ->].
  destruct (time_Parse_RFC3339 C v) eqn:Hp; [| discriminate].
  apply ret_inv in H as [-> ->]. eauto.
Qed.

Lemma parseNumberCell_inv C mk c s f s' :
  parseNumberCell C mk c s = (Returned f, s') ->
  ∃ lit, c = CNumber lit ∧ Number_Float64 C lit = Some f ∧ s' = s.
Proof.
  unfold parseNumberCell. intros H. inv_bind H.
  apply assertNumber_inv in Hm as [-> ->].
  destruct (Number_Float64 C v) eqn:Hp; [| discriminate].
  apply ret_inv in H as [-> ->]. eauto.
Qed.

Section Staleness.
Variable C : Collab.
Variable W : World.
Variables resultFieldName measurementTo interval tagsWhere db rp : string.

Local Abbreviation probe :=
  (stalenessProbe resultFieldName measurementTo interval tagsWhere db rp).
Local Abbreviation latest :=
  (latestAggregateTime C W resultFieldName measurementTo interval tagsWhere db rp).

Lemma latest_none s :
  noPriorPoint (Influx_Query W probe) -> latest s = (Returned None, afterProbe s probe).
Proof.
  intros (resp & Hq & He & Hshape). unfold latestAggregateTime.
  rewrite log_then.
  rewrite (bind_run _ _ _ _ _ (queryChecked_run W _ _ _ _ _ Hq He)).
  rewrite (bind_run _ _ _ _ _ (singleSeries_none _ _ Hshape)).
  unfold afterProbe. by rewrite addEvents_app.
Qed.

Lemma latest_some s t :
  priorPointAt C (Influx_Query W probe) t ->
  latest s = (Returned (Some t), afterProbe s probe).
Proof.
  intros (resp & row0 & v0 & text & Hq & He & Hres & Hcol & Hv & Hc & Hp).
  unfold latestAggregateTime. rewrite log_then.
  rewrite (bind_run _ _ _ _ _ (queryChecked_run W _ _ _ _ _ Hq He)).
  rewrite (bind_run _ _ _ _ _ (singleSeries_some _ _ _ Hres Hcol)).
  unfold index. rewrite Hv. unfold mbind at 1, M_bind, bind, ret. simpl.
  rewrite Hc. unfold mbind, M_bind, bind, ret. simpl.
  rewrite Hp. unfold afterProbe. by rewrite addEvents_app.
Qed.

Lemma latest_inv s o s' :
  latest s = (Returned o, s') ->
  s' = afterProbe s probe
  ∧ match o with
    | None => noPriorPoint (Influx_Query W probe)
    | Some t => priorPointAt C (Influx_Query W probe) t
    end.
Proof.
  unfold latestAggregateTime. rewrite log_then. intros H.
  inv_bind H. apply queryChecked_inv in Hm as (Hq & He & ->).
  inv_bind H. pose proof (stateless_run _ _ _ _ (stateless_singleSeries _) Hm) as ->.
  apply singleSeries_inv in Hm. rewrite addEvents_app in H.
  destruct v0 as [row0|].
  - destruct Hm as [Hres Hcol]. inv_bind H. inv_bind H. inv_bind H.
    apply index_inv in Hm as [Hv ->]. apply index_inv in Hm0 as [Hc ->].
    apply assertString_inv in Hm1 as [-> ->].
    destruct (time_Parse_RFC3339 C _) as [t|] eqn:Hp; [| discriminate].
    apply ret_inv in H as [<- ->]. split; [done |].
    by eexists v, row0, _, _.
  - apply ret_inv in H as [<- ->]. split; [done |]. by exists v.
Qed.

Lemma prior_point_exclusive t :
  noPriorPoint (Influx_Query W probe) -> priorPointAt C (Influx_Query W probe) t -> False.
Proof.
  intros (resp & Hq & _ & Hshape) (resp' & row0 & v0 & text & Hq' & _ & Hres & _).
  rewrite Hq in Hq'. injection Hq' as <-. rewrite Hres in Hshape.
  destruct Hshape as [? | (res0 & rest & Heq & Hs)]; [done |].
  injection Heq as <- <-. done.
Qed.

Lemma prior_point_functional t t' :
  priorPointAt C (Influx_Query W probe) t ->
  priorPointAt C (Influx_Query W probe) t' -> t = t'.
Proof.
  intros (resp & row0 & v0 & text & Hq & _ & Hres & _ & Hv & Hc & Hp)
         (resp' & row0' & v0' & text' & Hq' & _ & Hres' & _ & Hv' & Hc' & Hp').
  rewrite Hq in Hq'. injection Hq' as <-. rewrite Hres in Hres'.
  injection Hres' as <-. rewrite Hv in Hv'. injection Hv' as <-.
  rewrite Hc in Hc'. injection Hc' as <-. congruence.
Qed.

End Staleness.

Lemma stalenessRule_intro C W (isDue : M bool) f to interval tw db rp ref maxAge :
  let probe := stalenessProbe f to interval tw db rp in
  (∀ s, noPriorPoint (Influx_Query W probe) ->
        isDue s = (Returned true, afterProbe s probe)) ->
  (∀ s t, priorPointAt C (Influx_Query W probe) t ->
          isDue s = (Returned (bool_decide (maxAge < clock W (ticks s) - ref t)),
                     tick (afterProbe s probe))) ->
  (∀ s due s', isDue s = (Returned due, s') ->
               noPriorPoint (Influx_Query W probe)
               ∨ ∃ t, priorPointAt C (Influx_Query W probe) t) ->
  stalenessRule C W isDue probe ref maxAge.
Proof.
  intros probe H1 H2 Hinv s. split; [apply H1 |]. split; [apply H2 |].
  intros due s' Hrun. destruct (Hinv _ _ _ Hrun) as [Hn | [t Ht]].
  - rewrite (H1 _ Hn) in Hrun. injection Hrun as <- _. split; auto.
  - rewrite (H2 _ _ Ht) in Hrun. injection Hrun as <- _. split.
    + intros Hd. apply bool_decide_eq_true in Hd. right. eauto.
    + intros [Hn | (t' & Ht' & Hlt)].
      * destruct (prior_point_exclusive _ _ _ _ _ _ _ _ _ Hn Ht).
      * rewrite (prior_point_functional _ _ _ _ _ _ _ _ _ _ Ht Ht').
        by apply bool_decide_eq_true.
Qed.

Lemma Unweighted_stalenessRule C W args tagsWhere interval maxAge :
  Unweighted.maxTimeBetweenAggsForWindDirInterval interval = Some maxAge ->
  minDuration <= maxAge < maxDuration ->
  stalenessRule C W (Unweighted.intervalIsDue C W args tagsWhere interval)
    (stalenessProbe (Unweighted.wdMeanResultFieldName args interval)
       (Unweighted.MeasurementTo args) interval tagsWhere
       (Unweighted.InfluxDB args) (Unweighted.InfluxRP args))
    (Unweighted.stalenessReference interval) maxAge.
Proof.
  intros Hmax Hrange. apply stalenessRule_intro.
  - intros s Hn. unfold Unweighted.intervalIsDue.
    by rewrite (bind_run _ _ _ _ _ (latest_none _ _ _ _ _ _ _ _ _ Hn)).
  - intros s t Ht. unfold Unweighted.intervalIsDue.
    rewrite (bind_run _ _ _ _ _ (latest_some _ _ _ _ _ _ _ _ _ _ Ht)).
    unfold time_Since. rewrite Hmax.
    unfold mbind, M_bind, bind, ret, time_Now, lookupOrPanic. simpl.
    by rewrite Time_Sub_gt.
  - intros s due s' H. unfold Unweighted.intervalIsDue in H. inv_bind H.
    apply latest_inv in Hm as [_ Hm]. destruct v; eauto.
Qed.

Lemma midpoint_stalenessRule C W maxTime f to tagsWhere db rp interval d maxAge :
  windDirIntervalToDuration interval = Some d ->
  maxTime interval = Some maxAge ->
  minDuration <= maxAge < maxDuration ->
  stalenessRule C W (midpointIsDue C W maxTime f to tagsWhere db rp interval)
    (stalenessProbe f to interval tagsWhere db rp)
    (λ t, t + go_div d 2) maxAge.
Proof.
  intros Hd Hmax Hrange. apply stalenessRule_intro.
  - intros s Hn. unfold midpointIsDue.
    by rewrite (bind_run _ _ _ _ _ (latest_none _ _ _ _ _ _ _ _ _ Hn)).
  - intros s t Ht. unfold midpointIsDue.
    rewrite (bind_run _ _ _ _ _ (latest_some _ _ _ _ _ _ _ _ _ _ Ht)).
    unfold time_Since, midpointReference. rewrite Hd, Hmax.
    unfold mbind, M_bind, bind, ret, time_Now, lookupOrPanic, Time_Add. simpl.
    by rewrite Time_Sub_gt.
  - intros s due s' H. unfold midpointIsDue in H. inv_bind H.
    apply latest_inv in Hm as [_ Hm]. destruct v; eauto.
Qed.

Lemma Unweighted_maxTime_known interval :
  interval ∈ allWindDirectionIntervals ->
  ∃ m, Unweighted.maxTimeBetweenAggsForWindDirInterval interval = Some m
       ∧ minDuration <= m < maxDuration.
Proof.
  revert interval. apply interval_cases; eexists; (split; [reflexivity |]);
    by vm_compute.
Qed.

Lemma Weighted_maxTime_known interval :
  interval ∈ allWindDirectionIntervals ->
  ∃ m, Weighted.maxTimeBetweenAggsForWindDirInterval interval = Some m
       ∧ minDuration <= m < maxDuration.
Proof.
  revert interval. apply interval_cases; eexists; (split; [reflexivity |]);
    by vm_compute.
Qed.

Lemma Returning_maxTime_known interval :
  interval ∈ allWindDirectionIntervals ->
  ∃ m, Returning.maxTimeBetweenAggsForWindDirInterval interval = Some m
       ∧ minDuration <= m < maxDuration.
Proof.
  revert interval. apply interval_cases; eexists; (split; [reflexivity |]);
    by vm_compute.
Qed.

(** C2, as amended.  For every interval of the enumeration and in every
    revision, the staleness check marks the interval due exactly when the
    store holds no prior aggregate inside the interval, or more than the
    interval's maximum staleness has passed since the reference instant of
    the most recent one (its stamp in the unweighted revision, its stamp
    plus half the interval in the weighted ones).  The maximum staleness
    of the 5-minute interval is 2m30s in the unweighted and the weighted
    revision and 1 minute in the revision that returns its points; in all
    three a 5-minute point whose reference is 3 minutes old is due and one
    whose reference is 1 minute old is not. *)
Theorem staleness_rule_per_revision (C : Collab) (W : World) :
  (∀ interval, interval ∈ allWindDirectionIntervals ->
     ∃ d uMax wMax rMax,
       windDirIntervalToDuration interval = Some d
       ∧ Unweighted.maxTimeBetweenAggsForWindDirInterval interval = Some uMax
       ∧ Weighted.maxTimeBetweenAggsForWindDirInterval interval = Some wMax
       ∧ Returning.maxTimeBetweenAggsForWindDirInterval interval = Some rMax
       ∧ (∀ args tagsWhere,
            stalenessRule C W (Unweighted.intervalIsDue C W args tagsWhere interval)
              (Unweighted_probe args tagsWhere interval)
              (Unweighted.stalenessReference interval) uMax)
       ∧ (∀ args tagsWhere,
            stalenessRule C W (Weighted.intervalIsDue C W args tagsWhere interval)
              (Weighted_probe args tagsWhere interval)
              (λ t, t + go_div d 2) wMax)
       ∧ (∀ args tagsWhere,
            stalenessRule C W (Returning.intervalIsDue C W args tagsWhere interval)
              (Returning_probe args tagsWhere interval)
              (λ t, t + go_div d 2) rMax))
  ∧ Unweighted.maxTimeBetweenAggsForWindDirInterval wdInterval5m
    = Some (2 * Minute + 30 * Second)
  ∧ Weighted.maxTimeBetweenAggsForWindDirInterval wdInterval5m
    = Some (2 * Minute + 30 * Second)
  ∧ Returning.maxTimeBetweenAggsForWindDirInterval wdInterval5m = Some (1 * Minute)
  ∧ (∀ (age : Duration) (due : bool),
       (age = 3 * Minute ∧ due = true) ∨ (age = 1 * Minute ∧ due = false) ->
       (∀ args tagsWhere s t,
          priorPointAt C (Influx_Query W (Unweighted_probe args tagsWhere wdInterval5m)) t ->
          clock W (ticks s) - t = age ->
          (Unweighted.intervalIsDue C W args tagsWhere wdInterval5m s).1 = Returned due)
       ∧ (∀ args tagsWhere s t,
            priorPointAt C (Influx_Query W (Weighted_probe args tagsWhere wdInterval5m)) t ->
            clock W (ticks s) - (t + go_div (5 * Minute) 2) = age ->
            (Weighted.intervalIsDue C W args tagsWhere wdInterval5m s).1 = Returned due)
       ∧ (∀ args tagsWhere s t,
            priorPointAt C (Influx_Query W (Returning_probe args tagsWhere wdInterval5m)) t ->
            clock W (ticks s) - (t + go_div (5 * Minute) 2) = age ->
            (Returning.intervalIsDue C W args tagsWhere wdInterval5m s).1 = Returned due)).
Proof.
  assert (Hall : ∀ interval, interval ∈ allWindDirectionIntervals ->
     ∃ d uMax wMax rMax,
       windDirIntervalToDuration interval = Some d
       ∧ Unweighted.maxTimeBetweenAggsForWindDirInterval interval = Some uMax
       ∧ Weighted.maxTimeBetweenAggsForWindDirInterval interval = Some wMax
       ∧ Returning.maxTimeBetweenAggsForWindDirInterval interval = Some rMax
       ∧ (∀ args tagsWhere,
            stalenessRule C W (Unweighted.intervalIsDue C W args tagsWhere interval)
              (Unweighted_probe args tagsWhere interval)
              (Unweighted.stalenessReference interval) uMax)
       ∧ (∀ args tagsWhere,
            stalenessRule C W (Weighted.intervalIsDue C W args tagsWhere interval)
              (Weighted_probe args tagsWhere interval)
              (λ t, t + go_div d 2) wMax)
       ∧ (∀ args tagsWhere,
            stalenessRule C W (Returning.intervalIsDue C W args tagsWhere interval)
              (Returning_probe args tagsWhere interval)
              (λ t, t + go_div d 2) rMax)).
  { intros interval Hin.
    destruct (duration_known _ Hin) as (d & Hd & _).
    destruct (Unweighted_maxTime_known _ Hin) as (uMax & Hu & Hur).
    destruct (Weighted_maxTime_known _ Hin) as (wMax & Hw & Hwr).
    destruct (Returning_maxTime_known _ Hin) as (rMax & Hr & Hrr).
    exists d, uMax, wMax, rMax. do 4 (split; [done |]). split; [| split].
    - intros args tagsWhere. by apply Unweighted_stalenessRule.
    - intros args tagsWhere. by apply midpoint_stalenessRule.
    - intros args tagsWhere. by apply midpoint_stalenessRule. }
  split; [exact Hall |]. do 3 (split; [reflexivity |]).
  assert (H5 : wdInterval5m ∈ allWindDirectionIntervals)
    by (unfold allWindDirectionIntervals; rewrite !elem_of_cons; auto 10).
  destruct (Hall _ H5) as (d & uMax & wMax & rMax & Hd & Hu & Hw & Hr & Ru & Rw & Rr).
  injection Hd as <-. injection Hu as <-. injection Hw as <-. injection Hr as <-.
  intros age due Hcase. split; [| split].
  - intros args tagsWhere s t Ht Hage.
    destruct (Ru args tagsWhere s) as (_ & Hrun & _).
    rewrite (Hrun _ Ht). unfold Unweighted.stalenessReference. rewrite Hage.
    by destruct Hcase as [[-> ->] | [-> ->]].
  - intros args tagsWhere s t Ht Hage.
    destruct (Rw args tagsWhere s) as (_ & Hrun & _).
    rewrite (Hrun _ Ht). simpl. rewrite Hage.
    by destruct Hcase as [[-> ->] | [-> ->]].
  - intros args tagsWhere s t Ht Hage.
    destruct (Rr args tagsWhere s) as (_ & Hrun & _).
    rewrite (Hrun _ Ht). simpl. rewrite Hage.
    by destruct Hcase as [[-> ->] | [-> ->]].
Qed.

(** ** The buckets (C5) *)

Lemma offer_loop {A} (now t : Time) (x : A) todo acc s data s' :
  NoDup todo ->
  forRange todo
    (λ interval data,
       d ← lookupOrPanic interval (windDirIntervalToDuration interval);
       ret (if Time_Sub now t <=? d
            then <[interval := default [] (data !! interval) ++ [x]]> data
            else data))
    acc s = (Returned data, s') ->
  ∀ i, data !! i = offered now todo (t, x) acc i.
Proof.
  revert acc s. induction todo as [|j rest IH]; intros acc s Hnd H i; simpl in H.
  - apply ret_inv in H as [<- _]. unfold offered.
    destruct (decide (i ∈ [])) as [Hi|]; [by apply elem_of_nil in Hi | done].
  - apply NoDup_cons in Hnd as [Hj Hnd]. inv_bind H. inv_bind Hm.
    apply lookupOrPanic_inv in Hm0 as [Hd ->]. apply ret_inv in Hm as [<- ->].
    rewrite (IH _ _ Hnd H i). unfold offered. simpl.
    destruct (decide (i = j)) as [-> | Hij].
    + destruct (decide (j ∈ rest)); [done |].
      destruct (decide (j ∈ j :: rest)) as [_ | Hn]; [| by destruct Hn; left].
      rewrite Hd. destruct (Time_Sub now t <=? v0); [| done].
      by rewrite lookup_insert_eq.
    + assert (Hlook : (if Time_Sub now t <=? v0
                       then <[j := default [] (acc !! j) ++ [x]]> acc
                       else acc) !! i = acc !! i).
      { destruct (_ <=? _); [by rewrite lookup_insert_ne | done]. }
      rewrite Hlook.
      destruct (decide (i ∈ rest)) as [Hr | Hr];
        destruct (decide (i ∈ j :: rest)) as [Hc | Hc]; try done.
      * destruct Hc. by right.
      * apply elem_of_cons in Hc as [? | ?]; done.
Qed.

Lemma emptyBuckets_lookup {A} (todo : list string) (m : gmap string (list A)) i :
  foldl (λ m interval, <[interval := []]> m) m todo !! i
  = if decide (i ∈ todo) then Some [] else m !! i.
Proof.
  revert m. induction todo as [|j rest IH]; intros m; simpl.
  - destruct (decide (i ∈ [])) as [Hi|]; [by apply elem_of_nil in Hi | done].
  - rewrite IH. destruct (decide (i ∈ rest)) as [Hr | Hr].
    + destruct (decide (i ∈ j :: rest)) as [_ | Hn]; [done | by destruct Hn; right].
    + destruct (decide (i = j)) as [-> | Hij].
      * rewrite lookup_insert_eq.
        destruct (decide (j ∈ j :: rest)) as [_ | Hn]; [done | by destruct Hn; left].
      * rewrite lookup_insert_ne by done.
        destruct (decide (i ∈ j :: rest)) as [Hc | _]; [| done].
        apply elem_of_cons in Hc as [? | ?]; done.
Qed.

(** The loop over the rows, for any body that parses a row to a sample
    and offers it to the buckets. *)
Lemma rows_loop {A} (R : list cell -> Time * A -> Prop)
    (body : list cell -> gmap string (list A) -> M (gmap string (list A)))
    (now : Time) (todo : list string) :
  todo ⊆ allWindDirectionIntervals ->
  (∀ row acc s data s', body row acc s = (Returned data, s') ->
     ∃ smp, R row smp ∧ ∀ i, data !! i = offered now todo smp acc i) ->
  ∀ rows acc s data s',
    forRange rows body acc s = (Returned data, s') ->
    (∀ i, i ∈ todo -> is_Some (acc !! i)) ->
    ∃ samples,
      Forall2 R rows samples
      ∧ ∀ i, i ∈ todo ->
          ∃ d, windDirIntervalToDuration i = Some d
               ∧ data !! i = Some (default [] (acc !! i) ++ bucketOf now d samples).
Proof.
  intros Hsub Hbody rows. induction rows as [|row rows IH];
    intros acc s data s' H Hacc; simpl in H.
  - apply ret_inv in H as [<- _]. exists []. split; [constructor |].
    intros i Hi. destruct (duration_known i (Hsub _ Hi)) as (d & Hd & _).
    exists d. split; [done |]. destruct (Hacc _ Hi) as [l Hl].
    rewrite Hl. simpl. by rewrite app_nil_r.
  - inv_bind H. destruct (Hbody _ _ _ _ _ Hm) as (smp & Hsmp & Hoff).
    destruct (IH _ _ _ _ H) as (samples & Hsamples & Hdata).
    { intros i Hi. rewrite Hoff. unfold offered.
      destruct (decide (i ∈ todo)); [| done].
      destruct (windDirIntervalToDuration i); [| by apply Hacc].
      destruct (_ <=? _); [done | by apply Hacc]. }
    exists (smp :: samples). split; [by constructor |].
    intros i Hi. destruct (Hdata _ Hi) as (d & Hd & Hlook).
    exists d. split; [done |]. rewrite Hlook, Hoff. unfold offered.
    destruct (decide (i ∈ todo)); [| done]. rewrite Hd.
    destruct (duration_known i (Hsub _ Hi)) as (d' & Hd' & Hrange).
    rewrite Hd in Hd'. injection Hd' as <-.
    assert (minDuration <= d < maxDuration) as Hr.
    { assert (minDuration < 0 ∧ 6 * Hour < maxDuration) by (by vm_compute).
      assert (0 <= 5 * Minute) by (by vm_compute). lia. }
    rewrite (Time_Sub_le _ _ _ Hr). unfold bucketOf.
    destruct (Hacc _ Hi) as [l Hl]. rewrite Hl. simpl.
    case_bool_decide as Hage.
    + rewrite filter_cons_True by done. simpl. by rewrite <- app_assoc.
    + by rewrite filter_cons_False by done.
Qed.

Lemma Unweighted_bucketRow_inv C now todo row acc s data s' :
  NoDup todo ->
  Unweighted.bucketRow C now todo row acc s = (Returned data, s') ->
  ∃ smp, unweightedRowSample C row smp
         ∧ ∀ i, data !! i = offered now todo smp acc i.
Proof.
  intros Hnd H. unfold Unweighted.bucketRow in H.
  inv_bind H. inv_bind H. inv_bind H. inv_bind H.
  apply index_inv in Hm as [Hc0 ->].
  apply parseTimeCell_inv in Hm0 as (text & -> & Ht & ->).
  apply index_inv in Hm1 as [Hc1 ->].
  apply parseNumberCell_inv in Hm2 as (lit & -> & Hf & ->).
  exists (v0, Clamped C v2). split.
  - by exists text, lit, v2.
  - by apply (offer_loop now v0 (Clamped C v2) todo acc s data s').
Qed.

Lemma bucketWeightedRow_inv C now todo row acc s data s' :
  NoDup todo ->
  bucketWeightedRow C now todo row acc s = (Returned data, s') ->
  ∃ smp, weightedRowSample C row smp
         ∧ ∀ i, data !! i = offered now todo smp acc i.
Proof.
  intros Hnd H. unfold bucketWeightedRow in H.
  inv_bind H. inv_bind H. inv_bind H. inv_bind H. inv_bind H. inv_bind H.
  apply index_inv in Hm as [Hc1 ->].
  apply parseNumberCell_inv in Hm0 as (lit & -> & Hf & ->).
  apply index_inv in Hm1 as [Hc2 ->].
  apply parseNumberCell_inv in Hm2 as (lit' & -> & Hf' & ->).
  apply index_inv in Hm3 as [Hc0 ->].
  apply parseTimeCell_inv in Hm4 as (text & -> & Ht & ->).
  exists (v4, {| dir := Clamped C v0; spd := v2 |}). split.
  - by exists text, lit, v0, lit', v2.
  - by apply (offer_loop now v4 {| dir := Clamped C v0; spd := v2 |} todo acc s data s').
Qed.



(** ** Comparisons of floats *)






(** ** The classification (C1) *)





Lemma Unweighted_thresholds_known interval :
  interval ∈ allWindDirectionIntervals ->
  ∃ sec prim,
    Unweighted.stdDevThresholdsForWindDirIntervalCardinalResult interval
    = Some (sec, prim) ∧ PrimFloat.ltb sec prim = true.
Proof.
  revert interval. apply interval_cases; eexists _, _; split; reflexivity.
Qed.

Lemma Weighted_thresholds_known interval :
  interval ∈ allWindDirectionIntervals ->
  ∃ sec prim,
    Weighted.stdDevThresholdsForWindDirIntervalCardinalResult interval
    = Some (sec, prim) ∧ PrimFloat.ltb sec prim = true.
Proof.
  revert interval. apply interval_cases; eexists _, _; split; reflexivity.
Qed.

(** ** The fields of the points *)

Lemma append_inv_head (f a b : string) : f +:+ a = f +:+ b -> a = b.
Proof. induction f as [|c f IH]; simpl; [done |]. intros H. injection H. auto. Qed.

Lemma fieldKeys_NoDup field interval :
  interval ∈ allWindDirectionIntervals -> NoDup (fieldKeys field interval).
Proof.
  revert interval. apply interval_cases; unfold fieldKeys;
    repeat (apply NoDup_cons; split; [| ]); try apply NoDup_nil_2;
    rewrite ?elem_of_cons, ?elem_of_nil; intros H;
    repeat destruct H as [H | H]; try done;
    apply append_inv_head in H; vm_compute in H; congruence.
Qed.

Lemma fieldKeys_disjoint field i j k :
  i ∈ allWindDirectionIntervals -> j ∈ allWindDirectionIntervals -> i ≠ j ->
  k ∈ fieldKeys field i -> k ∉ fieldKeys field j.
Proof.
  intros Hi Hj. revert i Hi j Hj k.
  refine (interval_cases _ _ _ _ _ _ _);
    refine (interval_cases _ _ _ _ _ _ _); intros k Hne; try done;
    unfold fieldKeys; rewrite !elem_of_cons, !elem_of_nil;
    intros Hk Hk';
    repeat destruct Hk as [Hk | Hk]; try done; subst k;
    repeat destruct Hk' as [Hk' | Hk']; try done;
    apply append_inv_head in Hk'; vm_compute in Hk'; congruence.
Qed.

Lemma Unweighted_aggregate_loop C args (data : gmap string (list float))
    todo acc s fields s' :
  todo ⊆ allWindDirectionIntervals -> NoDup todo ->
  forRange todo (Unweighted.aggregateInterval C args data) acc s
  = (Returned fields, s') ->
  (∀ i, i ∈ todo -> length (default [] (data !! i)) ≠ 0%nat ->
        Unweighted_fieldsOf C args fields i (default [] (data !! i)))
  ∧ (∀ k, (∀ i, i ∈ todo -> length (default [] (data !! i)) ≠ 0%nat ->
                k ∉ fieldKeys (Unweighted.WindDirectionField args) i) ->
          fields !! k = acc !! k).
Proof.
  revert acc s. induction todo as [|i rest IH]; intros acc s Hsub Hnd H; simpl in H.
  - apply ret_inv in H as [<- _]. split; [| done]. intros i Hi. by apply elem_of_nil in Hi.
  - apply NoDup_cons in Hnd as [Hi Hnd]. inv_bind H.
    assert (Hrest : rest ⊆ allWindDirectionIntervals).
    { intros x Hx. apply Hsub. by right. }
    assert (Hiall : i ∈ allWindDirectionIntervals) by (apply Hsub; left).
    destruct (IH _ _ Hrest Hnd H) as [IH1 IH2]. clear IH H.
    unfold Unweighted.aggregateInterval in Hm.
    destruct (decide (length (default [] (data !! i)) = 0%nat)) as [Hempty | Hfull].
    + apply ret_inv in Hm as [<- _]. split.
      * intros j Hj Hlen. apply elem_of_cons in Hj as [-> | Hj]; [done | auto].
      * intros k Hk. apply IH2. intros j Hj. apply Hk. by right.
    + inv_bind Hm. apply lookupOrPanic_inv in Hm0 as [Hth ->].
      apply ret_inv in Hm as [<- _]. destruct v0 as [sec prim]. simpl in *.
      pose proof (fieldKeys_NoDup (Unweighted.WindDirectionField args) i Hiall) as Hkeys.
      unfold fieldKeys in Hkeys.
      apply NoDup_cons in Hkeys as [Hk1 Hkeys].
      apply NoDup_cons in Hkeys as [Hk2 _].
      rewrite !elem_of_cons, elem_of_nil in Hk1.
      rewrite !elem_of_cons, elem_of_nil in Hk2.
      assert (Hown : ∀ k, k ∈ fieldKeys (Unweighted.WindDirectionField args) i ->
                ∀ j, j ∈ rest -> length (default [] (data !! j)) ≠ 0%nat ->
                     k ∉ fieldKeys (Unweighted.WindDirectionField args) j).
      { intros k Hk j Hj _. eapply fieldKeys_disjoint; [exact Hiall | auto | | exact Hk].
        intros ->. done. }
      split.
      * intros j Hj Hlen. apply elem_of_cons in Hj as [-> | Hj]; [| auto].
        exists sec, prim. split; [done |].
        unfold Unweighted.wdMeanResultFieldName, Unweighted.wdStdDevResultFieldName,
          Unweighted.wdMeanIntercardinalResultFieldName in *.
        split; [| split].
        -- rewrite IH2 by (apply Hown; unfold fieldKeys; rewrite !elem_of_cons; auto).
           rewrite lookup_insert_ne by naive_solver.
           rewrite lookup_insert_ne by naive_solver.
           by rewrite lookup_insert_eq.
        -- rewrite IH2 by (apply Hown; unfold fieldKeys; rewrite !elem_of_cons; auto).
           rewrite lookup_insert_ne by naive_solver.
           by rewrite lookup_insert_eq.
        -- rewrite IH2 by (apply Hown; unfold fieldKeys; rewrite !elem_of_cons; auto).
           by rewrite lookup_insert_eq.
      * intros k Hk. rewrite IH2 by (intros j Hj; apply Hk; by right).
        specialize (Hk i (list_elem_of_here _ _) Hfull).
        unfold fieldKeys in Hk. rewrite !elem_of_cons, elem_of_nil in Hk.
        unfold Unweighted.wdMeanResultFieldName, Unweighted.wdStdDevResultFieldName,
          Unweighted.wdMeanIntercardinalResultFieldName.
        rewrite !lookup_insert_ne by naive_solver. done.
Qed.

Lemma weightedStatistics_inv C data s st s' :
  weightedStatistics C data s = (Returned st, s') ->
  WeightedAvgDirectionDeg C (dirSeries data) (spdSeries data) = inr st.1
  ∧ WeightedStdDevDirectionDeg C (dirSeries data) (spdSeries data) = inr st.2.
Proof.
  unfold weightedStatistics.
  destruct (WeightedAvgDirectionDeg C _ _) as [? | mean]; [discriminate |].
  destruct (WeightedStdDevDirectionDeg C _ _) as [? | sd]; [discriminate |].
  intros H. apply ret_inv in H as [<- _]. done.
Qed.

Lemma Weighted_aggregate_loop C args now tags data todo acc s bp s' :
  forRange todo (Weighted.aggregateInterval C args now tags data) acc s
  = (Returned bp, s') ->
  ∃ new, bp = acc ++ new
         ∧ Forall2 (Weighted_pointOf C args now tags data)
             (nonEmptyBuckets data todo) new.
Proof.
  revert acc s. induction todo as [|i rest IH]; intros acc s H; simpl in H.
  - apply ret_inv in H as [<- _]. exists []. by rewrite app_nil_r.
  - inv_bind H. destruct (IH _ _ H) as (new & -> & Hnew). clear IH H.
    unfold Weighted.aggregateInterval in Hm. unfold nonEmptyBuckets.
    destruct (decide (length (default [] (data !! i)) = 0%nat)) as [Hempty | Hfull].
    + apply ret_inv in Hm as [<- _]. exists new. split; [done |].
      by rewrite filter_cons_False by (intros Hn; done).
    + inv_bind Hm. inv_bind Hm. inv_bind Hm.
      apply weightedStatistics_inv in Hm0 as [Havg Hsd].
      apply lookupOrPanic_inv in Hm1 as [Hth ->].
      apply lookupOrPanic_inv in Hm2 as [Hts ->].
      destruct (influxdb_NewPoint C _); [discriminate |].
      apply ret_inv in Hm as [<- _].
      eexists (_ :: new). split; [by rewrite <- app_assoc |].
      rewrite filter_cons_True by done. constructor; [| done].
      match type of Hth with _ = Some ?th => destruct th as [sec prim] end.
      by eexists _, _, sec, prim, _.
Qed.

Lemma Returning_aggregate_loop C args now data todo acc s pts s' :
  forRange todo (Returning.aggregateInterval C args now data) acc s
  = (Returned pts, s') ->
  ∃ new, pts = acc ++ new
         ∧ Forall2 (Returning_pointOf C args now data)
             (nonEmptyBuckets data todo) new.
Proof.
  revert acc s. induction todo as [|i rest IH]; intros acc s H; simpl in H.
  - apply ret_inv in H as [<- _]. exists []. by rewrite app_nil_r.
  - inv_bind H. destruct (IH _ _ H) as (new & -> & Hnew). clear IH H.
    unfold Returning.aggregateInterval in Hm. unfold nonEmptyBuckets.
    destruct (decide (length (default [] (data !! i)) = 0%nat)) as [Hempty | Hfull].
    + apply ret_inv in Hm as [<- _]. exists new. split; [done |].
      by rewrite filter_cons_False by (intros Hn; done).
    + inv_bind Hm. inv_bind Hm.
      apply weightedStatistics_inv in Hm0 as [Havg Hsd].
      apply lookupOrPanic_inv in Hm1 as [Hts ->].
      destruct (influxdb_NewPoint C _); [discriminate |].
      apply ret_inv in Hm as [<- _].
      eexists (_ :: new). split; [by rewrite <- app_assoc |].
      rewrite filter_cons_True by done. constructor; [| done].
      by eexists _, _, _.
Qed.




(** ** Nothing to do, nothing to aggregate (C7) *)






Lemma nonEmptyBuckets_elem {A} (data : gmap string (list A)) todo i :
  i ∈ nonEmptyBuckets data todo
  ↔ length (default [] (data !! i)) ≠ 0%nat ∧ i ∈ todo.
Proof. unfold nonEmptyBuckets. by rewrite list_elem_of_filter. Qed.

Lemma retry_Do_returns W bp n errs s :
  ∃ r s', retry_Do (Influx_Write_call W bp) n errs s = (Returned r, s').
Proof.
  revert errs s. induction n as [|n IH]; intros errs s; simpl.
  - by eexists _, _.
  - unfold mbind, M_bind, bind, Influx_Write_call at 1.
    destruct (Influx_Write W (attempts s) bp) as [e|]; [apply IH | by eexists _, _].
Qed.

Lemma writeBatch_returns W retries bp s :
  ∃ s', writeBatch W retries bp s = (Returned tt, s').
Proof.
  destruct (retry_Do_returns W bp retries [] s) as (r & s1 & Hrun).
  unfold writeBatch. rewrite (bind_run _ _ _ _ _ Hrun).
  destruct r; by eexists.
Qed.


Lemma Weighted_loop_all_empty C args now tags (data : gmap string (list wdDataPoint))
    todo acc s :
  (∀ i, i ∈ todo -> length (default [] (data !! i)) = 0%nat) ->
  forRange todo (Weighted.aggregateInterval C args now tags data) acc s
  = (Returned acc, s).
Proof.
  induction todo as [|i rest IH]; intros Hempty; simpl; [done |].
  assert (Weighted.aggregateInterval C args now tags data i acc s = (Returned acc, s))
    as Hstep.
  { unfold Weighted.aggregateInterval.
    destruct (decide _) as [_ | Hn]; [done |]. destruct Hn. apply Hempty. left. }
  rewrite (bind_run _ _ _ _ _ Hstep). apply IH. intros j Hj. apply Hempty. by right.
Qed.



(** ** Cells of an unexpected type (C8) *)



(** C8 fails on the code.  A time cell or a direction cell of another
    dynamic type than the one asserted makes the run panic, and so does a
    row with too few cells, whereas a cell of the asserted type that does
    not parse is returned as an error. *)
Theorem unexpected_cell_panics :
  (∀ C now todo acc s p rest,
     (∀ text, p ≠ CString text) ->
     Unweighted.bucketRow C now todo (p :: rest) acc s
     = (Panicked (PanicTypeAssertion p), s))
  ∧ (∀ C now todo acc s c0 p rest,
       (∀ lit, p ≠ CNumber lit) ->
       bucketWeightedRow C now todo (c0 :: p :: rest) acc s
       = (Panicked (PanicTypeAssertion p), s))
  ∧ (Unweighted.WindDirectionAgg Example.collab Example.textDirectionWorld
       "<dev>" Example.unweightedArgs initialState).1
    = Panicked (PanicTypeAssertion (CString "NW"))
  ∧ (Unweighted.WindDirectionAgg Example.collab Example.epochTimeWorld
       "<dev>" Example.unweightedArgs initialState).1
    = Panicked (PanicTypeAssertion (CNumber "1704067320"))
  ∧ (Returning.WindDirectionAgg Example.collab Example.nullDirectionWorld
       Example.returningArgs initialState).1
    = Panicked (PanicTypeAssertion CNull)
  ∧ (Weighted.WindDirectionAgg Example.collab Example.nullDirectionWorld
       "<dev>" Example.weightedArgs initialState).1
    = Panicked (PanicTypeAssertion CNull)
  ∧ (Returning.WindDirectionAgg Example.collab Example.shortRowWorld
       Example.returningArgs initialState).1
    = Panicked (PanicIndexOutOfRange 1 1)
  ∧ (Returning.WindDirectionAgg Example.collab Example.badNumberWorld
       Example.returningArgs initialState).1
    = Failed (ErrParseWindDirection "1e999").
Proof.
  split; [| split; [| repeat split; vm_compute; reflexivity]].
  - intros C now todo acc s p rest Hp. unfold Unweighted.bucketRow.
    destruct p; try reflexivity. by destruct (Hp s0).
  - intros C now todo acc s c0 p rest Hp. unfold bucketWeightedRow.
    destruct p; try reflexivity. by destruct (Hp literal).
Qed.

(** ** The claims at concrete inputs *)


(** In the revision that returns its points the maximum staleness of the
    5-minute interval is 1 minute, not 2m30s: a point whose reference is 2
    minutes old is due there, and not due in the weighted revision. *)
Lemma returning_five_minute_staleness_is_one_minute :
  Returning.maxTimeBetweenAggsForWindDirInterval wdInterval5m = Some (1 * Minute)
  ∧ Returning.maxTimeBetweenAggsForWindDirInterval wdInterval5m
    ≠ Some (2 * Minute + 30 * Second)
  ∧ (Returning.intervalIsDue Example.collab
       (Example.stampedAtMidnight (Example.midnight + 4 * Minute + 30 * Second))
       Example.returningArgs Example.tagsWhere wdInterval5m initialState).1
    = Returned true
  ∧ (Weighted.intervalIsDue Example.collab
       (Example.stampedAtMidnight (Example.midnight + 4 * Minute + 30 * Second))
       Example.weightedArgs Example.tagsWhere wdInterval5m initialState).1
    = Returned false.
Proof.
  split; [reflexivity |]. split; [by vm_compute |].
  split; vm_compute; reflexivity.
Qed.


Lemma staleness_rule_per_revision_witness :
  (Unweighted.intervalIsDue Example.collab
     (Example.stampedAtMidnight (Example.midnight + 3 * Minute))
     Example.unweightedArgs Example.tagsWhere wdInterval5m initialState).1
  = Returned true.
Proof.
  destruct (staleness_rule_per_revision Example.collab
              (Example.stampedAtMidnight (Example.midnight + 3 * Minute)))
    as (_ & _ & _ & _ & H).
  destruct (H (3 * Minute) true (or_introl (conj eq_refl eq_refl))) as (Hu & _).
  apply (Hu Example.unweightedArgs Example.tagsWhere initialState Example.midnight).
  - eexists _, _, _, _. repeat split; reflexivity.
  - vm_compute. reflexivity.
Defined.


Lemma due_intervals_follow_the_enumeration_witness :
  ∃ s1,
    planIntervals
      (Unweighted.intervalIsDue Example.collab (Example.unweightedSampleWorld false)
         Example.unweightedArgs Example.tagsWhere) initialState
    = (Returned allWindDirectionIntervals, s1)
    ∧ allWindDirectionIntervals `sublist_of` allWindDirectionIntervals.
Proof.
  set (run := planIntervals
                (Unweighted.intervalIsDue Example.collab
                   (Example.unweightedSampleWorld false)
                   Example.unweightedArgs Example.tagsWhere) initialState).
  assert (Hrun : run = (Returned allWindDirectionIntervals, run.2))
    by (vm_compute; reflexivity).
  exists run.2. split; [exact Hrun |].
  exact (proj1 (due_intervals_follow_the_enumeration Example.collab
                  (Example.unweightedSampleWorld false) _ _ _ _ Hrun)).
Defined.


Lemma exhausted_write_retries_are_not_fatal_witness :
  everyWriteFails (Example.unweightedSampleWorld true)
  ∧ ∃ bp s1 errs,
      Unweighted.prepareBatch Example.collab (Example.unweightedSampleWorld true)
        "<dev>" Example.unweightedArgs initialState
      = (Returned (Some bp), s1)
      ∧ Unweighted.WindDirectionAgg Example.collab (Example.unweightedSampleWorld true)
          "<dev>" Example.unweightedArgs initialState
        = (Returned tt, afterFailedWrites s1 influxWriteRetries bp errs).
Proof.
  assert (Hfail : everyWriteFails (Example.unweightedSampleWorld true))
    by (intros k bp; discriminate).
  split; [exact Hfail |].
  set (run := Unweighted.prepareBatch Example.collab
                (Example.unweightedSampleWorld true) "<dev>"
                Example.unweightedArgs initialState).
  assert (Hrun : ∃ bp, run = (Returned (Some bp), run.2))
    by (eexists; vm_compute; reflexivity).
  destruct Hrun as [bp Hrun].
  destruct (proj1 (exhausted_write_retries_are_not_fatal Example.collab
                     (Example.unweightedSampleWorld true) Hfail)
              _ _ _ _ _ Hrun) as (errs & Hagg & _).
  exists bp, run.2, errs. split; [exact Hrun | exact Hagg].
Defined.


Lemma empty_tag_filter_fails_to_parse_witness :
  startsUp Example.process (MainReturning.env Example.flagsNoTags)
  ∧ MainReturning.main Example.collab (Example.unweightedSampleWorld false)
      Example.process "<dev>" Example.flagsNoTags initialState
    = (Exited 1,
       addEvents initialState
         [Logged (LogFatal "Failed to parse tags" "invalid tag: ")]).
Proof.
  assert (Hstart : startsUp Example.process (MainReturning.env Example.flagsNoTags))
    by (split; [by left | by split]).
  split; [exact Hstart |].
  destruct empty_tag_filter_fails_to_parse as (_ & _ & _ & _ & _ & H).
  exact (H Example.collab (Example.unweightedSampleWorld false) Example.process
           "<dev>" Example.flagsNoTags initialState eq_refl eq_refl Hstart).
Defined.

Lemma caller_tags_override_identity_tag_witness :
  writeTagsFor "<dev>" {[ "aggregator" := "mine"; "station" := "home" ]}
    !! "aggregator" = Some "mine"
  ∧ writeTagsFor "<dev>" {[ "aggregator" := "mine"; "station" := "home" ]}
      !! "station" = Some "home"
  ∧ writeTagsFor "<dev>" Example.stationTags !! "aggregator"
    = Some "wx-station-aggregator-influx/<dev>".
Proof.
  destruct (caller_tags_override_identity_tag "<dev>"
              {[ "aggregator" := "mine"; "station" := "home" ]})
    as (_ & Hagg & Hother & _).
  destruct (caller_tags_override_identity_tag "<dev>" Example.stationTags)
    as (_ & Hid & _).
  split; [rewrite Hagg; reflexivity |].
  split; [rewrite (Hother "station"); [reflexivity | discriminate] |].
  rewrite Hid. reflexivity.
Defined.

(** * Further properties *)

(** ** Strings *)

Lemma append_cons a (s t : string) : String a s +:+ t = String a (s +:+ t).
Proof. reflexivity. Qed.

Lemma append_nil_l (t : string) : "" +:+ t = t.
Proof. reflexivity. Qed.

Lemma append_nil_r (s : string) : s +:+ "" = s.
Proof. induction s as [|a s IH]; [done |]. by rewrite append_cons, IH. Qed.

Lemma append_assoc (a b c : string) : (a +:+ b) +:+ c = a +:+ (b +:+ c).
Proof. induction a as [|x a IH]; [done |]. by rewrite !append_cons, IH. Qed.

Lemma prefix_char c a s : String.prefix (String c "") (String a s) = Ascii.eqb c a.
Proof.
  simpl. destruct (Ascii.ascii_dec c a) as [-> | Hne].
  - rewrite Ascii.eqb_refl. by destruct s.
  - symmetry. by apply Ascii.eqb_neq.
Qed.

Lemma freeOf_append c a b : freeOf c (a +:+ b) = freeOf c a && freeOf c b.
Proof.
  induction a as [|x a IH]; [done |]. rewrite append_cons. simpl.
  by rewrite IH, andb_assoc.
Qed.

Lemma countOf_free c s : countOf c s = 0%nat ↔ freeOf c s = true.
Proof.
  induction s as [|a s IH]; simpl; [done |].
  destruct (Ascii.eqb a c); simpl; [split; [lia | done] | exact IH].
Qed.

(** ** [strings.Split] on a one-character separator *)

Lemma split_char_step c a s cur :
  strings_Split_from (String c "") (String a s) 0 cur
  = if Ascii.eqb a c then cur :: strings_Split_from (String c "") s 0 ""
    else strings_Split_from (String c "") s 0 (cur +:+ String a "").
Proof.
  cbn [strings_Split_from]. rewrite prefix_char, Ascii.eqb_sym.
  by destruct (Ascii.eqb a c).
Qed.

Lemma split_char_free c s cur :
  freeOf c s = true ->
  strings_Split_from (String c "") s 0 cur = [cur +:+ s].
Proof.
  revert cur. induction s as [|a s IH]; intros cur Hfree.
  - simpl. by rewrite append_nil_r.
  - simpl in Hfree. apply andb_true_iff in Hfree as [Ha Hs].
    rewrite split_char_step. apply negb_true_iff in Ha. rewrite Ha.
    rewrite IH by done. by rewrite append_assoc.
Qed.

Lemma split_char_at c s rest cur :
  freeOf c s = true ->
  strings_Split_from (String c "") (s +:+ String c rest) 0 cur
  = (cur +:+ s) :: strings_Split_from (String c "") rest 0 "".
Proof.
  revert cur. induction s as [|a s IH]; intros cur Hfree.
  - rewrite append_nil_l, split_char_step, Ascii.eqb_refl. by rewrite append_nil_r.
  - simpl in Hfree. apply andb_true_iff in Hfree as [Ha Hs].
    rewrite append_cons, split_char_step. apply negb_true_iff in Ha. rewrite Ha.
    rewrite IH by done. by rewrite append_assoc.
Qed.

Lemma split_char_length c s cur :
  length (strings_Split_from (String c "") s 0 cur) = S (countOf c s).
Proof.
  revert cur. induction s as [|a s IH]; intros cur; [done |].
  rewrite split_char_step. simpl. destruct (Ascii.eqb a c); simpl; by rewrite IH.
Qed.

Lemma split_char_pieces_free c s cur :
  freeOf c cur = true ->
  Forall (λ p, freeOf c p = true) (strings_Split_from (String c "") s 0 cur).
Proof.
  revert cur. induction s as [|a s IH]; intros cur Hcur.
  - by repeat constructor.
  - rewrite split_char_step. destruct (Ascii.eqb a c) eqn:Ha.
    + constructor; [done |]. by apply IH.
    + apply IH. rewrite freeOf_append, Hcur. simpl. by rewrite Ha.
Qed.

Lemma strings_Join_cons x (l : list string) sep :
  l ≠ [] -> strings_Join (x :: l) sep = x +:+ sep +:+ strings_Join l sep.
Proof. by destruct l. Qed.

Lemma split_char_join c s cur :
  strings_Join (strings_Split_from (String c "") s 0 cur) (String c "") = cur +:+ s.
Proof.
  revert cur. induction s as [|a s IH]; intros cur;
    [simpl; by rewrite append_nil_r |].
  rewrite split_char_step. destruct (Ascii.eqb a c) eqn:Ha.
  - apply Ascii.eqb_eq in Ha as ->. rewrite strings_Join_cons.
    + rewrite IH. reflexivity.
    + intros Hnil. pose proof (split_char_length c s "") as Hlen.
      by rewrite Hnil in Hlen.
  - rewrite IH. by rewrite append_assoc.
Qed.

Lemma split_join c (pieces : list string) :
  pieces ≠ [] -> Forall (λ p, freeOf c p = true) pieces ->
  strings_Split (strings_Join pieces (String c "")) (String c "") = pieces.
Proof.
  unfold strings_Split. induction pieces as [|p rest IH]; intros Hne Hall; [done |].
  apply Forall_cons in Hall as [Hp Hrest]. destruct rest as [|q rest].
  - simpl. by rewrite split_char_free.
  - rewrite strings_Join_cons by done.
    change (String c "" +:+ strings_Join (q :: rest) (String c ""))
      with (String c (strings_Join (q :: rest) (String c ""))).
    rewrite split_char_at by done. rewrite append_nil_l. f_equal. by apply IH.
Qed.

(** ** [ParseTags] *)

Lemma tagText_split kv :
  plainTag kv -> strings_Split (tagText kv) "=" = [kv.1; kv.2].
Proof.
  intros (_ & Hk & _ & Hv). unfold tagText, strings_Split.
  change ("=" +:+ kv.2) with (String "=" kv.2).
  rewrite split_char_at by done. by rewrite split_char_free.
Qed.

Lemma ParseTags_range_tags pairs retv :
  Forall plainTag pairs ->
  ParseTags_range (tagText <$> pairs) retv
  = inr (foldl (λ m kv, <[kv.1 := kv.2]> m) retv pairs).
Proof.
  revert retv. induction pairs as [|kv pairs IH]; intros retv Hall; [done |].
  apply Forall_cons in Hall as [Hkv Hall]. cbn [fmap list_fmap ParseTags_range].
  rewrite tagText_split by done. by apply IH.
Qed.

(** X1.  [ParseTags] reads back a list of tags written as key=value and
    joined with commas: for a list that is not empty, of tags whose keys
    and values hold neither a comma nor an equals sign, the result is the
    map that stores the pairs one after the other, so that of two pairs
    with the same key the later one stays. *)
Theorem ParseTags_of_joined_tags (pairs : list (string * string)) :
  pairs ≠ [] -> Forall plainTag pairs ->
  ParseTags (strings_Join (tagText <$> pairs) ",")
  = inr (foldl (λ m kv, <[kv.1 := kv.2]> m) ∅ pairs).
Proof.
  intros Hne Hall. unfold ParseTags. rewrite split_join.
  - by apply ParseTags_range_tags.
  - by destruct pairs.
  - apply Forall_fmap. eapply Forall_impl; [exact Hall |].
    intros kv (Hk & _ & Hv & _). unfold tagText. simpl.
    rewrite !freeOf_append. simpl. by rewrite Hk, Hv.
Qed.

Lemma ParseTags_of_joined_tags_witness :
  ParseTags "station=home,site=roof,station=barn"
  = inr (<["station" := "barn"]> (<["site" := "roof"]> {["station" := "home"]})).
Proof.
  apply (ParseTags_of_joined_tags
           [("station", "home"); ("site", "roof"); ("station", "barn")]).
  - done.
  - repeat constructor.
Defined.

Lemma split_equals_pair p :
  (∃ k v, strings_Split p "=" = [k; v]) ↔ countOf "=" p = 1%nat.
Proof.
  unfold strings_Split. pose proof (split_char_length "=" p "") as Hlen. split.
  - intros (k & v & H). rewrite H in Hlen. simpl in Hlen. lia.
  - intros Hc. rewrite Hc in Hlen.
    destruct (strings_Split_from _ _ _ _) as [|k [|v [|? ?]]]; try done. eauto.
Qed.

Lemma ParseTags_range_accepts pieces retv :
  (∃ m, ParseTags_range pieces retv = inr m)
  ↔ Forall (λ p, countOf "=" p = 1%nat) pieces.
Proof.
  revert retv. induction pieces as [|p rest IH]; intros retv.
  - split; [constructor | by eexists].
  - rewrite Forall_cons, <- split_equals_pair. cbn [ParseTags_range]. split.
    + intros [m Hm].
      destruct (strings_Split p "=") as [|k [|v [|? ?]]]; try discriminate.
      split; [eauto |]. apply (IH (<[k:=v]> retv)). eauto.
    + intros [(k & v & ->) Hrest]. by apply IH.
Qed.

Lemma ParseTags_range_rejects pieces retv msg :
  ParseTags_range pieces retv = inl msg ->
  ∃ before bad after,
    pieces = before ++ bad :: after
    ∧ Forall (λ p, countOf "=" p = 1%nat) before
    ∧ countOf "=" bad ≠ 1%nat
    ∧ msg = "invalid tag: " +:+ bad.
Proof.
  revert retv. induction pieces as [|p rest IH]; intros retv H; [discriminate |].
  cbn [ParseTags_range] in H.
  destruct (decide (countOf "=" p = 1%nat)) as [Hc | Hc].
  - pose proof Hc as Hc'. apply split_equals_pair in Hc as (k & v & Hkv).
    rewrite Hkv in H.
    apply IH in H as (before & bad & after & -> & Hbefore & Hbad & ->).
    exists (p :: before), bad, after. split; [done |]. split; [by constructor | done].
  - exists [], p, rest. split; [done |]. split; [constructor |]. split; [done |].
    destruct (strings_Split p "=") as [|k [|v [|? ?]]] eqn:Hs;
      try (by injection H). destruct Hc. apply split_equals_pair. eauto.
Qed.

(** X2.  [ParseTags] accepts a string exactly when each of its pieces
    between commas holds one equals sign, no more and no fewer; when it
    rejects, the error names the first piece that does not.  The pieces
    are those of [strings.Split]: joined with commas they give the string
    back, and none of them holds a comma. *)
Theorem ParseTags_accepts_single_equals_pieces (tags : string) :
  strings_Join (strings_Split tags ",") "," = tags
  ∧ Forall (λ p, freeOf "," p = true) (strings_Split tags ",")
  ∧ ((∃ m, ParseTags tags = inr m)
     ↔ Forall (λ p, countOf "=" p = 1%nat) (strings_Split tags ","))
  ∧ (∀ msg, ParseTags tags = inl msg ->
       ∃ before bad after,
         strings_Split tags "," = before ++ bad :: after
         ∧ Forall (λ p, countOf "=" p = 1%nat) before
         ∧ countOf "=" bad ≠ 1%nat
         ∧ msg = "invalid tag: " +:+ bad).
Proof.
  split; [apply (split_char_join "," tags "") |].
  split; [by apply (split_char_pieces_free "," tags "") |].
  split; [apply ParseTags_range_accepts |].
  intros msg. apply ParseTags_range_rejects.
Qed.

Lemma ParseTags_accepts_single_equals_pieces_witness :
  ∃ before bad after,
    strings_Split "station=home,,site=roof" "," = before ++ bad :: after
    ∧ Forall (λ p, countOf "=" p = 1%nat) before
    ∧ countOf "=" bad ≠ 1%nat
    ∧ "invalid tag: " = "invalid tag: " +:+ bad.
Proof.
  apply (ParseTags_accepts_single_equals_pieces "station=home,,site=roof").
  reflexivity.
Defined.

(** ** [PartialWhereClauseForTags] *)

Lemma strings_Join_prefixed (l : list string) sep :
  l ≠ [] ->
  sep +:+ strings_Join l sep = foldr (λ x acc, sep +:+ x +:+ acc) "" l.
Proof.
  induction l as [|x l IH]; [done |]. intros _.
  destruct (decide (l = [])) as [-> | Hne].
  - simpl. by rewrite append_nil_r.
  - rewrite strings_Join_cons by done. cbn [foldr]. by rewrite <- IH.
Qed.

Lemma where_clause_conjuncts (tags : gmap string string) :
  PartialWhereClauseForTags tags
  = foldr (λ kv acc, tagCondition kv +:+ acc) "" (map_to_list tags).
Proof.
  unfold PartialWhereClauseForTags. destruct (decide (size tags = 0%nat)) as [Hz | Hnz].
  - apply map_size_empty_iff in Hz as ->. by rewrite map_to_list_empty.
  - cbv zeta. rewrite strings_Join_prefixed.
    + induction (map_to_list tags) as [|kv l IH]; [done |].
      cbn [fmap list_fmap foldr]. rewrite IH. symmetry. apply append_assoc.
    + intros Hnil. apply fmap_nil_inv in Hnil. apply map_to_list_empty_iff in Hnil.
      by rewrite Hnil, map_size_empty in Hnz.
Qed.

(** X3.  [PartialWhereClauseForTags] adds one condition, AND key='value',
    per tag, in the order the map is ranged over, and nothing else: the
    clause is empty exactly for the empty map; for a single tag it is that
    tag's condition, the value as it was given; and the tag that [ParseTags]
    reads from a plain key=value text gives that condition. *)
Theorem where_clause_has_one_conjunct_per_tag :
  (∀ tags, PartialWhereClauseForTags tags
           = foldr (λ kv acc, tagCondition kv +:+ acc) "" (map_to_list tags))
  ∧ (∀ tags, PartialWhereClauseForTags tags = "" ↔ tags = ∅)
  ∧ (∀ k v, PartialWhereClauseForTags {[k := v]}
            = " AND " +:+ k +:+ "='" +:+ v +:+ "'")
  ∧ (∀ kv, plainTag kv ->
       ParseTags (tagText kv) = inr {[kv.1 := kv.2]}
       ∧ PartialWhereClauseForTags {[kv.1 := kv.2]} = tagCondition kv).
Proof.
  assert (Hone : ∀ k v, PartialWhereClauseForTags {[k := v]}
                        = " AND " +:+ k +:+ "='" +:+ v +:+ "'").
  { intros k v. rewrite where_clause_conjuncts, map_to_list_singleton.
    unfold tagCondition. simpl. by rewrite append_nil_r. }
  split; [exact where_clause_conjuncts |]. split; [| split; [exact Hone |]].
  - intros tags. split; [| by intros ->].
    unfold PartialWhereClauseForTags.
    destruct (decide (size tags = 0%nat)) as [Hz | Hnz];
      [intros _; by apply map_size_empty_iff in Hz | discriminate].
  - intros kv Hkv. split; [| apply Hone].
    destruct Hkv as (Hk & Hk' & Hv & Hv'). unfold ParseTags, strings_Split.
    rewrite split_char_free.
    + rewrite append_nil_l. cbn [ParseTags_range].
      rewrite tagText_split by done. by rewrite insert_empty.
    + unfold tagText. rewrite !freeOf_append. simpl. by rewrite Hk, Hv.
Qed.

(** ** How a run ends *)

Lemma ends_ret {A} ok (post : A -> Prop) a : post a -> ends ok post (ret a).
Proof. intros H s. exact H. Qed.

Lemma ends_returnErr {A} (ok : ending -> Prop) (post : A -> Prop) e :
  ok (EndFailed e) -> ends ok post (returnErr e).
Proof. intros H s. exact H. Qed.

Lemma ends_go_panic {A} (ok : ending -> Prop) (post : A -> Prop) p :
  ok (EndPanicked p) -> ends ok post (go_panic p).
Proof. intros H s. exact H. Qed.


Lemma ends_bind {A B} ok (P : A -> Prop) (Q : B -> Prop) (m : M A) (k : A -> M B) :
  ends ok P m -> (∀ a, P a -> ends ok Q (k a)) -> ends ok Q (m ≫= k).
Proof.
  intros Hm Hk s. specialize (Hm s). unfold mbind, M_bind, bind.
  destruct (m s) as [[a|e|p|c] s1]; simpl in *; try done. by apply Hk.
Qed.

Lemma ends_weaken {A} ok (P Q : A -> Prop) (m : M A) :
  ends ok P m -> (∀ a, P a -> Q a) -> ends ok Q m.
Proof.
  intros Hm HPQ s. specialize (Hm s). destruct (m s).1; try done. by apply HPQ.
Qed.

Lemma ends_forRange {A S} ok (I : S -> Prop) (xs : list A) (body : A -> S -> M S) acc :
  I acc -> (∀ x a, x ∈ xs -> I a -> ends ok I (body x a)) ->
  ends ok I (forRange xs body acc).
Proof.
  revert acc. induction xs as [|x xs IH]; intros acc Hacc Hbody; simpl.
  - by apply ends_ret.
  - eapply ends_bind.
    + apply Hbody; [left | done].
    + intros a Ha. apply IH; [done |]. intros y b Hy. apply Hbody. by right.
Qed.

Lemma ends_emit ok ev : ends ok (λ _, True) (emit ev).
Proof. by intros s. Qed.

Lemma ends_time_Now ok W : ends ok (λ _, True) (time_Now W).
Proof. by intros s. Qed.

Lemma ends_lookupOrPanic {A} ok interval (o : option A) :
  is_Some o -> ends ok (λ a, o = Some a) (lookupOrPanic interval o).
Proof. intros [a ->] s. done. Qed.

Lemma ends_retry_Do ok W bp n errs :
  ends ok (λ _, True) (retry_Do (Influx_Write_call W bp) n errs).
Proof.
  revert errs. induction n as [|n IH]; intros errs s; simpl; [done |].
  unfold mbind, M_bind, bind, Influx_Write_call at 1.
  destruct (Influx_Write W (attempts s) bp); [apply IH | done].
Qed.

Lemma ends_writeBatch ok W retries bp : ends ok (λ _, True) (writeBatch W retries bp).
Proof.
  unfold writeBatch. eapply ends_bind; [apply ends_retry_Do |].
  intros [errs|] _; [apply ends_emit | by apply ends_ret].
Qed.


Section EngineEnds.
Variable ok : ending -> Prop.
Hypothesis ok_index : ∀ i n, ok (EndPanicked (PanicIndexOutOfRange i n)).
Hypothesis ok_assert : ∀ c, ok (EndPanicked (PanicTypeAssertion c)).
Hypothesis ok_query : ∀ msg, ok (EndFailed (ErrQueryFailed msg)).
Hypothesis ok_one_result : ∀ n, ok (EndFailed (ErrExpectedOneResult n)).
Hypothesis ok_one_series : ∀ n, ok (EndFailed (ErrExpectedOneSeries n)).
Hypothesis ok_first_column : ∀ c, ok (EndFailed (ErrFirstColumn c)).
Hypothesis ok_second_column : ∀ want got, ok (EndFailed (ErrSecondColumn want got)).
Hypothesis ok_third_column : ∀ want got, ok (EndFailed (ErrThirdColumn want got)).
Hypothesis ok_parse_time : ∀ text, ok (EndFailed (ErrParseTime text)).
Hypothesis ok_parse_direction : ∀ text, ok (EndFailed (ErrParseWindDirection text)).
Hypothesis ok_parse_speed : ∀ text, ok (EndFailed (ErrParseWindSpeed text)).
Hypothesis ok_weighted_avg : ∀ msg, ok (EndFailed (ErrWeightedAvg msg)).
Hypothesis ok_weighted_sd : ∀ msg, ok (EndFailed (ErrWeightedStdDev msg)).
Hypothesis ok_create_point : ∀ msg, ok (EndFailed (ErrCreatePoint msg)).
Hypothesis ok_create_batch : ∀ msg, ok (EndFailed (ErrCreateBatch msg)).

Lemma ends_index {A} (l : list A) i : ends ok (λ _, True) (index l i).
Proof. intros s. unfold index. destruct (l !! i); simpl; auto. Qed.

Lemma ends_assertString c : ends ok (λ _, True) (assertString c).
Proof. intros s. destruct c; simpl; auto. Qed.

Lemma ends_assertNumber c : ends ok (λ _, True) (assertNumber c).
Proof. intros s. destruct c; simpl; auto. Qed.

Lemma ends_parseTimeCell C c : ends ok (λ _, True) (parseTimeCell C c).
Proof.
  unfold parseTimeCell. eapply ends_bind; [apply ends_assertString |].
  intros s _. destruct (time_Parse_RFC3339 C s);
    [by apply ends_ret | by apply ends_returnErr].
Qed.

Lemma ends_parseNumberCell C mk c :
  (∀ text, ok (EndFailed (mk text))) ->
  ends ok (λ _, True) (parseNumberCell C mk c).
Proof.
  intros Hmk.
  unfold parseNumberCell. eapply ends_bind; [apply ends_assertNumber |].
  intros s _. destruct (Number_Float64 C s);
    [by apply ends_ret | by apply ends_returnErr].
Qed.

Lemma ends_queryChecked W cmd db rp :
  ends ok (λ _, True) (queryChecked W cmd db rp).
Proof.
  intros s. unfold queryChecked, Influx_Query_call, mbind, M_bind, bind. simpl.
  destruct (Influx_Query W _) as [msg | resp]; simpl; [auto |].
  destruct (decide _); simpl; auto.
Qed.

Lemma ends_singleSeries r : ends ok (λ _, True) (singleSeries r).
Proof.
  unfold singleSeries. destruct (Results r) as [|res0 ?]; [by apply ends_ret |].
  destruct (Series res0) as [|row0 ?]; [by apply ends_ret |].
  destruct (_ <? _)%nat; [by apply ends_returnErr |].
  destruct (_ <? _)%nat; [by apply ends_returnErr |].
  eapply ends_bind; [apply ends_index |].
  intros c0 _. destruct (decide _); [by apply ends_ret | by apply ends_returnErr].
Qed.

Lemma ends_checkWeightedSeries d sp r :
  ends ok (λ _, True) (checkWeightedSeries d sp r).
Proof.
  unfold checkWeightedSeries. eapply ends_bind; [apply ends_singleSeries |].
  intros [row0|] _; [| by apply ends_ret].
  eapply ends_bind; [apply ends_index |]. intros c1 _.
  destruct (decide _); [| by apply ends_returnErr].
  eapply ends_bind; [apply ends_index |]. intros c2 _.
  destruct (decide _); [by apply ends_ret | by apply ends_returnErr].
Qed.

Lemma ends_latestAggregateTime C W f to interval tw db rp :
  ends ok (λ _, True) (latestAggregateTime C W f to interval tw db rp).
Proof.
  unfold latestAggregateTime. eapply ends_bind; [apply ends_emit |]. intros _ _.
  eapply ends_bind; [apply ends_queryChecked |]. intros r _.
  eapply ends_bind; [apply ends_singleSeries |]. intros [row0|] _;
    [| by apply ends_ret].
  eapply ends_bind; [apply ends_index |]. intros v0 _.
  eapply ends_bind; [apply ends_index |]. intros c _.
  eapply ends_bind; [apply ends_assertString |]. intros s _.
  destruct (time_Parse_RFC3339 C s); [by apply ends_ret | by apply ends_returnErr].
Qed.

Lemma ends_planIntervals (isDue : string -> M bool) :
  (∀ i, i ∈ allWindDirectionIntervals -> ends ok (λ _, True) (isDue i)) ->
  ends ok (λ todo, todo ⊆ allWindDirectionIntervals) (planIntervals isDue).
Proof.
  intros HisDue. unfold planIntervals. apply ends_forRange.
  - intros i Hi. by apply elem_of_nil in Hi.
  - intros i acc Hi Hacc. eapply ends_bind; [by apply HisDue |].
    intros due _. apply ends_ret. destruct due; [| done].
    intros j Hj. apply elem_of_app in Hj as [Hj | Hj]; [by apply Hacc |].
    apply list_elem_of_singleton in Hj as ->. done.
Qed.

Lemma ends_offer {A} (now t : Time) (x : A) todo (acc : gmap string (list A)) :
  todo ⊆ allWindDirectionIntervals ->
  ends ok (λ _, True)
    (forRange todo
       (λ interval data,
          d ← lookupOrPanic interval (windDirIntervalToDuration interval);
          ret (if Time_Sub now t <=? d
               then <[interval := default [] (data !! interval) ++ [x]]> data
               else data))
       acc).
Proof.
  intros Hsub. apply ends_forRange; [done |]. intros i data Hi _.
  destruct (duration_known i (Hsub _ Hi)) as (d & Hd & _).
  eapply ends_bind; [apply ends_lookupOrPanic; by rewrite Hd |].
  intros d' _. by apply ends_ret.
Qed.

Lemma ends_Unweighted_intervalIsDue C W args tw i :
  i ∈ allWindDirectionIntervals ->
  ends ok (λ _, True) (Unweighted.intervalIsDue C W args tw i).
Proof.
  intros Hi. unfold Unweighted.intervalIsDue.
  eapply ends_bind; [apply ends_latestAggregateTime |]. intros [t|] _;
    [| by apply ends_ret].
  unfold time_Since. eapply ends_bind.
  { eapply ends_bind; [apply ends_time_Now |]. intros now _.
    by apply (ends_ret ok (λ _, True)). }
  intros elapsed _. destruct (Unweighted_maxTime_known i Hi) as (m & Hm & _).
  eapply ends_bind; [apply ends_lookupOrPanic; by rewrite Hm |].
  intros m' _. by apply ends_ret.
Qed.

Lemma ends_midpointIsDue C W maxTime f to tw db rp i :
  i ∈ allWindDirectionIntervals -> is_Some (maxTime i) ->
  ends ok (λ _, True) (midpointIsDue C W maxTime f to tw db rp i).
Proof.
  intros Hi Hmax. unfold midpointIsDue.
  eapply ends_bind; [apply ends_latestAggregateTime |]. intros [t|] _;
    [| by apply ends_ret].
  destruct (duration_known i Hi) as (d & Hd & _).
  eapply ends_bind.
  { apply ends_lookupOrPanic. unfold midpointReference. by rewrite Hd. }
  intros ref _. unfold time_Since. eapply ends_bind.
  { eapply ends_bind; [apply ends_time_Now |]. intros now _.
    by apply (ends_ret ok (λ _, True)). }
  intros elapsed _. eapply ends_bind; [by apply ends_lookupOrPanic |].
  intros m' _. by apply ends_ret.
Qed.

Lemma ends_Unweighted_bucketRow C now todo row acc :
  todo ⊆ allWindDirectionIntervals ->
  ends ok (λ _, True) (Unweighted.bucketRow C now todo row acc).
Proof.
  intros Hsub. unfold Unweighted.bucketRow.
  eapply ends_bind; [apply ends_index |]. intros c0 _.
  eapply ends_bind; [apply ends_parseTimeCell |]. intros t _.
  eapply ends_bind; [apply ends_index |]. intros c1 _.
  eapply ends_bind; [by apply ends_parseNumberCell |]. intros wd _.
  by apply ends_offer.
Qed.

Lemma ends_bucketWeightedRow C now todo row acc :
  todo ⊆ allWindDirectionIntervals ->
  ends ok (λ _, True) (bucketWeightedRow C now todo row acc).
Proof.
  intros Hsub. unfold bucketWeightedRow.
  eapply ends_bind; [apply ends_index |]. intros c1 _.
  eapply ends_bind; [by apply ends_parseNumberCell |]. intros d _.
  eapply ends_bind; [apply ends_index |]. intros c2 _.
  eapply ends_bind; [by apply ends_parseNumberCell |]. intros sp _.
  eapply ends_bind; [apply ends_index |]. intros c0 _.
  eapply ends_bind; [apply ends_parseTimeCell |]. intros t _.
  by apply ends_offer.
Qed.

Lemma ends_weightedStatistics C data :
  ends ok (λ _, True) (weightedStatistics C data).
Proof.
  unfold weightedStatistics.
  destruct (WeightedAvgDirectionDeg C _ _); [by apply ends_returnErr |].
  destruct (WeightedStdDevDirectionDeg C _ _);
    [by apply ends_returnErr | by apply ends_ret].
Qed.

Lemma ends_Unweighted_fetchSamples W args widest tw :
  ends ok (λ _, True) (Unweighted.fetchSamples W args widest tw).
Proof.
  unfold Unweighted.fetchSamples.
  eapply ends_bind; [apply ends_emit |]. intros _ _.
  eapply ends_bind; [apply ends_queryChecked |]. intros r _.
  eapply ends_bind; [apply ends_singleSeries |]. intros [row0|] _;
    [| by apply ends_ret].
  eapply ends_bind; [apply ends_index |]. intros c1 _.
  destruct (decide _); [by apply ends_ret | by apply ends_returnErr].
Qed.

Lemma ends_Unweighted_prepareBatch C W Version args :
  ends ok (λ _, True) (Unweighted.prepareBatch C W Version args).
Proof.
  unfold Unweighted.prepareBatch. eapply ends_bind.
  { apply ends_planIntervals. intros i Hi. by apply ends_Unweighted_intervalIsDue. }
  intros [|widest rest] Htodo.
  { eapply ends_bind; [apply ends_emit |]. intros _ _. by apply ends_ret. }
  eapply ends_bind; [apply ends_time_Now |]. intros now _.
  eapply ends_bind; [apply ends_Unweighted_fetchSamples |]. intros [row0|] _.
  2: { eapply ends_bind; [apply ends_emit |]. intros _ _. by apply ends_ret. }
  eapply ends_bind.
  { apply (ends_forRange ok (λ _, True)); [done |]. intros row acc _ _.
    by apply ends_Unweighted_bucketRow. }
  intros data _. eapply ends_bind.
  { apply (ends_forRange ok (λ _, True)); [done |]. intros i fields Hi _.
    unfold Unweighted.aggregateInterval. destruct (decide _); [by apply ends_ret |].
    destruct (Unweighted_thresholds_known i (Htodo _ Hi)) as (sec & prim & Hth & _).
    eapply ends_bind; [apply ends_lookupOrPanic; by rewrite Hth |].
    intros th _. by apply ends_ret. }
  intros fields _. cbv zeta.
  destruct (influxdb_NewPoint C _); [by apply ends_returnErr |].
  destruct (influxdb_NewBatchPoints C _ _); [by apply ends_returnErr | by apply ends_ret].
Qed.

Lemma ends_Unweighted_WindDirectionAgg C W Version args :
  ends ok (λ _, True) (Unweighted.WindDirectionAgg C W Version args).
Proof.
  unfold Unweighted.WindDirectionAgg.
  eapply ends_bind; [apply ends_Unweighted_prepareBatch |].
  intros [bp|] _; [apply ends_writeBatch | by apply ends_ret].
Qed.

Lemma ends_Weighted_WindDirectionAgg C W Version args :
  ends ok (λ _, True) (Weighted.WindDirectionAgg C W Version args).
Proof.
  unfold Weighted.WindDirectionAgg.
  apply (ends_bind ok (λ _, True)); [| intros [bp|] _;
    [apply ends_writeBatch | by apply ends_ret]].
  unfold Weighted.prepareBatch. eapply ends_bind.
  { apply ends_planIntervals. intros i Hi. apply ends_midpointIsDue; [done |].
    destruct (Weighted_maxTime_known i Hi) as (m & -> & _). done. }
  intros [|widest rest] Htodo.
  { eapply ends_bind; [apply ends_emit |]. intros _ _. by apply ends_ret. }
  eapply ends_bind; [apply ends_time_Now |]. intros now _.
  eapply ends_bind.
  { unfold Weighted.fetchSamples. eapply ends_bind; [apply ends_emit |].
    intros _ _. eapply ends_bind; [apply ends_queryChecked |]. intros r _.
    apply ends_checkWeightedSeries. }
  intros [row0|] _.
  2: { eapply ends_bind; [apply ends_emit |]. intros _ _. by apply ends_ret. }
  eapply ends_bind.
  { apply (ends_forRange ok (λ _, True)); [done |]. intros row acc _ _.
    by apply ends_bucketWeightedRow. }
  intros data _.
  destruct (influxdb_NewBatchPoints C _ _); [by apply ends_returnErr |].
  cbv zeta. eapply ends_bind; [| intros bp _; by apply ends_ret].
  apply (ends_forRange ok (λ _, True)); [done |]. intros i bp Hi _.
  unfold Weighted.aggregateInterval. destruct (decide _); [by apply ends_ret |].
  eapply ends_bind; [apply ends_weightedStatistics |]. intros st _.
  destruct (Weighted_thresholds_known i (Htodo _ Hi)) as (sec & prim & Hth & _).
  eapply ends_bind; [apply ends_lookupOrPanic; by rewrite Hth |]. intros th _.
  destruct (duration_known i (Htodo _ Hi)) as (d & Hd & _).
  eapply ends_bind.
  { apply ends_lookupOrPanic. unfold Weighted.pointTimestamp, midpointTimestamp.
    by rewrite Hd. }
  intros ts _. cbv zeta.
  destruct (influxdb_NewPoint C _); [by apply ends_returnErr | by apply ends_ret].
Qed.

Lemma ends_Returning_WindDirectionAgg C W args :
  ends ok (λ _, True) (Returning.WindDirectionAgg C W args).
Proof.
  unfold Returning.WindDirectionAgg. eapply ends_bind.
  { apply ends_planIntervals. intros i Hi. apply ends_midpointIsDue; [done |].
    destruct (Returning_maxTime_known i Hi) as (m & -> & _). done. }
  intros [|widest rest] Htodo.
  { eapply ends_bind; [apply ends_emit |]. intros _ _. by apply ends_ret. }
  eapply ends_bind; [apply ends_time_Now |]. intros now _.
  eapply ends_bind.
  { unfold Returning.fetchSamples.
    eapply ends_bind; [apply ends_queryChecked |]. intros r _.
    apply ends_checkWeightedSeries. }
  intros [row0|] _.
  2: { eapply ends_bind; [apply ends_emit |]. intros _ _. by apply ends_ret. }
  eapply ends_bind.
  { apply (ends_forRange ok (λ _, True)); [done |]. intros row acc _ _.
    by apply ends_bucketWeightedRow. }
  intros data _.
  apply (ends_forRange ok (λ _, True)); [done |]. intros i bp Hi _.
  unfold Returning.aggregateInterval. destruct (decide _); [by apply ends_ret |].
  eapply ends_bind; [apply ends_weightedStatistics |]. intros st _.
  destruct (duration_known i (Htodo _ Hi)) as (d & Hd & _).
  eapply ends_bind.
  { apply ends_lookupOrPanic. unfold Returning.pointTimestamp, midpointTimestamp.
    by rewrite Hd. }
  intros ts _. cbv zeta.
  destruct (influxdb_NewPoint C _); [by apply ends_returnErr | by apply ends_ret].
Qed.

End EngineEnds.

(** X4.  How a run of [WindDirectionAgg] may end, in each of the three
    revisions: it returns, or returns one of the errors of its revision, or
    panics on an index out of range or on a type assertion.  It never
    reaches the "unknown interval" panic of the lookup tables, which are
    only consulted for intervals that the planning loop took from the
    enumeration, and it never exits the process.  The unweighted revision
    returns no error of the speed column or of the weighted statistics; the
    revision that returns its points returns no error of the batch. *)
Theorem how_a_run_of_the_engine_may_end (C : Collab) (W : World) :
  (∀ Version args s,
     match (Unweighted.WindDirectionAgg C W Version args s).1 with
     | Returned _ => True
     | Failed e => Unweighted_error e
     | Panicked p => enginePanic p
     | Exited _ => False
     end)
  ∧ (∀ Version args s,
       match (Weighted.WindDirectionAgg C W Version args s).1 with
       | Returned _ | Failed _ => True
       | Panicked p => enginePanic p
       | Exited _ => False
       end)
  ∧ (∀ args s,
       match (Returning.WindDirectionAgg C W args s).1 with
       | Returned _ => True
       | Failed e => Returning_error e
       | Panicked p => enginePanic p
       | Exited _ => False
       end).
Proof.
  split; [| split].
  - intros Version args s.
    assert (H : ends (engineEnding Unweighted_error) (λ _, True)
                  (Unweighted.WindDirectionAgg C W Version args))
      by (apply ends_Unweighted_WindDirectionAgg; intros; exact I).
    exact (H s).
  - intros Version args s.
    assert (H : ends (engineEnding (λ _, True)) (λ _, True)
                  (Weighted.WindDirectionAgg C W Version args))
      by (apply ends_Weighted_WindDirectionAgg; intros; exact I).
    specialize (H s).
    by destruct (Weighted.WindDirectionAgg C W Version args s).1.
  - intros args s.
    assert (H : ends (engineEnding Returning_error) (λ _, True)
                  (Returning.WindDirectionAgg C W args))
      by (apply ends_Returning_WindDirectionAgg; intros; exact I).
    exact (H s).
Qed.

(** ** How [main] ends *)






(** ** Quiet computations *)

Lemma quiet_stateless {A} (m : M A) : stateless m -> quiet m.
Proof. intros H s. by rewrite H. Qed.

Lemma quiet_bind {A B} (m : M A) (k : A -> M B) :
  quiet m -> (∀ a, quiet (k a)) -> quiet (m ≫= k).
Proof.
  intros Hm Hk s. specialize (Hm s). unfold mbind, M_bind, bind.
  destruct (m s) as [[a|e|p|c] s1]; simpl in *; try done.
  destruct (Hk a s1) as [Ht Ha]. rewrite Ht, Ha. done.
Qed.

Lemma quiet_time_Now W : quiet (time_Now W).
Proof. by intros s. Qed.

Lemma quiet_time_Since W t : quiet (time_Since W t).
Proof.
  unfold time_Since. apply quiet_bind; [apply quiet_time_Now |].
  intros now. apply quiet_stateless, stateless_ret.
Qed.

Lemma quiet_run {A} (m : M A) s o s' :
  quiet m -> m s = (o, s') -> trace s' = trace s ∧ attempts s' = attempts s.
Proof. intros Hm H. specialize (Hm s). by rewrite H in Hm. Qed.

Lemma bind_quiet_tail {A B} (m : M A) (k : A -> M B) s o s' :
  (∀ a, quiet (k a)) -> (m ≫= k) s = (o, s') ->
  trace s' = trace (m s).2 ∧ attempts s' = attempts (m s).2.
Proof.
  intros Hk. unfold mbind, M_bind, bind.
  destruct (m s) as [[a|e|p|c] s1]; simpl; intros H;
    [by eapply quiet_run | by injection H as _ <- ..].
Qed.

(** ** The events of the planning loop *)

Lemma latest_state C W f to interval tw db rp s o s' :
  latestAggregateTime C W f to interval tw db rp s = (o, s') ->
  s' = afterProbe s (stalenessProbe f to interval tw db rp).
Proof.
  unfold latestAggregateTime. rewrite log_then. intros H.
  apply bind_stateless_tail in H;
    [| intros; stateless_tac; apply stateless_assertString].
  destruct (queryChecked _ _ _ _ _) as [o1 s1] eqn:Hq.
  apply queryChecked_state in Hq. simpl in H. subst.
  unfold afterProbe. by rewrite addEvents_app.
Qed.

Lemma Unweighted_intervalIsDue_events C W args tw i s o s' :
  Unweighted.intervalIsDue C W args tw i s = (o, s') ->
  trace s' = trace s ++ probeEvents (Unweighted_probe args tw i)
  ∧ attempts s' = attempts s.
Proof.
  unfold Unweighted.intervalIsDue. intros H.
  apply bind_quiet_tail in H.
  - destruct (latestAggregateTime _ _ _ _ _ _ _ _ _) as [o1 s1] eqn:Hl.
    apply latest_state in Hl. simpl in H. by subst.
  - intros [t|]; [| apply quiet_stateless, stateless_ret].
    apply quiet_bind; [apply quiet_time_Since |]. intros elapsed.
    apply quiet_stateless. stateless_tac.
Qed.

Lemma midpointIsDue_events C W maxTime f to tw db rp i s o s' :
  midpointIsDue C W maxTime f to tw db rp i s = (o, s') ->
  trace s' = trace s ++ probeEvents (stalenessProbe f to i tw db rp)
  ∧ attempts s' = attempts s.
Proof.
  unfold midpointIsDue. intros H.
  apply bind_quiet_tail in H.
  - destruct (latestAggregateTime _ _ _ _ _ _ _ _ _) as [o1 s1] eqn:Hl.
    apply latest_state in Hl. simpl in H. by subst.
  - intros [t|]; [| apply quiet_stateless, stateless_ret].
    apply quiet_bind; [apply quiet_stateless, stateless_lookupOrPanic |].
    intros ref. apply quiet_bind; [apply quiet_time_Since |]. intros elapsed.
    apply quiet_stateless. stateless_tac.
Qed.

Lemma planning_loop_events (isDue : string -> M bool) (probe : string -> Query) :
  (∀ i s o s', isDue i s = (o, s') ->
     trace s' = trace s ++ probeEvents (probe i) ∧ attempts s' = attempts s) ->
  ∀ ivs acc s o s',
    forRange ivs
      (λ interval intervalsTodo,
         due ← isDue interval;
         ret (if due : bool then intervalsTodo ++ [interval] else intervalsTodo))
      acc s = (o, s') ->
    ∃ asked,
      asked `prefix_of` ivs
      ∧ trace s' = trace s ++ (asked ≫= λ i, probeEvents (probe i))
      ∧ attempts s' = attempts s
      ∧ (∀ todo, o = Returned todo -> asked = ivs).
Proof.
  intros HisDue ivs. induction ivs as [|i ivs IH]; intros acc s o s' H; simpl in H.
  - injection H as <- <-. exists []. split; [done |]. simpl.
    by rewrite app_nil_r.
  - destruct (isDue i s) as [o1 s1] eqn:Hdue.
    destruct (HisDue _ _ _ _ Hdue) as [Ht Ha].
    destruct o1 as [due|e|p|c].
    + erewrite bind_run in H;
        [| by rewrite (bind_run _ _ _ _ _ Hdue)].
      apply IH in H as (asked & Hpre & Ht' & Ha' & Hall).
      exists (i :: asked). split; [by apply prefix_cons |].
      split; [| split; [congruence |]].
      * rewrite Ht', Ht. simpl. by rewrite <- app_assoc.
      * intros todo Ho. f_equal. by eapply Hall.
    + erewrite bind_Failed in H; [| by apply bind_Failed].
      injection H as <- <-. exists [i]. split; [by apply prefix_cons, prefix_nil |].
      split; [by rewrite Ht | done].
    + erewrite bind_Panicked in H; [| by apply bind_Panicked].
      injection H as <- <-. exists [i]. split; [by apply prefix_cons, prefix_nil |].
      split; [by rewrite Ht | done].
    + erewrite bind_Exited in H; [| by apply bind_Exited].
      injection H as <- <-. exists [i]. split; [by apply prefix_cons, prefix_nil |].
      split; [by rewrite Ht | done].
Qed.

Lemma queriesOf_app e1 e2 : queriesOf (e1 ++ e2) = queriesOf e1 ++ queriesOf e2.
Proof. unfold queriesOf. apply omap_app. Qed.

Lemma writesOf_app e1 e2 : writesOf (e1 ++ e2) = writesOf e1 ++ writesOf e2.
Proof. unfold writesOf. apply omap_app. Qed.

Lemma queriesOf_probes (probe : string -> Query) asked :
  queriesOf (asked ≫= λ i, probeEvents (probe i)) = probe <$> asked.
Proof.
  induction asked as [|i asked IH]; [done |].
  rewrite bind_cons, queriesOf_app, IH. done.
Qed.

Lemma writesOf_probes (probe : string -> Query) asked :
  writesOf (asked ≫= λ i, probeEvents (probe i)) = [].
Proof.
  induction asked as [|i asked IH]; [done |].
  rewrite bind_cons, writesOf_app, IH. done.
Qed.

(** X6.  The planning loop sends one staleness query per interval, in the
    order of the enumeration, each logged just before it is sent, and makes
    no write attempt.  When the loop returns, all six were sent; when it
    ends otherwise, the ones sent are the intervals up to the one at which
    it ended. *)
Theorem planning_asks_one_staleness_query_per_interval (C : Collab) (W : World) :
  (∀ args tagsWhere s o s',
     planIntervals (Unweighted.intervalIsDue C W args tagsWhere) s = (o, s') ->
     ∃ asked,
       asked `prefix_of` allWindDirectionIntervals
       ∧ trace s' = trace s ++ (asked ≫= λ i, probeEvents (Unweighted_probe args tagsWhere i))
       ∧ attempts s' = attempts s
       ∧ (∀ todo, o = Returned todo -> asked = allWindDirectionIntervals))
  ∧ (∀ args tagsWhere s o s',
       planIntervals (Weighted.intervalIsDue C W args tagsWhere) s = (o, s') ->
       ∃ asked,
         asked `prefix_of` allWindDirectionIntervals
         ∧ trace s' = trace s ++ (asked ≫= λ i, probeEvents (Weighted_probe args tagsWhere i))
         ∧ attempts s' = attempts s
         ∧ (∀ todo, o = Returned todo -> asked = allWindDirectionIntervals))
  ∧ (∀ args tagsWhere s o s',
       planIntervals (Returning.intervalIsDue C W args tagsWhere) s = (o, s') ->
       ∃ asked,
         asked `prefix_of` allWindDirectionIntervals
         ∧ trace s' = trace s ++ (asked ≫= λ i, probeEvents (Returning_probe args tagsWhere i))
         ∧ attempts s' = attempts s
         ∧ (∀ todo, o = Returned todo -> asked = allWindDirectionIntervals)).
Proof.
  split; [| split].
  - intros args tagsWhere s o s'.
    apply (planning_loop_events _ (Unweighted_probe args tagsWhere)).
    intros i s0 o0 s0'. apply Unweighted_intervalIsDue_events.
  - intros args tagsWhere s o s'.
    apply (planning_loop_events _ (Weighted_probe args tagsWhere)).
    intros i s0 o0 s0'. apply midpointIsDue_events.
  - intros args tagsWhere s o s'.
    apply (planning_loop_events _ (Returning_probe args tagsWhere)).
    intros i s0 o0 s0'. apply midpointIsDue_events.
Qed.

Lemma planning_asks_one_staleness_query_per_interval_witness :
  ∃ asked,
    asked `prefix_of` allWindDirectionIntervals
    ∧ trace (planIntervals
               (Unweighted.intervalIsDue Example.collab
                  (Example.unweightedSampleWorld false)
                  Example.unweightedArgs Example.tagsWhere) initialState).2
      = trace initialState
        ++ (asked ≫= λ i, probeEvents
                            (Unweighted_probe Example.unweightedArgs
                               Example.tagsWhere i))
    ∧ asked = allWindDirectionIntervals.
Proof.
  set (run := planIntervals
                (Unweighted.intervalIsDue Example.collab
                   (Example.unweightedSampleWorld false)
                   Example.unweightedArgs Example.tagsWhere) initialState).
  assert (Hrun : run = (Returned allWindDirectionIntervals, run.2))
    by (vm_compute; reflexivity).
  destruct (proj1 (planning_asks_one_staleness_query_per_interval Example.collab
                     (Example.unweightedSampleWorld false))
              Example.unweightedArgs Example.tagsWhere initialState _ _ Hrun)
    as (asked & Hpre & Ht & _ & Hall).
  exists asked. split; [exact Hpre |]. split; [exact Ht |]. by eapply Hall.
Defined.

(** ** The write attempts *)

Lemma afterWrites_0 s bp : afterWrites s 0 bp = s.
Proof.
  destruct s. unfold afterWrites. simpl. by rewrite app_nil_r, Nat.add_0_r.
Qed.

Lemma afterWrites_S s k bp :
  afterWrites
    {| trace := trace s ++ [Wrote bp]; ticks := ticks s;
       attempts := S (attempts s) |} k bp
  = afterWrites s (S k) bp.
Proof.
  unfold afterWrites. simpl. f_equal; [by rewrite <- app_assoc | lia].
Qed.

Lemma retry_Do_first_success W bp k n errs s :
  (k < n)%nat -> firstSuccessAt W s bp k ->
  retry_Do (Influx_Write_call W bp) n errs s
  = (Returned None, afterWrites s (S k) bp).
Proof.
  revert n errs s. induction k as [|k IH]; intros n errs s Hlt [Hok Hfail];
    (destruct n as [|n]; [lia |]); simpl;
    unfold mbind, M_bind, bind, Influx_Write_call at 1.
  - rewrite Nat.add_0_r in Hok. rewrite Hok. unfold afterWrites. simpl.
    do 2 f_equal. lia.
  - destruct (Influx_Write W (attempts s) bp) as [e|] eqn:Hw.
    + rewrite IH.
      * by rewrite afterWrites_S.
      * lia.
      * split; simpl.
        -- by rewrite <- Nat.add_succ_comm in Hok.
        -- intros j Hj. specialize (Hfail (S j)).
           rewrite <- Nat.add_succ_comm in Hfail. apply Hfail. lia.
    + destruct (Hfail 0%nat); [lia |]. by rewrite Nat.add_0_r.
Qed.

Lemma retry_Do_events W bp n errs s :
  ∃ k r, (k <= n)%nat ∧ (n ≠ 0%nat -> k ≠ 0%nat)
         ∧ retry_Do (Influx_Write_call W bp) n errs s
           = (Returned r, afterWrites s k bp).
Proof.
  revert errs s. induction n as [|n IH]; intros errs s; simpl.
  - exists 0%nat, (Some errs). split; [done |]. split; [done |].
    by rewrite afterWrites_0.
  - unfold mbind, M_bind, bind, Influx_Write_call at 1.
    destruct (Influx_Write W (attempts s) bp) as [e|].
    + destruct (IH (errs ++ [e])
                  {| trace := trace s ++ [Wrote bp]; ticks := ticks s;
                     attempts := S (attempts s) |}) as (k & r & Hk & _ & Hrun).
      exists (S k), r. split; [lia |]. split; [done |].
      by rewrite Hrun, afterWrites_S.
    + exists 1%nat, None. split; [lia |]. split; [done |].
      unfold afterWrites. simpl. do 2 f_equal. lia.
Qed.

Lemma writeBatch_events W retries bp s :
  ∃ k logs, (k <= retries)%nat ∧ (retries ≠ 0%nat -> k ≠ 0%nat)
            ∧ writeBatch W retries bp s
              = (Returned tt, addEvents (afterWrites s k bp) logs)
            ∧ queriesOf logs = [] ∧ writesOf logs = [].
Proof.
  destruct (retry_Do_events W bp retries [] s) as (k & r & Hk & Hk' & Hrun).
  unfold writeBatch. rewrite (bind_run _ _ _ _ _ Hrun). destruct r as [errs|].
  - exists k, [Logged (LogWriteFailed errs)]. done.
  - exists k, []. by rewrite addEvents_nil.
Qed.

Lemma writesOf_replicate n bp : writesOf (replicate n (Wrote bp)) = replicate n bp.
Proof. induction n as [|n IH]; [done |]. simpl. by rewrite <- IH. Qed.

Lemma queriesOf_replicate n bp : queriesOf (replicate n (Wrote bp)) = [].
Proof. induction n as [|n IH]; [done |]. simpl. by rewrite <- IH. Qed.

(** X7.  The write is retried up to the first success: when attempt
    number [k], counted from 0 and below the retry budget, is the first to
    succeed, the write makes [k + 1] attempts, logs nothing and returns.
    So it is in [main] of the revision that writes there, and in the
    unweighted engine once its batch is prepared. *)
Theorem write_stops_at_the_first_success (W : World) (retries : nat)
    (bp : list Point) (s : State) (k : nat) :
  (k < retries)%nat -> firstSuccessAt W s bp k ->
  writeBatch W retries bp s = (Returned tt, afterWrites s (S k) bp)
  ∧ (∀ C P, bp ≠ [] -> retries = influxWriteRetries ->
       influxdb_NewBatchPoints C (os_Getenv P "INFLUX_DB") (os_Getenv P "INFLUX_RP")
       = None ->
       MainReturning.writePoints C W P bp s
       = (Returned tt, afterWrites s (S k) bp))
  ∧ (∀ C Version args s0,
       retries = Unweighted.InfluxWriteRetries args ->
       Unweighted.prepareBatch C W Version args s0 = (Returned (Some bp), s) ->
       Unweighted.WindDirectionAgg C W Version args s0
       = (Returned tt, afterWrites s (S k) bp)).
Proof.
  intros Hlt Hfirst.
  assert (Hw : writeBatch W retries bp s = (Returned tt, afterWrites s (S k) bp)).
  { unfold writeBatch.
    by rewrite (bind_run _ _ _ _ _
                  (retry_Do_first_success W bp k retries [] s Hlt Hfirst)). }
  split; [exact Hw |]. split.
  - intros C P Hne -> Hbatch. unfold MainReturning.writePoints.
    destruct (decide (length bp = 0%nat)) as [Hz | _];
      [by apply length_zero_iff_nil in Hz |].
    by rewrite Hbatch.
  - intros C Version args s0 -> Hprep. unfold Unweighted.WindDirectionAgg.
    by rewrite (bind_run _ _ _ _ _ Hprep).
Qed.

(** ** The order of the queries and the writes of a run *)

Lemma run_events_from_planning {A} (m : M A) (isDue : string -> M bool)
    (probe sample : string -> Query) s o s' :
  (∀ i s o s', isDue i s = (o, s') ->
     trace s' = trace s ++ probeEvents (probe i) ∧ attempts s' = attempts s) ->
  (∀ s1, planIntervals isDue s = (Returned [], s1) ->
     ∃ o logs, m s = (o, addEvents s1 logs)
               ∧ queriesOf logs = [] ∧ writesOf logs = []) ->
  (∀ widest rest s1, planIntervals isDue s = (Returned (widest :: rest), s1) ->
     ∃ o evs, m s = (o, addEvents (tick s1) evs)
              ∧ queriesOf evs = [sample widest] ∧ writesOf evs = []) ->
  (∀ o1 s1, planIntervals isDue s = (o1, s1) -> (∀ todo, o1 ≠ Returned todo) ->
     ∃ o, m s = (o, s1)) ->
  m s = (o, s') ->
  ∃ evsQ asked fetched,
    trace s' = trace s ++ evsQ ∧ attempts s' = attempts s
    ∧ writesOf evsQ = []
    ∧ queriesOf evsQ = (probe <$> asked) ++ (sample <$> fetched)
    ∧ asked `prefix_of` allWindDirectionIntervals
    ∧ (fetched = []
       ∨ (asked = allWindDirectionIntervals
          ∧ ∃ widest, fetched = [widest] ∧ widest ∈ allWindDirectionIntervals)).
Proof.
  intros HisDue Hnone Hsome Hfail Hrun.
  destruct (planIntervals isDue s) as [o1 s1] eqn:Hplan.
  destruct (planning_loop_events isDue probe HisDue _ _ _ _ _ Hplan)
    as (asked & Hpre & Ht & Ha & Hall).
  destruct o1 as [[|widest rest]|e|p|c].
  - destruct (Hnone _ eq_refl) as (o' & logs & Hm & Hq & Hw).
    rewrite Hm in Hrun. injection Hrun as <- <-.
    exists ((asked ≫= λ i, probeEvents (probe i)) ++ logs), asked, [].
    simpl. rewrite Ht, Ha, <- app_assoc.
    rewrite writesOf_app, queriesOf_app, writesOf_probes, queriesOf_probes, Hq, Hw.
    repeat split; auto.
  - destruct (Hsome _ _ _ eq_refl) as (o' & evs & Hm & Hq & Hw).
    rewrite Hm in Hrun. injection Hrun as <- <-.
    exists ((asked ≫= λ i, probeEvents (probe i)) ++ evs), asked, [widest].
    simpl. rewrite Ht, Ha, <- app_assoc.
    rewrite writesOf_app, queriesOf_app, writesOf_probes, queriesOf_probes, Hq, Hw.
    repeat split; auto. right. split; [by eapply Hall |].
    exists widest. split; [done |].
    apply planIntervals_sublist in Hplan.
    eapply sublist_subseteq; [exact Hplan | left].
  - destruct (Hfail _ _ eq_refl) as (o' & Hm); [done |].
    rewrite Hm in Hrun. injection Hrun as <- <-.
    exists (asked ≫= λ i, probeEvents (probe i)), asked, [].
    rewrite writesOf_probes, queriesOf_probes, app_nil_r. repeat split; auto.
  - destruct (Hfail _ _ eq_refl) as (o' & Hm); [done |].
    rewrite Hm in Hrun. injection Hrun as <- <-.
    exists (asked ≫= λ i, probeEvents (probe i)), asked, [].
    rewrite writesOf_probes, queriesOf_probes, app_nil_r. repeat split; auto.
  - destruct (Hfail _ _ eq_refl) as (o' & Hm); [done |].
    rewrite Hm in Hrun. injection Hrun as <- <-.
    exists (asked ≫= λ i, probeEvents (probe i)), asked, [].
    rewrite writesOf_probes, queriesOf_probes, app_nil_r. repeat split; auto.
Qed.

Lemma bind_not_Returned {A B} (m : M A) (k : A -> M B) s o1 s1 :
  m s = (o1, s1) -> (∀ a, o1 ≠ Returned a) -> ∃ o, (m ≫= k) s = (o, s1).
Proof.
  intros Hm Hne. unfold mbind, M_bind, bind. rewrite Hm.
  destruct o1 as [a|e|p|c]; [by destruct (Hne a) | by eexists ..].
Qed.

Lemma Unweighted_prepareBatch_events C W Version args s o s' :
  Unweighted.prepareBatch C W Version args s = (o, s') ->
  ∃ evsQ asked fetched,
    trace s' = trace s ++ evsQ ∧ attempts s' = attempts s
    ∧ writesOf evsQ = []
    ∧ queriesOf evsQ
      = (Unweighted_probe args (PartialWhereClauseForTags (Unweighted.Tags args))
           <$> asked)
        ++ (Unweighted_sampleProbe args <$> fetched)
    ∧ asked `prefix_of` allWindDirectionIntervals
    ∧ (fetched = []
       ∨ (asked = allWindDirectionIntervals
          ∧ ∃ widest, fetched = [widest] ∧ widest ∈ allWindDirectionIntervals)).
Proof.
  apply (run_events_from_planning _
           (Unweighted.intervalIsDue C W args
              (PartialWhereClauseForTags (Unweighted.Tags args)))).
  - intros i s0 o0 s0'. apply Unweighted_intervalIsDue_events.
  - intros s1 Hplan. exists (Returned None), [Logged LogNoIntervals].
    unfold Unweighted.prepareBatch. by rewrite (bind_run _ _ _ _ _ Hplan).
  - intros widest rest s1 Hplan.
    destruct (Unweighted_after_planning C W Version args s widest rest s1 Hplan)
      as (o' & evs & Hm & Hq & Hw). by exists o', evs.
  - intros o1 s1 Hplan Hne. unfold Unweighted.prepareBatch.
    by eapply bind_not_Returned.
Qed.

Lemma Weighted_prepareBatch_events C W Version args s o s' :
  Weighted.prepareBatch C W Version args s = (o, s') ->
  ∃ evsQ asked fetched,
    trace s' = trace s ++ evsQ ∧ attempts s' = attempts s
    ∧ writesOf evsQ = []
    ∧ queriesOf evsQ
      = (Weighted_probe args (PartialWhereClauseForTags (Weighted.Tags args))
           <$> asked)
        ++ (Weighted_sampleProbe args <$> fetched)
    ∧ asked `prefix_of` allWindDirectionIntervals
    ∧ (fetched = []
       ∨ (asked = allWindDirectionIntervals
          ∧ ∃ widest, fetched = [widest] ∧ widest ∈ allWindDirectionIntervals)).
Proof.
  apply (run_events_from_planning _
           (Weighted.intervalIsDue C W args
              (PartialWhereClauseForTags (Weighted.Tags args)))).
  - intros i s0 o0 s0'. apply midpointIsDue_events.
  - intros s1 Hplan. exists (Returned None), [Logged LogNoIntervals].
    unfold Weighted.prepareBatch. by rewrite (bind_run _ _ _ _ _ Hplan).
  - intros widest rest s1 Hplan.
    destruct (Weighted_after_planning C W Version args s widest rest s1 Hplan)
      as (o' & evs & Hm & Hq & Hw). by exists o', evs.
  - intros o1 s1 Hplan Hne. unfold Weighted.prepareBatch.
    by eapply bind_not_Returned.
Qed.

Lemma Returning_WindDirectionAgg_events C W args s o s' :
  Returning.WindDirectionAgg C W args s = (o, s') ->
  ∃ evsQ asked fetched,
    trace s' = trace s ++ evsQ ∧ attempts s' = attempts s
    ∧ writesOf evsQ = []
    ∧ queriesOf evsQ
      = (Returning_probe args (PartialWhereClauseForTags (Returning.QueryTags args))
           <$> asked)
        ++ (Returning_sampleProbe args <$> fetched)
    ∧ asked `prefix_of` allWindDirectionIntervals
    ∧ (fetched = []
       ∨ (asked = allWindDirectionIntervals
          ∧ ∃ widest, fetched = [widest] ∧ widest ∈ allWindDirectionIntervals)).
Proof.
  apply (run_events_from_planning _
           (Returning.intervalIsDue C W args
              (PartialWhereClauseForTags (Returning.QueryTags args)))).
  - intros i s0 o0 s0'. apply midpointIsDue_events.
  - intros s1 Hplan. exists (Returned []), [Logged LogNoIntervals].
    unfold Returning.WindDirectionAgg. by rewrite (bind_run _ _ _ _ _ Hplan).
  - intros widest rest s1 Hplan.
    destruct (Returning_after_planning C W args s widest rest s1 Hplan)
      as (o' & evs & Hm & Hq & Hw). by exists o', evs.
  - intros o1 s1 Hplan Hne. unfold Returning.WindDirectionAgg.
    by eapply bind_not_Returned.
Qed.

(** A run that prepares a batch and then writes it. *)
Lemma prepare_then_write W (prep : M (option (list Point))) retries
    (probe sample : string -> Query) s o s' :
  (∀ o1 s1, prep s = (o1, s1) ->
     ∃ evsQ asked fetched,
       trace s1 = trace s ++ evsQ ∧ attempts s1 = attempts s
       ∧ writesOf evsQ = []
       ∧ queriesOf evsQ = (probe <$> asked) ++ (sample <$> fetched)
       ∧ asked `prefix_of` allWindDirectionIntervals
       ∧ (fetched = []
          ∨ (asked = allWindDirectionIntervals
             ∧ ∃ widest, fetched = [widest] ∧ widest ∈ allWindDirectionIntervals))) ->
  (batch ← prep;
   match batch with
   | None => ret tt
   | Some bp => writeBatch W retries bp
   end) s = (o, s') ->
  ∃ evs n, trace s' = trace s ++ evs ∧ attempts s' = (attempts s + n)%nat
           ∧ runShape probe sample retries evs n.
Proof.
  intros Hprep Hrun. destruct (prep s) as [o1 s1] eqn:Hp.
  destruct (Hprep _ _ eq_refl)
    as (evsQ & asked & fetched & Ht & Ha & Hw & Hq & Hpre & Hf).
  assert (Hquiet : s' = s1 ->
            ∃ evs n, trace s' = trace s ++ evs ∧ attempts s' = (attempts s + n)%nat
                     ∧ runShape probe sample retries evs n).
  { intros ->. exists evsQ, 0%nat. rewrite Ht, Ha, Nat.add_0_r.
    split; [done |]. split; [done |].
    exists evsQ, [], asked, fetched, []. rewrite app_nil_r.
    repeat split; auto. lia. }
  unfold mbind, M_bind, bind in Hrun. rewrite Hp in Hrun.
  destruct o1 as [[bp|]|e|p|c]; try (apply Hquiet; by injection Hrun).
  destruct (writeBatch_events W retries bp s1) as (k & logs & Hk & _ & Hwb & Hlq & Hlw).
  rewrite Hwb in Hrun. injection Hrun as <- <-.
  exists (evsQ ++ replicate k (Wrote bp) ++ logs), k. simpl.
  rewrite Ht, Ha. split; [by rewrite <- !app_assoc |]. split; [done |].
  exists evsQ, (replicate k (Wrote bp) ++ logs), asked, fetched, bp.
  rewrite queriesOf_app, writesOf_app, queriesOf_replicate, writesOf_replicate,
    Hlq, Hlw, app_nil_r.
  repeat split; auto. by rewrite app_nil_r.
Qed.

Lemma runShape_logs probe sample budget logs :
  queriesOf logs = [] -> writesOf logs = [] ->
  runShape probe sample budget logs 0.
Proof.
  intros Hq Hw. exists logs, [], [], [], []. rewrite app_nil_r.
  repeat split; auto; first [apply prefix_nil | lia | done].
Qed.

Lemma runShape_then probe sample budget evsQ asked fetched tail n bp :
  writesOf evsQ = [] ->
  queriesOf evsQ = (probe <$> asked) ++ (sample <$> fetched) ->
  asked `prefix_of` allWindDirectionIntervals ->
  (fetched = []
   ∨ (asked = allWindDirectionIntervals
      ∧ ∃ widest, fetched = [widest] ∧ widest ∈ allWindDirectionIntervals)) ->
  queriesOf tail = [] -> writesOf tail = replicate n bp -> (n <= budget)%nat ->
  runShape probe sample budget (evsQ ++ tail) n.
Proof. intros. exists evsQ, tail, asked, fetched, bp. repeat split; auto. Qed.

Lemma mainPrologue_events P Version pv envFileName tagsIn s o s' :
  mainPrologue P Version pv envFileName tagsIn s = (o, s') ->
  ∃ logs, trace s' = trace s ++ logs ∧ attempts s' = attempts s
          ∧ queriesOf logs = [] ∧ writesOf logs = [].
Proof.
  unfold mainPrologue. intros H. destruct pv.
  { injection H as <- <-. by eexists [_]. }
  destruct (decide (envFileName = "")) as [_ | _];
    [| destruct (godotenv_Load P envFileName);
       [injection H as <- <-; by eexists [_] |]];
    (destruct (influxdb_NewHTTPClient P _); [injection H as <- <-; by eexists [_] |]);
    (destruct (Influx_Ping P); [injection H as <- <-; by eexists [_] |]);
    (destruct (ParseTags tagsIn); injection H as <- <-;
     [by eexists [_] | exists []; by rewrite app_nil_r]).
Qed.

(** X8.  A run queries first and writes last.  Its queries are the
    staleness queries of a prefix of the enumeration and then, only when
    all six were sent, at most one sample query, scoped to an interval of
    the enumeration: seven queries at most.  Its writes come after every
    query and are attempts, no more than the retry budget, to write one and
    the same batch.  The engine that returns its points writes nothing;
    the start of [main] neither queries nor writes; and [main] of that
    revision, from the parsed tags on, has the shape above with a budget of
    [influxWriteRetries]. *)
Theorem a_run_queries_first_and_writes_last (C : Collab) (W : World) :
  (∀ Version args s o s',
     Unweighted.WindDirectionAgg C W Version args s = (o, s') ->
     ∃ evs n,
       trace s' = trace s ++ evs ∧ attempts s' = (attempts s + n)%nat
       ∧ runShape
           (Unweighted_probe args (PartialWhereClauseForTags (Unweighted.Tags args)))
           (Unweighted_sampleProbe args) (Unweighted.InfluxWriteRetries args) evs n)
  ∧ (∀ Version args s o s',
       Weighted.WindDirectionAgg C W Version args s = (o, s') ->
       ∃ evs n,
         trace s' = trace s ++ evs ∧ attempts s' = (attempts s + n)%nat
         ∧ runShape
             (Weighted_probe args (PartialWhereClauseForTags (Weighted.Tags args)))
             (Weighted_sampleProbe args) (Weighted.InfluxWriteRetries args) evs n)
  ∧ (∀ args s o s',
       Returning.WindDirectionAgg C W args s = (o, s') ->
       ∃ evs,
         trace s' = trace s ++ evs ∧ attempts s' = attempts s
         ∧ runShape
             (Returning_probe args
                (PartialWhereClauseForTags (Returning.QueryTags args)))
             (Returning_sampleProbe args) 0 evs 0)
  ∧ (∀ P Version pv envFileName tagsIn s o s',
       mainPrologue P Version pv envFileName tagsIn s = (o, s') ->
       ∃ logs, trace s' = trace s ++ logs ∧ attempts s' = attempts s
               ∧ queriesOf logs = [] ∧ writesOf logs = [])
  ∧ (∀ P Version F qTags s o s',
       (points ← MainReturning.collectPoints C W P Version F qTags;
        MainReturning.writePoints C W P points) s = (o, s') ->
       let args := MainReturning.aggArgs P F qTags (writeTagsFor Version qTags) in
       ∃ evs n,
         trace s' = trace s ++ evs ∧ attempts s' = (attempts s + n)%nat
         ∧ runShape (Returning_probe args (PartialWhereClauseForTags qTags))
             (Returning_sampleProbe args) influxWriteRetries evs n).
Proof.
  split; [| split; [| split; [| split]]].
  - intros Version args s o s'. apply prepare_then_write.
    intros o1 s1. apply Unweighted_prepareBatch_events.
  - intros Version args s o s'. apply prepare_then_write.
    intros o1 s1. apply Weighted_prepareBatch_events.
  - intros args s o s' Hrun.
    destruct (Returning_WindDirectionAgg_events _ _ _ _ _ _ Hrun)
      as (evsQ & asked & fetched & Ht & Ha & Hw & Hq & Hpre & Hf).
    exists evsQ. split; [done |]. split; [done |].
    exists evsQ, [], asked, fetched, []. rewrite app_nil_r. repeat split; auto.
  - intros P Version pv envFileName tagsIn s o s'. apply mainPrologue_events.
  - intros P Version F qTags s o s' Hrun args.
    unfold MainReturning.collectPoints in Hrun. cbv zeta in Hrun.
    destruct (decide (MainReturning.wind_dir_field F ≠ ""
                      ∧ MainReturning.wind_speed_field F = "")) as [Hbad | _].
    { injection Hrun as <- <-. exists [Logged (LogFatal
        "wind-speed-field is required when wind-dir-field is set" "")], 0%nat.
      simpl. rewrite Nat.add_0_r. split; [done |]. split; [done |].
      by apply runShape_logs. }
    destruct (decide (MainReturning.wind_dir_field F = "")) as [Hnone | _].
    { injection Hrun as <- <-. exists [Logged LogNoDataToWrite], 0%nat.
      simpl. rewrite Nat.add_0_r. split; [done |]. split; [done |].
      by apply runShape_logs. }
    unfold mbind at 1 2, M_bind, bind, ret, onError in Hrun.
    fold args in Hrun.
    destruct (Returning.WindDirectionAgg C W args s) as [o1 s1] eqn:Hagg.
    destruct (Returning_WindDirectionAgg_events _ _ _ _ _ _ Hagg)
      as (evsQ & asked & fetched & Ht & Ha & Hw & Hq & Hpre & Hf).
    assert (Htail : ∀ logs, queriesOf logs = [] -> writesOf logs = [] ->
              s' = addEvents s1 logs ->
              ∃ evs n, trace s' = trace s ++ evs ∧ attempts s' = (attempts s + n)%nat
                       ∧ runShape (Returning_probe args (PartialWhereClauseForTags qTags))
                           (Returning_sampleProbe args) influxWriteRetries evs n).
    { intros logs Hlq Hlw ->. exists (evsQ ++ logs), 0%nat. simpl.
      rewrite Ht, Ha, Nat.add_0_r, <- app_assoc. split; [done |]. split; [done |].
      eapply (runShape_then _ _ _ _ _ _ _ _ []); eauto. lia. }
    destruct o1 as [points|e|p|c].
    + unfold MainReturning.writePoints in Hrun.
      destruct (decide (length points = 0%nat)) as [_ | _].
      { injection Hrun as <- <-. by apply (Htail [Logged LogNoDataToWrite]). }
      destruct (influxdb_NewBatchPoints C _ _) as [msg|].
      { injection Hrun as <- <-.
        by apply (Htail [Logged (LogFatal "failed to create InfluxDB batch" msg)]). }
      destruct (writeBatch_events W influxWriteRetries points s1)
        as (k & logs & Hk & _ & Hwb & Hlq & Hlw).
      rewrite Hwb in Hrun. injection Hrun as <- <-.
      exists (evsQ ++ replicate k (Wrote points) ++ logs), k. simpl.
      rewrite Ht, Ha. split; [by rewrite <- !app_assoc |]. split; [done |].
      eapply (runShape_then _ _ _ _ _ _ _ _ points); eauto.
      * by rewrite queriesOf_app, queriesOf_replicate, Hlq.
      * by rewrite writesOf_app, writesOf_replicate, Hlw, app_nil_r.
    + injection Hrun as <- <-.
      by apply (Htail [Logged (LogFatalError "Wind direction aggregation failed" e)]).
    + injection Hrun as <- <-. apply (Htail []); [done | done |].
      by rewrite addEvents_nil.
    + injection Hrun as <- <-. apply (Htail []); [done | done |].
      by rewrite addEvents_nil.
Qed.

(** ** Nested windows *)

Lemma bucketOf_nested {A} (now : Time) (d1 d2 : Duration) (samples : list (Time * A)) :
  d1 <= d2 -> bucketOf now d1 samples `sublist_of` bucketOf now d2 samples.
Proof.
  intros Hle. unfold bucketOf. apply fmap_sublist.
  induction samples as [|smp samples IH]; [done |].
  destruct (decide (now - smp.1 <= d1)) as [H1 | H1].
  - rewrite (filter_cons_True (λ x : Time * A, now - x.1 <= d1)) by done.
    rewrite (filter_cons_True (λ x : Time * A, now - x.1 <= d2)) by (simpl; lia).
    by apply sublist_skip.
  - rewrite (filter_cons_False (λ x : Time * A, now - x.1 <= d1)) by done.
    destruct (decide (now - smp.1 <= d2)) as [H2 | H2].
    + rewrite (filter_cons_True (λ x : Time * A, now - x.1 <= d2)) by done.
      by apply sublist_cons.
    + by rewrite (filter_cons_False (λ x : Time * A, now - x.1 <= d2)) by done.
Qed.

Lemma bucketOf_length {A} (now : Time) (d : Duration) (samples : list (Time * A)) :
  (length (bucketOf now d samples) <= length samples)%nat.
Proof. unfold bucketOf. rewrite length_fmap. apply length_filter. Qed.

Lemma buckets_from_empty {A} (R : list cell -> Time * A -> Prop)
    (body : list cell -> gmap string (list A) -> M (gmap string (list A)))
    (now : Time) (todo : list string) rows s data s' :
  todo ⊆ allWindDirectionIntervals ->
  (∀ row acc s data s', body row acc s = (Returned data, s') ->
     ∃ smp, R row smp ∧ ∀ i, data !! i = offered now todo smp acc i) ->
  forRange rows body (foldl (λ m interval, <[interval := []]> m) ∅ todo) s
  = (Returned data, s') ->
  ∃ samples,
    length samples = length rows
    ∧ ∀ i, i ∈ todo ->
        ∃ d, windDirIntervalToDuration i = Some d
             ∧ data !! i = Some (bucketOf now d samples).
Proof.
  intros Hsub Hbody Hloop.
  destruct (rows_loop R body now todo Hsub Hbody rows _ _ _ _ Hloop)
    as (samples & Hsamples & Hdata).
  { intros i Hi. rewrite emptyBuckets_lookup. by destruct (decide (i ∈ todo)). }
  exists samples. split; [symmetry; by eapply Forall2_length |].
  intros i Hi. destruct (Hdata _ Hi) as (d & Hd & Hlook). exists d.
  split; [done |]. rewrite emptyBuckets_lookup in Hlook.
  by destruct (decide (i ∈ todo)).
Qed.

Lemma buckets_nest {A} (now : Time) (todo : list string) (nrows : nat)
    (data : gmap string (list A)) :
  todo `sublist_of` allWindDirectionIntervals ->
  (∃ samples,
     length samples = nrows
     ∧ ∀ i, i ∈ todo ->
         ∃ d, windDirIntervalToDuration i = Some d
              ∧ data !! i = Some (bucketOf now d samples)) ->
  (∀ i j, i ∈ todo -> j ∈ todo -> atLeastAsLong i j ->
     default [] (data !! j) `sublist_of` default [] (data !! i))
  ∧ (∀ widest rest j, todo = widest :: rest -> j ∈ todo ->
       default [] (data !! j) `sublist_of` default [] (data !! widest))
  ∧ (∀ i, i ∈ todo -> (length (default [] (data !! i)) <= nrows)%nat).
Proof.
  intros Hsub (samples & Hlen & Hdata).
  assert (Hnest : ∀ i j, i ∈ todo -> j ∈ todo -> atLeastAsLong i j ->
            default [] (data !! j) `sublist_of` default [] (data !! i)).
  { intros i j Hi Hj (di & dj & Hdi & Hdj & Hle).
    destruct (Hdata _ Hi) as (di' & Hdi' & ->).
    destruct (Hdata _ Hj) as (dj' & Hdj' & ->).
    rewrite Hdi in Hdi'. rewrite Hdj in Hdj'.
    injection Hdi' as <-. injection Hdj' as <-. simpl.
    by apply bucketOf_nested. }
  split; [exact Hnest |]. split.
  - intros widest rest j Htodo Hj. apply Hnest; [subst; left | done |].
    by eapply widest_first.
  - intros i Hi. destruct (Hdata _ Hi) as (d & _ & ->). simpl.
    rewrite <- Hlen. apply bucketOf_length.
Qed.

(** X9.  The windows nest.  After the rows are put in their buckets, of
    two due intervals the bucket of the one that is not longer is a
    subsequence of the bucket of the other; every bucket is a subsequence
    of the bucket of the first due interval, the one the sample query was
    scoped to; and no bucket holds more samples than the reply had rows. *)
Theorem shorter_windows_hold_fewer_samples (C : Collab) (now : Time)
    (todo : list string) :
  todo `sublist_of` allWindDirectionIntervals ->
  (∀ rows s data s',
     forRange rows (Unweighted.bucketRow C now todo)
       (Unweighted.emptyBuckets todo) s = (Returned data, s') ->
     (∀ i j, i ∈ todo -> j ∈ todo -> atLeastAsLong i j ->
        default [] (data !! j) `sublist_of` default [] (data !! i))
     ∧ (∀ widest rest j, todo = widest :: rest -> j ∈ todo ->
          default [] (data !! j) `sublist_of` default [] (data !! widest))
     ∧ (∀ i, i ∈ todo -> (length (default [] (data !! i)) <= length rows)%nat))
  ∧ (∀ rows s data s',
       forRange rows (bucketWeightedRow C now todo)
         (emptyWeightedBuckets todo) s = (Returned data, s') ->
       (∀ i j, i ∈ todo -> j ∈ todo -> atLeastAsLong i j ->
          default [] (data !! j) `sublist_of` default [] (data !! i))
       ∧ (∀ widest rest j, todo = widest :: rest -> j ∈ todo ->
            default [] (data !! j) `sublist_of` default [] (data !! widest))
       ∧ (∀ i, i ∈ todo -> (length (default [] (data !! i)) <= length rows)%nat)).
Proof.
  intros Hsub.
  assert (Hnd : NoDup todo).
  { eapply sublist_NoDup; [| exact Hsub]. apply intervals_NoDup. }
  assert (Hsubset : todo ⊆ allWindDirectionIntervals) by by apply sublist_subseteq.
  split.
  - intros rows s data s' Hloop. apply (buckets_nest now todo _ data Hsub).
    apply (buckets_from_empty (unweightedRowSample C)
             (Unweighted.bucketRow C now todo) now todo rows s data s' Hsubset);
      [| exact Hloop].
    intros row acc s0 data0 s0'. by apply Unweighted_bucketRow_inv.
  - intros rows s data s' Hloop. apply (buckets_nest now todo _ data Hsub).
    apply (buckets_from_empty (weightedRowSample C)
             (bucketWeightedRow C now todo) now todo rows s data s' Hsubset);
      [| exact Hloop].
    intros row acc s0 data0 s0'. by apply bucketWeightedRow_inv.
Qed.

(** ** The fields of a point, exactly *)

Lemma fieldKeys_bind_length field (l : list string) :
  length (l ≫= fieldKeys field) = (3 * length l)%nat.
Proof.
  induction l as [|i l IH]; [done |]. rewrite bind_cons, length_app, IH.
  simpl. lia.
Qed.

Lemma fieldKeys_bind_NoDup field (l : list string) :
  l ⊆ allWindDirectionIntervals -> NoDup l -> NoDup (l ≫= fieldKeys field).
Proof.
  intros Hsub Hnd. apply NoDup_bind; [| | done].
  - intros i j k Hi Hj Hki Hkj. destruct (decide (i = j)) as [-> | Hne]; [done |].
    destruct (fieldKeys_disjoint field i j k (Hsub _ Hi) (Hsub _ Hj) Hne Hki Hkj).
  - intros i Hi. apply fieldKeys_NoDup. by apply Hsub.
Qed.

Lemma nonEmptyBuckets_sublist {A} (data : gmap string (list A)) todo :
  nonEmptyBuckets data todo `sublist_of` todo.
Proof. unfold nonEmptyBuckets. apply sublist_filter. Qed.

(** X10.  The point of the unweighted revision carries exactly the three
    fields of each due interval whose bucket is not empty, and no other
    field: three times as many fields as there are such intervals, 18 at
    most.  The mean and the standard-deviation field of such an interval
    hold the two statistics of its bucket, and its label field holds a
    string. *)
Theorem unweighted_point_holds_three_fields_per_interval (C : Collab)
    (args : Unweighted.WindDirectionAggArgs) (data : gmap string (list float))
    (todo : list string) (s : State) (fields : gmap string fieldValue) (s' : State) :
  todo `sublist_of` allWindDirectionIntervals ->
  forRange todo (Unweighted.aggregateInterval C args data) ∅ s
  = (Returned fields, s') ->
  dom fields
  = list_to_set (nonEmptyBuckets data todo
                 ≫= fieldKeys (Unweighted.WindDirectionField args))
  ∧ size fields = (3 * length (nonEmptyBuckets data todo))%nat
  ∧ (size fields <= 18)%nat
  ∧ (∀ i, i ∈ nonEmptyBuckets data todo ->
       fields !! Unweighted.wdMeanResultFieldName args i
       = Some (FloatField (AvgDirectionDeg C (default [] (data !! i))))
       ∧ fields !! Unweighted.wdStdDevResultFieldName args i
         = Some (FloatField (StdDevDeg C (default [] (data !! i))))
       ∧ ∃ label, fields !! Unweighted.wdMeanIntercardinalResultFieldName args i
                  = Some (StringField label)).
Proof.
  intros Hsub Hloop.
  assert (Hnd : NoDup todo) by (eapply sublist_NoDup; [apply intervals_NoDup | done]).
  assert (Hall : todo ⊆ allWindDirectionIntervals) by by apply sublist_subseteq.
  destruct (Unweighted_aggregate_loop _ _ _ _ _ _ _ _ Hall Hnd Hloop) as [H1 H2].
  assert (Hdom : dom fields
                 = list_to_set (nonEmptyBuckets data todo
                                ≫= fieldKeys (Unweighted.WindDirectionField args))).
  { apply set_eq. intros k.
    rewrite elem_of_dom, elem_of_list_to_set, list_elem_of_bind. split.
    - intros Hk.
      destruct (decide (k ∈ nonEmptyBuckets data todo
                            ≫= fieldKeys (Unweighted.WindDirectionField args)))
        as [Hin | Hout]; [by apply list_elem_of_bind in Hin |].
      rewrite H2, lookup_empty in Hk; [by destruct Hk |].
      intros i Hi Hlen Hki. apply Hout. apply list_elem_of_bind. exists i.
      split; [done |]. by apply nonEmptyBuckets_elem.
    - intros (i & Hki & Hi). apply nonEmptyBuckets_elem in Hi as [Hlen Hi].
      destruct (H1 _ Hi Hlen) as (sec & prim & _ & Hm & Hs & Hc).
      unfold fieldKeys in Hki. rewrite !elem_of_cons, elem_of_nil in Hki.
      destruct Hki as [-> | [-> | [-> | []]]]; eauto. }
  assert (Hsize : size fields = (3 * length (nonEmptyBuckets data todo))%nat).
  { rewrite <- size_dom, Hdom, size_list_to_set.
    - apply fieldKeys_bind_length.
    - apply fieldKeys_bind_NoDup.
      + intros i Hi. apply Hall. by apply nonEmptyBuckets_elem in Hi as [_ ?].
      + eapply sublist_NoDup; [exact Hnd | apply nonEmptyBuckets_sublist]. }
  split; [exact Hdom |]. split; [exact Hsize |]. split.
  - rewrite Hsize.
    pose proof (sublist_length _ _ (nonEmptyBuckets_sublist data todo)) as Hl1.
    pose proof (sublist_length _ _ Hsub) as Hl2. simpl in Hl2. lia.
  - intros i Hi. apply nonEmptyBuckets_elem in Hi as [Hlen Hi].
    destruct (H1 _ Hi Hlen) as (sec & prim & _ & Hm & Hs & Hc). eauto.
Qed.

Lemma three_fields field i (mean sd : float) (card : string) :
  i ∈ allWindDirectionIntervals ->
  let fs : gmap string fieldValue :=
    <[meanIntercardinalFieldName field i := StringField card]>
      (<[stdDevFieldName field i := FloatField sd]>
         (<[meanFieldName field i := FloatField mean]> ∅)) in
  dom fs = list_to_set (fieldKeys field i)
  ∧ size fs = 3%nat
  ∧ fs !! meanFieldName field i = Some (FloatField mean)
  ∧ fs !! stdDevFieldName field i = Some (FloatField sd)
  ∧ fs !! meanIntercardinalFieldName field i = Some (StringField card).
Proof.
  intros Hi fs. pose proof (fieldKeys_NoDup field i Hi) as Hnd.
  assert (Hdom : dom fs = list_to_set (fieldKeys field i)).
  { unfold fs, fieldKeys. rewrite !dom_insert_L, dom_empty_L. simpl.
    apply set_eq. intros k.
    rewrite !elem_of_union, !elem_of_singleton, elem_of_empty. tauto. }
  split; [exact Hdom |]. split.
  { rewrite <- size_dom, Hdom. by rewrite size_list_to_set. }
  unfold fieldKeys in Hnd.
  apply NoDup_cons in Hnd as [Hk1 Hnd]. apply NoDup_cons in Hnd as [Hk2 _].
  rewrite !elem_of_cons, elem_of_nil in Hk1.
  rewrite !elem_of_cons, elem_of_nil in Hk2. unfold fs.
  split; [| split].
  - rewrite lookup_insert_ne by naive_solver.
    rewrite lookup_insert_ne by naive_solver. by rewrite lookup_insert_eq.
  - rewrite lookup_insert_ne by naive_solver. by rewrite lookup_insert_eq.
  - by rewrite lookup_insert_eq.
Qed.

Lemma Forall2_impl_elem {A B} (P Q : A -> B -> Prop) (l : list A) (k : list B) :
  Forall2 P l k -> (∀ x y, x ∈ l -> P x y -> Q x y) -> Forall2 Q l k.
Proof.
  induction 1 as [|x y l k Hxy _ IH]; intros HPQ; constructor.
  - apply HPQ; [left | done].
  - apply IH. intros x' y' Hx'. apply HPQ. by right.
Qed.

(** X11.  In the two weighted revisions the points of a run are one per
    due interval whose bucket is not empty, in the order of the intervals,
    six at most.  Each carries the name of the target measurement, the
    write tags, and exactly three fields: the weighted mean and the
    weighted standard deviation of the bucket of its interval, and a
    label. *)
Theorem weighted_batch_holds_one_point_per_interval (C : Collab) (now : Time)
    (todo : list string) :
  todo `sublist_of` allWindDirectionIntervals ->
  (∀ args tags data s bp s',
     forRange todo (Weighted.aggregateInterval C args now tags data) [] s
     = (Returned bp, s') ->
     length bp = length (nonEmptyBuckets data todo)
     ∧ (length bp <= 6)%nat
     ∧ Forall2
         (λ i p, holdsThreeFields C (Weighted.WindDirectionField args)
                   (Weighted.MeasurementTo args) tags i (default [] (data !! i)) p)
         (nonEmptyBuckets data todo) bp)
  ∧ (∀ args data s pts s',
       forRange todo (Returning.aggregateInterval C args now data) [] s
       = (Returned pts, s') ->
       length pts = length (nonEmptyBuckets data todo)
       ∧ (length pts <= 6)%nat
       ∧ Forall2
           (λ i p, holdsThreeFields C (Returning.WindDirectionField args)
                     (Returning.MeasurementTo args) (Returning.WriteTags args) i
                     (default [] (data !! i)) p)
           (nonEmptyBuckets data todo) pts).
Proof.
  intros Hsub.
  assert (Hall : todo ⊆ allWindDirectionIntervals) by by apply sublist_subseteq.
  assert (Hsix : ∀ A (data : gmap string (list A)),
            (length (nonEmptyBuckets data todo) <= 6)%nat).
  { intros A data.
    pose proof (sublist_length _ _ (nonEmptyBuckets_sublist data todo)) as Hl1.
    pose proof (sublist_length _ _ Hsub) as Hl2. simpl in Hl2. lia. }
  split.
  - intros args tags data s bp s' Hloop.
    destruct (Weighted_aggregate_loop _ _ _ _ _ _ _ _ _ _ Hloop) as (new & -> & Hnew).
    simpl. pose proof (Forall2_length _ _ _ Hnew) as Hlen.
    split; [done |]. split; [rewrite <- Hlen; apply Hsix |].
    eapply Forall2_impl_elem; [exact Hnew |].
    intros i p Hi (mean & sd & sec & prim & ts & Havg & Hsd & _ & _ & ->).
    apply nonEmptyBuckets_elem in Hi as [_ Hi].
    destruct (three_fields (Weighted.WindDirectionField args) i mean sd
                (Weighted.cardinalResult C sec prim mean sd) (Hall _ Hi))
      as (Hdom & Hsize & Hm & Hs & Hc).
    repeat split; simpl; eauto.
  - intros args data s pts s' Hloop.
    destruct (Returning_aggregate_loop _ _ _ _ _ _ _ _ _ Hloop) as (new & -> & Hnew).
    simpl. pose proof (Forall2_length _ _ _ Hnew) as Hlen.
    split; [done |]. split; [rewrite <- Hlen; apply Hsix |].
    eapply Forall2_impl_elem; [exact Hnew |].
    intros i p Hi (mean & sd & ts & Havg & Hsd & _ & ->).
    apply nonEmptyBuckets_elem in Hi as [_ Hi].
    destruct (three_fields (Returning.WindDirectionField args) i mean sd
                (Returning.cardinalResult C i mean sd) (Hall _ Hi))
      as (Hdom & Hsize & Hm & Hs & Hc).
    repeat split; simpl; eauto.
Qed.

(** ** The policy tables *)

Ltac table_domain :=
  split;
  [ intros Hin; revert Hin;
    match goal with |- ?i ∈ _ -> _ => revert i end;
    apply interval_cases; by eexists
  | unfold windDirIntervalToDuration,
      Unweighted.maxTimeBetweenAggsForWindDirInterval,
      Unweighted.stdDevThresholdsForWindDirIntervalCardinalResult,
      Weighted.maxTimeBetweenAggsForWindDirInterval,
      Weighted.stdDevThresholdsForWindDirIntervalCardinalResult,
      Returning.maxTimeBetweenAggsForWindDirInterval;
    repeat match goal with
           | |- context [String.eqb ?i ?c] =>
               destruct (String.eqb_spec i c) as [-> | _];
               [intros _; unfold allWindDirectionIntervals;
                rewrite !elem_of_cons; auto 10 |]
           end;
    intros [? ?]; discriminate ].

(** X12.  Each lookup table is defined on the six intervals of the
    enumeration and on no other string, where the code panics.  On the
    enumeration the maximum staleness of an interval is positive and at most
    half its duration in every revision; it is the same in the unweighted
    and the weighted revision, and no longer in the revision that returns
    its points. *)
Theorem policy_tables_cover_exactly_the_enumeration (interval : string) :
  (interval ∈ allWindDirectionIntervals
   ↔ is_Some (windDirIntervalToDuration interval))
  ∧ (interval ∈ allWindDirectionIntervals
     ↔ is_Some (Unweighted.maxTimeBetweenAggsForWindDirInterval interval))
  ∧ (interval ∈ allWindDirectionIntervals
     ↔ is_Some (Unweighted.stdDevThresholdsForWindDirIntervalCardinalResult interval))
  ∧ (interval ∈ allWindDirectionIntervals
     ↔ is_Some (Weighted.maxTimeBetweenAggsForWindDirInterval interval))
  ∧ (interval ∈ allWindDirectionIntervals
     ↔ is_Some (Weighted.stdDevThresholdsForWindDirIntervalCardinalResult interval))
  ∧ (interval ∈ allWindDirectionIntervals
     ↔ is_Some (Returning.maxTimeBetweenAggsForWindDirInterval interval))
  ∧ (interval ∈ allWindDirectionIntervals ->
     ∃ d u w r,
       windDirIntervalToDuration interval = Some d
       ∧ Unweighted.maxTimeBetweenAggsForWindDirInterval interval = Some u
       ∧ Weighted.maxTimeBetweenAggsForWindDirInterval interval = Some w
       ∧ Returning.maxTimeBetweenAggsForWindDirInterval interval = Some r
       ∧ 0 < r <= w ∧ w = u ∧ 2 * u <= d).
Proof.
  split; [table_domain |]. split; [table_domain |]. split; [table_domain |].
  split; [table_domain |]. split; [table_domain |]. split; [table_domain |].
  revert interval. apply interval_cases; eexists _, _, _, _;
    (do 4 (split; [reflexivity |])); by vm_compute.
Qed.

Lemma policy_tables_cover_exactly_the_enumeration_witness :
  ∃ d u w r,
    windDirIntervalToDuration wdInterval5m = Some d
    ∧ Unweighted.maxTimeBetweenAggsForWindDirInterval wdInterval5m = Some u
    ∧ Weighted.maxTimeBetweenAggsForWindDirInterval wdInterval5m = Some w
    ∧ Returning.maxTimeBetweenAggsForWindDirInterval wdInterval5m = Some r
    ∧ 0 < r <= w ∧ w = u ∧ 2 * u <= d.
Proof.
  apply (policy_tables_cover_exactly_the_enumeration wdInterval5m).
  unfold allWindDirectionIntervals. do 5 apply list_elem_of_further.
  apply list_elem_of_here.
Defined.

(** ** A run none of whose windows holds a sample *)

Lemma Unweighted_loop_all_empty C args (data : gmap string (list float))
    todo acc s :
  (∀ i, i ∈ todo -> length (default [] (data !! i)) = 0%nat) ->
  forRange todo (Unweighted.aggregateInterval C args data) acc s
  = (Returned acc, s).
Proof.
  induction todo as [|i rest IH]; intros Hempty; simpl; [done |].
  assert (Unweighted.aggregateInterval C args data i acc s = (Returned acc, s))
    as Hstep.
  { unfold Unweighted.aggregateInterval.
    destruct (decide _) as [_ | Hn]; [done |]. destruct Hn. apply Hempty. left. }
  rewrite (bind_run _ _ _ _ _ Hstep). apply IH. intros j Hj. apply Hempty. by right.
Qed.

(** X13.  A reply to the sample query that has a series, none of whose
    rows falls in a window.  The unweighted revision then builds a point
    with no field at all, and what the client library answers decides the
    run: it fails with the library's error when [NewPoint] refuses the
    point, and it prepares the batch of that one point otherwise.  The
    weighted revision prepares a batch of no point and, unless its retry
    budget is zero, submits it to the store all the same. *)
Theorem a_run_whose_windows_are_all_empty (C : Collab) (W : World) :
  (∀ Version args s widest rest s1 row0 s2 data s3,
     planIntervals (Unweighted.intervalIsDue C W args
                      (PartialWhereClauseForTags (Unweighted.Tags args))) s
     = (Returned (widest :: rest), s1) ->
     Unweighted.fetchSamples W args widest
       (PartialWhereClauseForTags (Unweighted.Tags args)) (tick s1)
     = (Returned (Some row0), s2) ->
     forRange (Values row0)
       (Unweighted.bucketRow C (clock W (ticks s1)) (widest :: rest))
       (Unweighted.emptyBuckets (widest :: rest)) s2
     = (Returned data, s3) ->
     (∀ i, i ∈ widest :: rest -> length (default [] (data !! i)) = 0%nat) ->
     let point := {| pt_name := Unweighted.MeasurementTo args;
                     pt_tags := writeTagsFor Version (Unweighted.Tags args);
                     pt_fields := ∅;
                     pt_time := clock W (ticks s1) |} in
     (∀ msg, influxdb_NewPoint C point = Some msg ->
             Unweighted.WindDirectionAgg C W Version args s
             = (Failed (ErrCreatePoint msg), s3))
     ∧ (influxdb_NewPoint C point = None ->
        influxdb_NewBatchPoints C (Unweighted.InfluxDB args) (Unweighted.InfluxRP args)
        = None ->
        Unweighted.prepareBatch C W Version args s = (Returned (Some [point]), s3)))
  ∧ (∀ Version args s widest rest s1 row0 s2 data s3,
       planIntervals (Weighted.intervalIsDue C W args
                        (PartialWhereClauseForTags (Weighted.Tags args))) s
       = (Returned (widest :: rest), s1) ->
       Weighted.fetchSamples W args widest
         (PartialWhereClauseForTags (Weighted.Tags args)) (tick s1)
       = (Returned (Some row0), s2) ->
       forRange (Values row0)
         (bucketWeightedRow C (clock W (ticks s1)) (widest :: rest))
         (emptyWeightedBuckets (widest :: rest)) s2
       = (Returned data, s3) ->
       (∀ i, i ∈ widest :: rest -> length (default [] (data !! i)) = 0%nat) ->
       influxdb_NewBatchPoints C (Weighted.InfluxDB args) (Weighted.InfluxRP args)
       = None ->
       Weighted.prepareBatch C W Version args s = (Returned (Some []), s3)
       ∧ (Weighted.InfluxWriteRetries args ≠ 0%nat ->
          ∃ k logs,
            k ≠ 0%nat
            ∧ Weighted.WindDirectionAgg C W Version args s
              = (Returned tt, addEvents (afterWrites s3 k []) logs))).
Proof.
  split.
  - intros Version args s widest rest s1 row0 s2 data s3 Hplan Hfetch Hbuckets
      Hempty point.
    assert (Hprep : Unweighted.prepareBatch C W Version args s
                    = match influxdb_NewPoint C point with
                      | Some msg => (Failed (ErrCreatePoint msg), s3)
                      | None =>
                          match influxdb_NewBatchPoints C (Unweighted.InfluxDB args)
                                  (Unweighted.InfluxRP args) with
                          | Some msg => (Failed (ErrCreateBatch msg), s3)
                          | None => (Returned (Some [point]), s3)
                          end
                      end).
    { unfold Unweighted.prepareBatch.
      rewrite (bind_run _ _ _ _ _ Hplan). rewrite now_then.
      rewrite (bind_run _ _ _ _ _ Hfetch).
      rewrite (bind_run _ _ _ _ _ Hbuckets).
      rewrite (bind_run _ _ _ _ _
                 (Unweighted_loop_all_empty C args data _ ∅ s3 Hempty)).
      cbv zeta. unfold Unweighted.pointTimestamp. fold point.
      destruct (influxdb_NewPoint C point); [done |].
      by destruct (influxdb_NewBatchPoints C _ _). }
    split.
    + intros msg Hpoint. rewrite Hpoint in Hprep.
      unfold Unweighted.WindDirectionAgg. by rewrite (bind_Failed _ _ _ _ _ Hprep).
    + intros Hpoint Hbatch. by rewrite Hpoint, Hbatch in Hprep.
  - intros Version args s widest rest s1 row0 s2 data s3 Hplan Hfetch Hbuckets
      Hempty Hbatch.
    assert (Hprep : Weighted.prepareBatch C W Version args s
                    = (Returned (Some []), s3)).
    { unfold Weighted.prepareBatch.
      rewrite (bind_run _ _ _ _ _ Hplan). rewrite now_then.
      rewrite (bind_run _ _ _ _ _ Hfetch).
      rewrite (bind_run _ _ _ _ _ Hbuckets).
      rewrite Hbatch. cbv zeta.
      by rewrite (bind_run _ _ _ _ _
                    (Weighted_loop_all_empty C args _ _ data _ [] s3 Hempty)). }
    split; [exact Hprep |]. intros Hretries.
    destruct (writeBatch_events W (Weighted.InfluxWriteRetries args) [] s3)
      as (k & logs & _ & Hk & Hwb & _ & _).
    exists k, logs. split; [by apply Hk |].
    unfold Weighted.WindDirectionAgg. by rewrite (bind_run _ _ _ _ _ Hprep).
Qed.

(** ** Errors of the aggregation in [main] *)

Lemma Unweighted_failure_is_of_the_preparation C W Version args s e s' :
  Unweighted.WindDirectionAgg C W Version args s = (Failed e, s') ->
  Unweighted.prepareBatch C W Version args s = (Failed e, s').
Proof.
  unfold Unweighted.WindDirectionAgg, mbind, M_bind, bind.
  destruct (Unweighted.prepareBatch C W Version args s) as [[[bp|]|e'|p|c] s1].
  - destruct (writeBatch_returns W (Unweighted.InfluxWriteRetries args) bp s1)
      as (s2 & ->). discriminate.
  - discriminate.
  - intros H. by injection H as -> ->.
  - discriminate.
  - discriminate.
Qed.

(** X14.  An error of the aggregation is fatal in [main].  In both
    revisions of main.go, when start-up has succeeded, the direction field
    is set and [WindDirectionAgg] returns an error, [main] logs "Wind
    direction aggregation failed" with that error and exits with status 1,
    and no write was attempted. *)
Theorem aggregation_errors_are_fatal (C : Collab) (W : World) (P : Process)
    (Version : string) :
  (∀ F s parsed s1 e s2,
     mainPrologue P Version (MainUnweighted.version F) (MainUnweighted.env F)
       (MainUnweighted.tags F) s = (Returned parsed, s1) ->
     MainUnweighted.wind_dir_field F ≠ "" ->
     Unweighted.WindDirectionAgg C W Version (MainUnweighted.aggArgs P F parsed) s1
     = (Failed e, s2) ->
     MainUnweighted.main C W P Version F s
     = (Exited 1,
        addEvents s2 [Logged (LogFatalError "Wind direction aggregation failed" e)])
     ∧ attempts s2 = attempts s)
  ∧ (∀ F s qTags s1 e s2,
       mainPrologue P Version (MainReturning.version F) (MainReturning.env F)
         (MainReturning.tags F) s = (Returned qTags, s1) ->
       MainReturning.wind_dir_field F ≠ "" ->
       MainReturning.wind_speed_field F ≠ "" ->
       Returning.WindDirectionAgg C W
         (MainReturning.aggArgs P F qTags (writeTagsFor Version qTags)) s1
       = (Failed e, s2) ->
       MainReturning.main C W P Version F s
       = (Exited 1,
          addEvents s2 [Logged (LogFatalError "Wind direction aggregation failed" e)])
       ∧ attempts s2 = attempts s).
Proof.
  split.
  - intros F s parsed s1 e s2 Hpro Hfield Hagg. split.
    + unfold MainUnweighted.main. rewrite (bind_run _ _ _ _ _ Hpro).
      destruct (decide _) as [? | _]; [done |]. unfold onError. by rewrite Hagg.
    + destruct (mainPrologue_events _ _ _ _ _ _ _ _ Hpro) as (logs & _ & Ha & _).
      apply Unweighted_failure_is_of_the_preparation in Hagg.
      destruct (Unweighted_prepareBatch_events _ _ _ _ _ _ _ Hagg)
        as (evsQ & asked & fetched & _ & Ha' & _). congruence.
  - intros F s qTags s1 e s2 Hpro Hdir Hspd Hagg. split.
    + unfold MainReturning.main. rewrite (bind_run _ _ _ _ _ Hpro).
      assert (Hcol : MainReturning.collectPoints C W P Version F qTags s1
                     = (Exited 1,
                        addEvents s2
                          [Logged (LogFatalError "Wind direction aggregation failed" e)])).
      { unfold MainReturning.collectPoints. cbv zeta.
        destruct (decide (_ ∧ _)) as [[_ ?] | _]; [done |].
        destruct (decide (MainReturning.wind_dir_field F = "")) as [? | _]; [done |].
        unfold mbind, M_bind, bind, ret, onError. by rewrite Hagg. }
      by rewrite (bind_Exited _ _ _ _ _ Hcol).
    + destruct (mainPrologue_events _ _ _ _ _ _ _ _ Hpro) as (logs & _ & Ha & _).
      destruct (Returning_WindDirectionAgg_events _ _ _ _ _ _ Hagg)
        as (evsQ & asked & fetched & _ & Ha' & _). congruence.
Qed.

(** ** The flags of [main] *)

(** X15.  [main] dispatches on its flags.  With the version flag it
    prints the version and exits with status 0 before anything else,
    whatever the other flags and the environment.  The start of [main]
    hands over the parsed tags exactly when the version was not asked for,
    the env file (if one is named), the client and the ping all succeed and
    the tags parse, and it has then logged nothing.  After that: without a
    direction field nothing is queried or written, and the current
    revision logs "no data to write"; with a direction field but no speed
    field the current revision exits with status 1 before any query. *)
Theorem main_dispatches_on_its_flags (C : Collab) (W : World) (P : Process)
    (Version : string) :
  (∀ F s, MainReturning.version F = true ->
          MainReturning.main C W P Version F s
          = (Exited 0, addEvents s [Logged (LogVersion Version)]))
  ∧ (∀ F s, MainUnweighted.version F = true ->
            MainUnweighted.main C W P Version F s
            = (Exited 0, addEvents s [Logged (LogVersion Version)]))
  ∧ (∀ F s qTags s1,
       mainPrologue P Version (MainReturning.version F) (MainReturning.env F)
         (MainReturning.tags F) s = (Returned qTags, s1) ->
       (MainReturning.wind_dir_field F = "" ->
        MainReturning.main C W P Version F s
        = (Returned tt, addEvents s1 [Logged LogNoDataToWrite]))
       ∧ (MainReturning.wind_dir_field F ≠ "" ->
          MainReturning.wind_speed_field F = "" ->
          MainReturning.main C W P Version F s
          = (Exited 1,
             addEvents s1
               [Logged (LogFatal
                          "wind-speed-field is required when wind-dir-field is set"
                          "")])))
  ∧ (∀ F s parsed s1,
       mainPrologue P Version (MainUnweighted.version F) (MainUnweighted.env F)
         (MainUnweighted.tags F) s = (Returned parsed, s1) ->
       MainUnweighted.wind_dir_field F = "" ->
       MainUnweighted.main C W P Version F s = (Returned tt, s1))
  ∧ (∀ printVersion envFileName tagsIn s tags s1,
       mainPrologue P Version printVersion envFileName tagsIn s = (Returned tags, s1)
       ↔ printVersion = false ∧ startsUp P envFileName
         ∧ ParseTags tagsIn = inr tags ∧ s1 = s).
Proof.
  split; [| split; [| split; [| split]]].
  - intros F s Hv. unfold MainReturning.main, mainPrologue. by rewrite Hv.
  - intros F s Hv. unfold MainUnweighted.main, mainPrologue. by rewrite Hv.
  - intros F s qTags s1 Hpro. split.
    + intros Hdir. unfold MainReturning.main. rewrite (bind_run _ _ _ _ _ Hpro).
      unfold MainReturning.collectPoints. cbv zeta.
      destruct (decide (_ ∧ _)) as [[? _] | _]; [done |].
      destruct (decide (MainReturning.wind_dir_field F = "")) as [_ | ?]; done.
    + intros Hdir Hspd. unfold MainReturning.main. rewrite (bind_run _ _ _ _ _ Hpro).
      unfold MainReturning.collectPoints. cbv zeta.
      destruct (decide (_ ∧ _)) as [_ | Hn]; [done |]. by destruct Hn.
  - intros F s parsed s1 Hpro Hdir. unfold MainUnweighted.main.
    rewrite (bind_run _ _ _ _ _ Hpro). by destruct (decide _).
  - intros printVersion envFileName tagsIn s tags s1. unfold mainPrologue, startsUp.
    split.
    + intros H. destruct printVersion; [discriminate |].
      destruct (decide (envFileName = "")) as [Henv | Henv];
        [| destruct (godotenv_Load P envFileName) eqn:Hload; [discriminate |]];
        (destruct (influxdb_NewHTTPClient P _) eqn:Hclient; [discriminate |]);
        (destruct (Influx_Ping P) eqn:Hping; [discriminate |]);
        (destruct (ParseTags tagsIn) eqn:Hparse; [discriminate |]);
        injection H as <- <-; auto 10.
    + intros (-> & (Henv & Hclient & Hping) & Hparse & ->).
      rewrite Hclient, Hping, Hparse.
      destruct (decide (envFileName = "")) as [_ | Hne]; [reflexivity |].
      destruct Henv as [? | ->]; [done | reflexivity].
Qed.

(** ** The checks of the shape of a reply *)

Lemma queryChecked_error W cmd db rp s msg :
  Influx_Query W {| Command := cmd; Database := db; RetentionPolicy := rp |}
  = QueryError msg ->
  queryChecked W cmd db rp s
  = (Failed (ErrQueryFailed msg),
     addEvents s [Queried {| Command := cmd; Database := db; RetentionPolicy := rp |}]).
Proof.
  intros Hq. unfold queryChecked, Influx_Query_call.
  unfold mbind, M_bind, bind. simpl. by rewrite Hq.
Qed.

Lemma queryChecked_refused W cmd db rp s resp :
  Influx_Query W {| Command := cmd; Database := db; RetentionPolicy := rp |}
  = QueryResponse resp ->
  Err resp ≠ "" ->
  queryChecked W cmd db rp s
  = (Failed (ErrQueryFailed (Err resp)),
     addEvents s [Queried {| Command := cmd; Database := db; RetentionPolicy := rp |}]).
Proof.
  intros Hq He. unfold queryChecked, Influx_Query_call.
  unfold mbind, M_bind, bind. simpl. rewrite Hq.
  destruct (decide (Err resp = "")); done.
Qed.

Section ReplyShape.
Variable C : Collab.
Variable W : World.
Variables resultFieldName measurementTo interval tagsWhere db rp : string.

Local Abbreviation probe :=
  (stalenessProbe resultFieldName measurementTo interval tagsWhere db rp).
Local Abbreviation latest :=
  (latestAggregateTime C W resultFieldName measurementTo interval tagsWhere db rp).

Lemma latest_after_query s resp :
  Influx_Query W probe = QueryResponse resp -> Err resp = "" ->
  latest s
  = (series ← singleSeries resp;
     match series with
     | None => ret None
     | Some row0 =>
         v0 ← index (Values row0) 0;
         c ← index v0 0;
         t ← assertString c;
         match time_Parse_RFC3339 C t with
         | None => returnErr (ErrParseTime t)
         | Some t => ret (Some t)
         end
     end) (afterProbe s probe).
Proof.
  intros Hq He. unfold latestAggregateTime. rewrite log_then.
  rewrite (bind_run _ _ _ _ _ (queryChecked_run W _ _ _ _ _ Hq He)).
  unfold afterProbe. by rewrite addEvents_app.
Qed.

End ReplyShape.

(** X16.  The checks on the reply to a staleness query, in the order of
    the code.  A failed query, or a reply that carries an error text, is
    returned as "InfluxDB query failed".  Of a reply whose first result has
    a series: more than one result is an error, then more than one series
    is an error, then a series with no column makes the run panic on the
    index, then a first column other than "time" is an error, and a time
    text that does not parse is an error.  In each case the query was
    logged and sent, and nothing else happened. *)
Theorem a_reply_of_unexpected_shape_is_an_error (C : Collab) (W : World)
    (resultFieldName measurementTo interval tagsWhere db rp : string) (s : State) :
  let probe := stalenessProbe resultFieldName measurementTo interval tagsWhere db rp in
  let latest :=
    latestAggregateTime C W resultFieldName measurementTo interval tagsWhere db rp in
  (∀ msg, Influx_Query W probe = QueryError msg ->
          latest s = (Failed (ErrQueryFailed msg), afterProbe s probe))
  ∧ (∀ resp, Influx_Query W probe = QueryResponse resp -> Err resp ≠ "" ->
             latest s = (Failed (ErrQueryFailed (Err resp)), afterProbe s probe))
  ∧ (∀ resp res0 rest row0 more,
       Influx_Query W probe = QueryResponse resp -> Err resp = "" ->
       Results resp = res0 :: rest -> Series res0 = row0 :: more ->
       (rest ≠ [] ->
        latest s = (Failed (ErrExpectedOneResult (S (length rest))),
                    afterProbe s probe))
       ∧ (rest = [] -> more ≠ [] ->
          latest s = (Failed (ErrExpectedOneSeries (S (length more))),
                      afterProbe s probe))
       ∧ (rest = [] -> more = [] -> Columns row0 = [] ->
          latest s = (Panicked (PanicIndexOutOfRange 0 0), afterProbe s probe))
       ∧ (∀ c0 cols, rest = [] -> more = [] -> Columns row0 = c0 :: cols ->
            c0 ≠ "time" ->
            latest s = (Failed (ErrFirstColumn c0), afterProbe s probe))
       ∧ (∀ cols text cells rows, rest = [] -> more = [] ->
            Columns row0 = "time" :: cols ->
            Values row0 = (CString text :: cells) :: rows ->
            time_Parse_RFC3339 C text = None ->
            latest s = (Failed (ErrParseTime text), afterProbe s probe))).
Proof.
  intros probe latest. split; [| split].
  - intros msg Hq. unfold latest, latestAggregateTime. rewrite log_then.
    rewrite (bind_Failed _ _ _ _ _ (queryChecked_error W _ _ _ _ _ Hq)).
    unfold afterProbe. by rewrite addEvents_app.
  - intros resp Hq He. unfold latest, latestAggregateTime. rewrite log_then.
    rewrite (bind_Failed _ _ _ _ _ (queryChecked_refused W _ _ _ _ _ Hq He)).
    unfold afterProbe. by rewrite addEvents_app.
  - intros resp res0 rest row0 more Hq He Hres Hser.
    unfold latest. rewrite (latest_after_query C W _ _ _ _ _ _ s resp Hq He).
    fold probe. unfold singleSeries. rewrite Hres, Hser.
    split; [| split; [| split; [| split]]].
    + intros Hrest. destruct rest as [|? ?]; done.
    + intros -> Hmore. destruct more as [|? ?]; done.
    + intros -> -> Hcol. simpl. by rewrite Hcol.
    + intros c0 cols -> -> Hcol Hc0. simpl. rewrite Hcol.
      unfold mbind, M_bind, bind. simpl. by destruct (decide (c0 = "time")).
    + intros cols text cells rows -> -> Hcol Hval Hparse. simpl. rewrite Hcol.
      unfold mbind, M_bind, bind. simpl. rewrite Hval. simpl. by rewrite Hparse.
Qed.

Lemma a_reply_of_unexpected_shape_is_an_error_witness :
  (latestAggregateTime Example.collab (Example.uniformWorld twoResults Example.midnight)
     "wind_dir_mean_5m" "weather_station_agg" "5m" Example.tagsWhere "wx" "autogen"
     initialState).1
  = Failed (ErrExpectedOneResult 2).
Proof.
  destruct (a_reply_of_unexpected_shape_is_an_error Example.collab
              (Example.uniformWorld twoResults Example.midnight)
              "wind_dir_mean_5m" "weather_station_agg" "5m" Example.tagsWhere
              "wx" "autogen" initialState) as (_ & _ & H).
  destruct (H twoResults _ _ _ _ eq_refl eq_refl eq_refl eq_refl) as (H1 & _).
  by rewrite H1.
Defined.

(** ** A run over replies of the expected shape *)























(** ** The further properties at concrete inputs *)

Lemma where_clause_has_one_conjunct_per_tag_witness :
  ParseTags "station=home" = inr {["station" := "home"]}
  ∧ PartialWhereClauseForTags {["station" := "home"]} = " AND station='home'".
Proof.
  apply (proj2 (proj2 (proj2 where_clause_has_one_conjunct_per_tag))
           ("station", "home")).
  repeat split.
Defined.

Lemma write_stops_at_the_first_success_witness :
  writeBatch flakyWrites 2 [examplePoint] initialState
  = (Returned tt, afterWrites initialState 2 [examplePoint]).
Proof.
  assert (Hbudget : (1 < 2)%nat) by lia.
  assert (Hfirst : firstSuccessAt flakyWrites initialState [examplePoint] 1).
  { split; [reflexivity |]. intros j Hj. assert (j = 0%nat) as -> by lia.
    discriminate. }
  destruct (write_stops_at_the_first_success flakyWrites 2 [examplePoint]
              initialState 1 Hbudget Hfirst) as [Hwrite _].
  exact Hwrite.
Defined.

Lemma a_run_queries_first_and_writes_last_witness :
  ∃ evs n,
    trace (Unweighted.WindDirectionAgg Example.collab
             (Example.unweightedSampleWorld false) "<dev>"
             Example.unweightedArgs initialState).2
    = trace initialState ++ evs
    ∧ attempts (Unweighted.WindDirectionAgg Example.collab
                  (Example.unweightedSampleWorld false) "<dev>"
                  Example.unweightedArgs initialState).2
      = (attempts initialState + n)%nat
    ∧ runShape
        (Unweighted_probe Example.unweightedArgs
           (PartialWhereClauseForTags (Unweighted.Tags Example.unweightedArgs)))
        (Unweighted_sampleProbe Example.unweightedArgs)
        (Unweighted.InfluxWriteRetries Example.unweightedArgs) evs n.
Proof.
  apply (proj1 (a_run_queries_first_and_writes_last Example.collab
                  (Example.unweightedSampleWorld false))
           "<dev>" Example.unweightedArgs initialState
           (Unweighted.WindDirectionAgg Example.collab
              (Example.unweightedSampleWorld false) "<dev>"
              Example.unweightedArgs initialState).1).
  apply surjective_pairing.
Defined.

Lemma shorter_windows_hold_fewer_samples_witness :
  let data : gmap string (list float) :=
    <[wdInterval5m := [10%float]]> {[ wdInterval1h := [350%float; 10%float] ]} in
  forRange twoRows
    (Unweighted.bucketRow Example.collab (Example.midnight + 8 * Minute)
       [wdInterval1h; wdInterval5m])
    (Unweighted.emptyBuckets [wdInterval1h; wdInterval5m]) initialState
  = (Returned data, initialState)
  ∧ default [] (data !! wdInterval5m) `sublist_of` default [] (data !! wdInterval1h).
Proof.
  intros data.
  assert (Hrun : forRange twoRows
                   (Unweighted.bucketRow Example.collab
                      (Example.midnight + 8 * Minute) [wdInterval1h; wdInterval5m])
                   (Unweighted.emptyBuckets [wdInterval1h; wdInterval5m])
                   initialState
                 = (Returned data, initialState)) by (vm_compute; reflexivity).
  split; [exact Hrun |].
  assert (Hsub : [wdInterval1h; wdInterval5m] `sublist_of` allWindDirectionIntervals).
  { unfold allWindDirectionIntervals.
    do 2 apply sublist_cons. apply sublist_skip. do 2 apply sublist_cons.
    apply sublist_skip. apply sublist_nil_l. }
  destruct (proj1 (shorter_windows_hold_fewer_samples Example.collab
                     (Example.midnight + 8 * Minute)
                     [wdInterval1h; wdInterval5m] Hsub)
              twoRows initialState data initialState Hrun) as (_ & Hwidest & _).
  apply (Hwidest wdInterval1h [wdInterval5m] wdInterval5m eq_refl).
  apply list_elem_of_further, list_elem_of_here.
Defined.

Lemma unweighted_point_holds_three_fields_per_interval_witness :
  let data : gmap string (list float) := {[ wdInterval1h := [10%float] ]} in
  let fields : gmap string fieldValue :=
    <["wind_dir_mean_intercardinal_1h" := StringField "N"]>
      (<["wind_dir_stddev_1h" := FloatField 0]>
         {[ "wind_dir_mean_1h" := FloatField 10 ]}) in
  forRange [wdInterval1h; wdInterval5m]
    (Unweighted.aggregateInterval Example.collab Example.unweightedArgs data)
    ∅ initialState
  = (Returned fields, initialState)
  ∧ size fields = 3%nat.
Proof.
  intros data fields.
  assert (Hrun : forRange [wdInterval1h; wdInterval5m]
                   (Unweighted.aggregateInterval Example.collab
                      Example.unweightedArgs data) ∅ initialState
                 = (Returned fields, initialState)) by (vm_compute; reflexivity).
  split; [exact Hrun |].
  assert (Hsub : [wdInterval1h; wdInterval5m] `sublist_of` allWindDirectionIntervals).
  { unfold allWindDirectionIntervals.
    do 2 apply sublist_cons. apply sublist_skip. do 2 apply sublist_cons.
    apply sublist_skip. apply sublist_nil_l. }
  destruct (unweighted_point_holds_three_fields_per_interval Example.collab
              Example.unweightedArgs data [wdInterval1h; wdInterval5m]
              initialState fields initialState Hsub Hrun) as (_ & Hsize & _).
  rewrite Hsize. vm_compute. reflexivity.
Defined.

Lemma weighted_batch_holds_one_point_per_interval_witness :
  let data : gmap string (list wdDataPoint) :=
    {[ wdInterval1h := [ {| dir := 10%float; spd := 5%float |} ] ]} in
  ∃ pts,
    forRange [wdInterval1h; wdInterval5m]
      (Returning.aggregateInterval Example.collab Example.returningArgs
         Example.midnight data) [] initialState
    = (Returned pts, initialState)
    ∧ length pts = 1%nat.
Proof.
  intros data.
  set (run := forRange [wdInterval1h; wdInterval5m]
                (Returning.aggregateInterval Example.collab Example.returningArgs
                   Example.midnight data) [] initialState).
  destruct run as [[pts|e|p|c] s'] eqn:Hrun; try (vm_compute in Hrun; discriminate).
  assert (Hs : s' = initialState).
  { unfold run in Hrun. eapply stateless_run; [| exact Hrun].
    apply stateless_forRange. intros i acc.
    apply Returning_stateless_aggregateInterval. }
  subst s'. exists pts. split; [reflexivity |].
  assert (Hsub : [wdInterval1h; wdInterval5m] `sublist_of` allWindDirectionIntervals).
  { unfold allWindDirectionIntervals.
    do 2 apply sublist_cons. apply sublist_skip. do 2 apply sublist_cons.
    apply sublist_skip. apply sublist_nil_l. }
  destruct (proj2 (weighted_batch_holds_one_point_per_interval Example.collab
                     Example.midnight [wdInterval1h; wdInterval5m] Hsub)
              Example.returningArgs data initialState pts initialState Hrun)
    as (Hlen & _).
  rewrite Hlen. vm_compute. reflexivity.
Defined.

Lemma a_run_whose_windows_are_all_empty_witness :
  (Unweighted.prepareBatch Example.collab emptySeriesWorld "<dev>"
     Example.unweightedArgs initialState).1
  = Returned
      (Some [ {| pt_name := "weather_station_agg";
                 pt_tags := writeTagsFor "<dev>" Example.stationTags;
                 pt_fields := ∅;
                 pt_time := (Example.midnight + 4 * Minute) |} ]).
Proof.
  set (plan := planIntervals
                 (Unweighted.intervalIsDue Example.collab emptySeriesWorld
                    Example.unweightedArgs
                    (PartialWhereClauseForTags (Unweighted.Tags Example.unweightedArgs)))
                 initialState).
  assert (Hplan : plan = (Returned (wdInterval6h :: tail allWindDirectionIntervals),
                          plan.2)) by (vm_compute; reflexivity).
  set (fetch := Unweighted.fetchSamples emptySeriesWorld Example.unweightedArgs
                  wdInterval6h
                  (PartialWhereClauseForTags (Unweighted.Tags Example.unweightedArgs))
                  (tick plan.2)).
  assert (Hfetch : fetch = (Returned (Some {| Columns := ["time"; "wind_dir"];
                                              Values := [] |}), fetch.2))
    by (vm_compute; reflexivity).
  destruct (proj1 (a_run_whose_windows_are_all_empty Example.collab emptySeriesWorld)
              "<dev>" Example.unweightedArgs initialState wdInterval6h
              (tail allWindDirectionIntervals) plan.2 _ fetch.2
              (Unweighted.emptyBuckets allWindDirectionIntervals) fetch.2
              Hplan Hfetch eq_refl) as (_ & Hrun).
  - apply interval_cases; vm_compute; reflexivity.
  - rewrite (Hrun eq_refl eq_refl). reflexivity.
Defined.

Lemma aggregation_errors_are_fatal_witness :
  (MainReturning.main Example.collab brokenStore Example.process "<dev>"
     flagsStation initialState).1
  = Exited 1.
Proof.
  set (pro := mainPrologue Example.process "<dev>" false "" "station=home"
                initialState).
  assert (Hpro : pro = (Returned Example.stationTags, pro.2))
    by (vm_compute; reflexivity).
  set (agg := Returning.WindDirectionAgg Example.collab brokenStore
                (MainReturning.aggArgs Example.process flagsStation
                   Example.stationTags (writeTagsFor "<dev>" Example.stationTags))
                pro.2).
  assert (Hagg : agg = (Failed (ErrQueryFailed "connection refused"), agg.2))
    by (vm_compute; reflexivity).
  destruct (proj2 (aggregation_errors_are_fatal Example.collab brokenStore
                     Example.process "<dev>")
              flagsStation initialState Example.stationTags pro.2
              (ErrQueryFailed "connection refused") agg.2 Hpro)
    as (Hmain & _); [done | done | exact Hagg |].
  by rewrite Hmain.
Defined.

Lemma main_dispatches_on_its_flags_witness :
  MainReturning.main Example.collab brokenStore Example.process "<dev>"
    flagsVersion initialState
  = (Exited 0, addEvents initialState [Logged (LogVersion "<dev>")]).
Proof.
  apply (proj1 (main_dispatches_on_its_flags Example.collab brokenStore
                  Example.process "<dev>") flagsVersion initialState).
  reflexivity.
Defined.


